(** * Schema generator (app.py): rate limiter, generation pipeline, record store

    A shallow embedding of [app.py].  Python objects that are mutated in
    place ([RateLimiter.request_times], the SQLite table, the Streamlit page)
    are threaded explicitly; the clock read by [time.time()] and advanced by
    [time.sleep()] lives in a [World] together with the trace of the effects
    the code performs, in the order in which it performs them.

    Modelling conventions.
    - A Python [str] is a list of Unicode code points ([pystr]); [bytes] is a
      list of octets.
    - Instants and durations ([time.time()], [time_frame], [wait_time]) are
      rationals: every float the clock can return is one, and the limiter only
      adds, subtracts and compares them.  Rounding of float arithmetic is not
      modelled.
    - [json.loads], [json.dumps], [bytes.decode] and [re.search] belong to the
      Python library, not to the repository; they are modelled here after
      CPython's [json/decoder.py], [json/scanner.py] and [json/encoder.py].
      The interpreter's resource limits (recursion depth, the length limit of
      [int()] on digit strings) are not modelled.
    - What the input widgets return in a run of the script is an input of
      [run]; what the run puts on the page is a list of events, in order. *)

From Stdlib Require Import String Ascii.
From Stdlib Require Import List ZArith NArith QArith Lia Lqa Bool Permutation.
From Stdlib Require DecimalPos DecimalN DecimalZ DecimalFacts.
Import ListNotations.
Local Open Scope list_scope.

Set Implicit Arguments.
Set Warnings "-register-all".

(* ================================================================== *)
(** ** Python values shared by the whole program *)

(** A Python [str]: a sequence of code points. *)
Definition pystr := list N.

(** A Python [bytes] object. *)
Definition pybytes := list N.

(** The code points of an ASCII literal of this file. *)
Definition str (s : string) : pystr :=
  map N_of_ascii (list_ascii_of_string s).

(** The exceptions the program can meet. *)
Inductive exn : Type :=
| IndexError                          (* deque index out of range *)
| BlockedPromptException (e : pystr)  (* genai.types.generation_types *)
| JSONDecodeError                     (* json.JSONDecodeError *)
| UnicodeDecodeError                  (* bytes.decode('utf-8') *)
| IntegrityError                      (* sqlite3: PRIMARY KEY constraint *)
| OtherException (e : pystr).         (* anything else; [e] is str(e) *)

(** The outcome of a Python expression that may raise. *)
Inductive result (A : Type) : Type :=
| Ok (a : A)
| Raise (e : exn).
Arguments Ok {A} a.
Arguments Raise {A} e.

Definition bind {A B} (r : result A) (k : A -> result B) : result B :=
  match r with
  | Ok a => k a
  | Raise e => Raise e
  end.

Notation "x <- r ;; k" := (bind r (fun x => k))
  (at level 61, r at next level, right associativity).

(* ================================================================== *)
(** ** JSON documents as Python objects *)

(** What [json.loads] returns.  A float is kept as the decimal lexeme that
    denotes it: [JFloat l] is [float(l)].  The three non-finite floats have
    their own JSON constants. *)
Inductive json : Type :=
| JNone                               (* None *)
| JBool (b : bool)
| JInt (n : Z)
| JFloat (lexeme : pystr)
| JNaN
| JInfinity
| JNegInfinity
| JStr (s : pystr)
| JList (items : list json)
| JDict (items : list (pystr * json)).   (* insertion order, keys distinct *)

(* ================================================================== *)
(** ** Effects: the clock, the lock and the page *)

(** The [error] entry of a failed upload: the literal text of line 170, or
    [str(e)] of the exception caught at line 172. *)
Inductive upload_error : Type :=
| InvalidJSONFormat              (* "Invalid JSON format" *)
| ExceptionText (e : exn).       (* str(e) *)

(** The texts the page shows through [st.error], [st.warning] and
    [st.success]. *)
Inductive st_message : Type :=
| PromptBlocked (e : pystr)      (* f"Prompt blocked: {e}" *)
| CouldNotParse                  (* "Could not parse generated schema. Please try again." *)
| ErrorGenerating (e : exn)      (* f"Error generating schema: {str(e)}" *)
| RateLimitReached (wait_time : Q)  (* f"Rate limit reached. Waiting {wait_time:.2f} seconds..." *)
| UploadedSuccessfully (n : nat) (* f"{n} file(s) uploaded successfully!" *)
| FailedToUpload (n : nat)       (* f"{n} file(s) failed to upload" *)
| FileError (filename : pystr) (error : upload_error)  (* f"File: {filename} - Error: {error}" *)
| EnterPrompt                    (* "Please enter a prompt to generate the schema." *)
| NoRecordFound.                 (* "No record found with the given ID." *)

Inductive event : Type :=
| EvLockAcquire                      (* entering [with self._lock] *)
| EvLockRelease                      (* leaving it, normally or by an exception *)
| EvSleep (seconds : Q)              (* time.sleep(seconds) *)
| EvGenerateContent (prompt : pystr) (* self.model.generate_content(prompt) *)
| EvStError (m : st_message)         (* st.error(...) *)
| EvStWarning (m : st_message)       (* st.warning(...) *)
| EvStSuccess (m : st_message)       (* st.success(...) *)
| EvStSubheader (filename id : pystr) (* st.subheader(f"File: {filename} (ID: {id})") *)
| EvStJson (body : json)             (* st.json(...) *)
| EvDownloadButton (data file_name : pystr).  (* st.download_button(...) *)

Record World : Type := mkWorld {
  clock : Q;            (* what time.time() returns now *)
  trace : list event    (* effects so far, oldest first *)
}.

Definition emit (e : event) (w : World) : World :=
  mkWorld (clock w) (trace w ++ [e]).

(** [time.sleep(d)]: the caller is suspended for [d]. *)
Definition sleep (d : Q) (w : World) : World :=
  mkWorld (clock w + d) (trace w ++ [EvSleep d]).

(** The caller does something else for [d] seconds between two calls. *)
Definition idle (d : Q) (w : World) : World :=
  mkWorld (clock w + d) (trace w).

(** The durations passed to [time.sleep] in a trace. *)
Fixpoint sleeps (tr : list event) : list Q :=
  match tr with
  | [] => []
  | EvSleep d :: tr' => d :: sleeps tr'
  | _ :: tr' => sleeps tr'
  end.

(** [a > b] on rationals, as a boolean. *)
Definition Qgt_bool (a b : Q) : bool := negb (Qle_bool a b).

(* ================================================================== *)
(** ** class RateLimiter *)

Record RateLimiter : Type := mkRateLimiter {
  max_requests : Z;
  time_frame : Q;
  request_times : list Q      (* the deque, left end first *)
}.

(** [RateLimiter.__init__(max_requests=60, time_frame=60)]. *)
Definition RateLimiter_init (max_requests : Z) (time_frame : Q) : RateLimiter :=
  mkRateLimiter max_requests time_frame [].

Definition RateLimiter_default : RateLimiter := RateLimiter_init 60 60.

Definition set_request_times (rl : RateLimiter) (q : list Q) : RateLimiter :=
  mkRateLimiter (max_requests rl) (time_frame rl) q.

(** Lines 39-40:
    [while self.request_times and current_time - self.request_times[0] > self.time_frame:
         self.request_times.popleft()] *)
Fixpoint popleft_stale (current_time frame : Q) (q : list Q) : list Q :=
  match q with
  | [] => []
  | t0 :: q' =>
      if Qgt_bool (current_time - t0) frame
      then popleft_stale current_time frame q'
      else q
  end.

(** [RateLimiter.wait], lines 30-53.  The result carries the limiter and the
    world as the call leaves them, also when it raises. *)
Definition wait (rl : RateLimiter) (w : World) : result unit * RateLimiter * World :=
  let current_time := clock w in
  let w1 := emit EvLockAcquire w in
  let rl1 := set_request_times rl
               (popleft_stale current_time (time_frame rl) (request_times rl)) in
  if (Z.of_nat (length (request_times rl1)) >=? max_requests rl)%Z then
    match request_times rl1 with
    | [] => (Raise IndexError, rl1, emit EvLockRelease w1)
    | oldest_request :: _ =>
        let wait_time := time_frame rl - (current_time - oldest_request) in
        let w2 := if Qgt_bool wait_time 0
                  then sleep wait_time (emit (EvStWarning (RateLimitReached wait_time)) w1)
                  else w1 in
        (Ok tt,
         set_request_times rl1 (request_times rl1 ++ [current_time]),
         emit EvLockRelease w2)
    end
  else
    (Ok tt,
     set_request_times rl1 (request_times rl1 ++ [current_time]),
     emit EvLockRelease w1).

(** A caller that calls [wait] repeatedly, idling [d] seconds before each
    call ([gaps] lists the [d]s); stops at the first call that raises. *)
Fixpoint wait_calls (gaps : list Q) (rl : RateLimiter) (w : World)
  : result unit * RateLimiter * World :=
  match gaps with
  | [] => (Ok tt, rl, w)
  | d :: gaps' =>
      match wait rl (idle d w) with
      | (Ok _, rl', w') => wait_calls gaps' rl' w'
      | failed => failed
      end
  end.

(** How many of the recorded instants lie in the window [[t, t + frame]]. *)
Definition count_in_window (t frame : Q) (recorded : list Q) : nat :=
  length (filter (fun x => Qle_bool t x && Qle_bool x (t + frame)) recorded).

(** "No [frame]-wide window holds more than [limit] recorded instants." *)
Definition quota_respected (limit : Z) (frame : Q) (recorded : list Q) : Prop :=
  forall t : Q, (Z.of_nat (count_in_window t frame recorded) <= limit)%Z.

(** The algorithm as the specification words it (4.1, steps 1-4): read the
    clock, evict, and when the window is full and the wait is positive, sleep
    outside the lock and start again from step 1; only then append the time
    read last.  [fuel] bounds the number of rounds. *)
Fixpoint acquire_spec (fuel : nat) (rl : RateLimiter) (w : World)
  : option (RateLimiter * World) :=
  match fuel with
  | O => None
  | S fuel' =>
      let now := clock w in
      let w1 := emit EvLockAcquire w in
      let q := popleft_stale now (time_frame rl) (request_times rl) in
      let full := (Z.of_nat (length q) >=? max_requests rl)%Z in
      match full, q with
      | true, oldest :: _ =>
          let wait_time := time_frame rl - (now - oldest) in
          if Qgt_bool wait_time 0
          then acquire_spec fuel' (set_request_times rl q)
                 (sleep wait_time (emit EvLockRelease w1))
          else Some (set_request_times rl (q ++ [now]), emit EvLockRelease w1)
      | _, _ => Some (set_request_times rl (q ++ [now]), emit EvLockRelease w1)
      end
  end.

(* ================================================================== *)
(** ** Text helpers *)

Fixpoint pystr_eqb (a b : pystr) : bool :=
  match a, b with
  | [], [] => true
  | x :: a', y :: b' => (x =? y)%N && pystr_eqb a' b'
  | _, _ => false
  end.

(** [s.startswith(p)], returning what follows the prefix. *)
Fixpoint strip_prefix (p s : pystr) : option pystr :=
  match p, s with
  | [], _ => Some s
  | x :: p', y :: s' => if (x =? y)%N then strip_prefix p' s' else None
  | _ :: _, [] => None
  end.

(** ** bytes.decode('utf-8') and str.encode() *)

Definition is_cont (b : N) : bool := ((128 <=? b) && (b <=? 191))%N.

(** Strict UTF-8: no overlong forms, no surrogates, nothing above U+10FFFF.
    [None] is UnicodeDecodeError. *)
Fixpoint utf8_decode (b : pybytes) : option pystr :=
  (match b with
   | [] => Some []
   | b0 :: r0 =>
       if b0 <? 128 then option_map (cons b0) (utf8_decode r0)
       else if b0 <? 194 then None
       else if b0 <? 224 then
         match r0 with
         | b1 :: r1 =>
             if is_cont b1
             then option_map (cons ((b0 - 192) * 64 + (b1 - 128))) (utf8_decode r1)
             else None
         | _ => None
         end
       else if b0 <? 240 then
         match r0 with
         | b1 :: b2 :: r2 =>
             if is_cont b1 && is_cont b2
                && negb ((b0 =? 224) && (b1 <? 160))
                && negb ((b0 =? 237) && (160 <=? b1))
             then option_map
                    (cons ((b0 - 224) * 4096 + (b1 - 128) * 64 + (b2 - 128)))
                    (utf8_decode r2)
             else None
         | _ => None
         end
       else if b0 <? 245 then
         match r0 with
         | b1 :: b2 :: b3 :: r3 =>
             if is_cont b1 && is_cont b2 && is_cont b3
                && negb ((b0 =? 240) && (b1 <? 144))
                && negb ((b0 =? 244) && (144 <=? b1))
             then option_map
                    (cons ((b0 - 240) * 262144 + (b1 - 128) * 4096
                           + (b2 - 128) * 64 + (b3 - 128)))
                    (utf8_decode r3)
             else None
         | _ => None
         end
       else None
   end)%N.

Definition is_surrogate (c : N) : bool := ((55296 <=? c) && (c <=? 57343))%N.

(** [str.encode()] (UTF-8, strict): [None] is UnicodeEncodeError. *)
Fixpoint utf8_encode (s : pystr) : option pybytes :=
  (match s with
   | [] => Some []
   | c :: s' =>
       let unit :=
         if c <? 128 then Some [c]
         else if c <? 2048 then Some [192 + c / 64; 128 + c mod 64]
         else if is_surrogate c then None
         else if c <? 65536
         then Some [224 + c / 4096; 128 + (c / 64) mod 64; 128 + c mod 64]
         else if c <? 1114112
         then Some [240 + c / 262144; 128 + (c / 4096) mod 64;
                    128 + (c / 64) mod 64; 128 + c mod 64]
         else None in
       match unit, utf8_encode s' with
       | Some u, Some r => Some (u ++ r)
       | _, _ => None
       end
   end)%N.

(* ================================================================== *)
(** ** json.loads *)

(** What a scanning function returns: the value and the text after it, a
    syntax error (JSONDecodeError), or recursion budget spent. *)
Inductive scan (A : Type) : Type :=
| Parsed (a : A) (rest : pystr)
| Invalid
| Exhausted.
Arguments Parsed {A} a rest.
Arguments Invalid {A}.
Arguments Exhausted {A}.

(** WHITESPACE: any run of space, tab, line feed, carriage return. *)
Definition is_ws (c : N) : bool :=
  ((c =? 32) || (c =? 9) || (c =? 10) || (c =? 13))%N.

Fixpoint skip_ws (s : pystr) : pystr :=
  match s with
  | c :: s' => if is_ws c then skip_ws s' else s
  | [] => []
  end.

Definition is_digit (c : N) : bool := ((48 <=? c) && (c <=? 57))%N.

Definition hexval (c : N) : option N :=
  (if is_digit c then Some (c - 48)
   else if (97 <=? c) && (c <=? 102) then Some (c - 87)
   else if (65 <=? c) && (c <=? 70) then Some (c - 55)
   else None)%N.

(** [_decode_uXXXX]: four hexadecimal digits. *)
Definition decode_uXXXX (h1 h2 h3 h4 : N) : option N :=
  match hexval h1, hexval h2, hexval h3, hexval h4 with
  | Some a, Some b, Some c, Some d => Some (((a * 16 + b) * 16 + c) * 16 + d)%N
  | _, _, _, _ => None
  end.

(** BACKSLASH: the one-letter escapes. *)
Definition backslash (esc : N) : option N :=
  (if esc =? 34 then Some 34          (* quote *)
   else if esc =? 92 then Some 92     (* backslash *)
   else if esc =? 47 then Some 47     (* slash *)
   else if esc =? 98 then Some 8      (* b: backspace *)
   else if esc =? 102 then Some 12    (* f: form feed *)
   else if esc =? 110 then Some 10    (* n: line feed *)
   else if esc =? 114 then Some 13    (* r: carriage return *)
   else if esc =? 116 then Some 9     (* t: tab *)
   else None)%N.

Definition is_high_surrogate (c : N) : bool := ((55296 <=? c) && (c <=? 56319))%N.
Definition is_low_surrogate (c : N) : bool := ((56320 <=? c) && (c <=? 57343))%N.

Definition option_cons (c : N) (r : option (pystr * pystr)) : option (pystr * pystr) :=
  match r with
  | Some (chars, rest) => Some (c :: chars, rest)
  | None => None
  end.

(** [scanstring(s, end, strict=True)]: [s] starts just after the opening
    quote.  Returns the decoded string and the text after the closing quote. *)
Fixpoint scanstring (s : pystr) : option (pystr * pystr) :=
  match s with
  | [] => None                                     (* Unterminated string *)
  | c :: s1 =>
      if (c =? 34)%N then Some ([], s1)
      else if (c =? 92)%N then
        match s1 with
        | [] => None                               (* Unterminated string *)
        | esc :: s2 =>
            if (esc =? 117)%N then
              match s2 with
              | h1 :: h2 :: h3 :: h4 :: s3 =>
                  match decode_uXXXX h1 h2 h3 h4 with
                  | None => None                   (* Invalid \uXXXX escape *)
                  | Some uni =>
                      match s3 with
                      | b :: u :: l1 :: l2 :: l3 :: l4 :: s5 =>
                          if is_high_surrogate uni && (b =? 92)%N && (u =? 117)%N then
                            match decode_uXXXX l1 l2 l3 l4 with
                            | None => None         (* Invalid \uXXXX escape *)
                            | Some uni2 =>
                                if is_low_surrogate uni2
                                then option_cons
                                       (65536 + ((uni - 55296) * 1024 + (uni2 - 56320)))%N
                                       (scanstring s5)
                                else option_cons uni (scanstring s3)
                            end
                          else option_cons uni (scanstring s3)
                      | b :: u :: _ =>
                          if is_high_surrogate uni && (b =? 92)%N && (u =? 117)%N
                          then None                (* Invalid \uXXXX escape *)
                          else option_cons uni (scanstring s3)
                      | _ => option_cons uni (scanstring s3)
                      end
                  end
              | _ => None                          (* Invalid \uXXXX escape *)
              end
            else
              match backslash esc with
              | None => None                       (* Invalid \escape *)
              | Some ch => option_cons ch (scanstring s2)
              end
        end
      else if (c <? 32)%N then None                (* Invalid control character *)
      else option_cons c (scanstring s1)
  end.

(** The longest run of ASCII digits at the head of [s], and what follows. *)
Fixpoint span_digits (s : pystr) : pystr * pystr :=
  match s with
  | c :: s' =>
      if is_digit c
      then let (ds, r) := span_digits s' in (c :: ds, r)
      else ([], s)
  | [] => ([], [])
  end.

(** NUMBER_RE has three groups: the integer part (an optional minus, then
    either 0 or a nonzero digit followed by digits), an optional fraction
    (a dot and at least one digit) and an optional exponent (e or E, an
    optional sign, at least one digit).  First group. *)
Definition match_integer (s : pystr) : option (pystr * pystr) :=
  let (sign, s1) :=
    match s with
    | c :: s' => if (c =? 45)%N then ([45%N], s') else ([], s)
    | [] => ([], s)
    end in
  match s1 with
  | c :: s2 =>
      if (c =? 48)%N then Some (sign ++ [c], s2)
      else if is_digit c
      then let (ds, r) := span_digits s2 in Some (sign ++ c :: ds, r)
      else None
  | [] => None
  end.

(** Second group; empty when it does not take part in the match. *)
Definition match_frac (s : pystr) : pystr * pystr :=
  match s with
  | c :: s1 =>
      if (c =? 46)%N then
        match span_digits s1 with
        | ([], _) => ([], s)
        | (ds, r) => (c :: ds, r)
        end
      else ([], s)
  | [] => ([], s)
  end.

(** Third group. *)
Definition match_exp (s : pystr) : pystr * pystr :=
  match s with
  | c :: s1 =>
      if ((c =? 101) || (c =? 69))%N then
        let (sign, s2) :=
          match s1 with
          | d :: s1' => if ((d =? 45) || (d =? 43))%N then ([d], s1') else ([], s1)
          | [] => ([], s1)
          end in
        match span_digits s2 with
        | ([], _) => ([], s)
        | (ds, r) => (c :: sign ++ ds, r)
        end
      else ([], s)
  | [] => ([], s)
  end.

Fixpoint uint_of_digits (ds : pystr) : Decimal.uint :=
  match ds with
  | [] => Decimal.Nil
  | c :: ds' =>
      let u := uint_of_digits ds' in
      (if c =? 48 then Decimal.D0 u else if c =? 49 then Decimal.D1 u
       else if c =? 50 then Decimal.D2 u else if c =? 51 then Decimal.D3 u
       else if c =? 52 then Decimal.D4 u else if c =? 53 then Decimal.D5 u
       else if c =? 54 then Decimal.D6 u else if c =? 55 then Decimal.D7 u
       else if c =? 56 then Decimal.D8 u else Decimal.D9 u)%N
  end.

(** [int(lexeme)] on a lexeme of the first group. *)
Definition py_int (lexeme : pystr) : Z :=
  match lexeme with
  | c :: ds =>
      if (c =? 45)%N
      then Z.opp (Z.of_N (N.of_uint (uint_of_digits ds)))
      else Z.of_N (N.of_uint (uint_of_digits lexeme))
  | [] => 0%Z
  end.

(** [dict.__setitem__]: a key already present keeps its place. *)
Fixpoint dict_set (d : list (pystr * json)) (k : pystr) (v : json)
  : list (pystr * json) :=
  match d with
  | [] => [(k, v)]
  | (k', v') :: d' =>
      if pystr_eqb k' k then (k', v) :: d' else (k', v') :: dict_set d' k v
  end.

(** [dict(pairs)]. *)
Definition dict_of_pairs (pairs : list (pystr * json)) : list (pystr * json) :=
  fold_left (fun d kv => dict_set d (fst kv) (snd kv)) pairs [].

(** [py_make_scanner._scan_once], [JSONArray] and [JSONObject].  [fuel]
    bounds the depth of the calls. *)
Fixpoint scan_once (fuel : nat) (s : pystr) : scan json :=
  match fuel with
  | O => Exhausted
  | S fuel' =>
      match s with
      | [] => Invalid                                     (* StopIteration *)
      | nextchar :: s1 =>
          if (nextchar =? 34)%N then
            match scanstring s1 with
            | Some (chars, rest) => Parsed (JStr chars) rest
            | None => Invalid
            end
          else if (nextchar =? 123)%N then                (* '{' *)
            match skip_ws s1 with
            | c :: s2 =>
                if (c =? 125)%N then Parsed (JDict []) s2
                else if (c =? 34)%N then
                  match object_pairs fuel' s2 with
                  | Parsed pairs rest => Parsed (JDict (dict_of_pairs pairs)) rest
                  | Invalid => Invalid
                  | Exhausted => Exhausted
                  end
                else Invalid       (* Expecting property name *)
            | [] => Invalid
            end
          else if (nextchar =? 91)%N then                 (* '[' *)
            match skip_ws s1 with
            | c :: s2 =>
                if (c =? 93)%N then Parsed (JList []) s2
                else
                  match array_values fuel' (c :: s2) with
                  | Parsed values rest => Parsed (JList values) rest
                  | Invalid => Invalid
                  | Exhausted => Exhausted
                  end
            | [] => Invalid                               (* Expecting value *)
            end
          else
            match strip_prefix (str "null") s, strip_prefix (str "true") s,
                  strip_prefix (str "false") s with
            | Some rest, _, _ => Parsed JNone rest
            | _, Some rest, _ => Parsed (JBool true) rest
            | _, _, Some rest => Parsed (JBool false) rest
            | None, None, None =>
                match match_integer s with
                | Some (integer, r1) =>
                    let (frac, r2) := match_frac r1 in
                    let (exp, r3) := match_exp r2 in
                    match frac, exp with
                    | [], [] => Parsed (JInt (py_int integer)) r3
                    | _, _ => Parsed (JFloat (integer ++ frac ++ exp)) r3
                    end
                | None =>
                    match strip_prefix (str "NaN") s,
                          strip_prefix (str "Infinity") s,
                          strip_prefix (str "-Infinity") s with
                    | Some rest, _, _ => Parsed JNaN rest
                    | _, Some rest, _ => Parsed JInfinity rest
                    | _, _, Some rest => Parsed JNegInfinity rest
                    | None, None, None => Invalid         (* StopIteration *)
                    end
                end
            end
      end
  end

(** The loop of [JSONArray]: [s] is where the next value must start. *)
with array_values (fuel : nat) (s : pystr) : scan (list json) :=
  match fuel with
  | O => Exhausted
  | S fuel' =>
      match scan_once fuel' s with
      | Parsed value rest =>
          match skip_ws rest with
          | c :: s2 =>
              if (c =? 93)%N then Parsed [value] s2
              else if (c =? 44)%N then
                match array_values fuel' (skip_ws s2) with
                | Parsed values rest' => Parsed (value :: values) rest'
                | Invalid => Invalid
                | Exhausted => Exhausted
                end
              else Invalid                   (* Expecting ',' delimiter *)
          | [] => Invalid
          end
      | Invalid => Invalid
      | Exhausted => Exhausted
      end
  end

(** The loop of [JSONObject]: [s] starts just after the opening quote of
    the next key. *)
with object_pairs (fuel : nat) (s : pystr) : scan (list (pystr * json)) :=
  match fuel with
  | O => Exhausted
  | S fuel' =>
      match scanstring s with
      | None => Invalid
      | Some (key, r0) =>
          match skip_ws r0 with
          | c :: r1 =>
              if (c =? 58)%N then
                match scan_once fuel' (skip_ws r1) with
                | Parsed value r2 =>
                    match skip_ws r2 with
                    | d :: r3 =>
                        if (d =? 125)%N then Parsed [(key, value)] r3
                        else if (d =? 44)%N then
                          match skip_ws r3 with
                          | q :: r4 =>
                              if (q =? 34)%N then
                                match object_pairs fuel' r4 with
                                | Parsed pairs rest => Parsed ((key, value) :: pairs) rest
                                | Invalid => Invalid
                                | Exhausted => Exhausted
                                end
                              else Invalid   (* Expecting property name *)
                          | [] => Invalid
                          end
                        else Invalid         (* Expecting ',' delimiter *)
                    | [] => Invalid
                    end
                | Invalid => Invalid
                | Exhausted => Exhausted
                end
              else Invalid                   (* Expecting ':' delimiter *)
          | [] => Invalid
          end
      end
  end.

(** Enough calls for any text of this length. *)
Definition scan_fuel (s : pystr) : nat := S (2 * length s).

(** [json.loads(s)] for a [str]: leading whitespace, one value, trailing
    whitespace, nothing else.  Every syntax error is a JSONDecodeError. *)
Definition json_loads (s : pystr) : result json :=
  match scan_once (scan_fuel s) (skip_ws s) with
  | Parsed obj rest =>
      match skip_ws rest with
      | [] => Ok obj
      | _ :: _ => Raise JSONDecodeError                   (* Extra data *)
      end
  | Invalid => Raise JSONDecodeError                      (* Expecting value *)
  | Exhausted => Raise (OtherException (str "RecursionError"))
  end.


(* ================================================================== *)
(** ** json.dumps *)

Definition hexdigit (n : N) : N := (if n <? 10 then 48 + n else 87 + n)%N.

(** The escape of a code unit below 0x10000, as four lower-case
    hexadecimal digits after a backslash and the letter u. *)
Definition uXXXX (n : N) : pystr :=
  [92; 117; hexdigit (n / 4096); hexdigit ((n / 256) mod 16);
   hexdigit ((n / 16) mod 16); hexdigit (n mod 16)]%N.

(** [encode_basestring_ascii]'s replacement of one character
    ([ensure_ascii=True]): the short escapes of ESCAPE_DCT, printable ASCII
    as it is, everything else as one escape or as a surrogate pair. *)
Definition escape_ascii (c : N) : pystr :=
  (if c =? 92 then [92; 92]
   else if c =? 34 then [92; 34]
   else if c =? 8 then [92; 98]
   else if c =? 12 then [92; 102]
   else if c =? 10 then [92; 110]
   else if c =? 13 then [92; 114]
   else if c =? 9 then [92; 116]
   else if (32 <=? c) && (c <=? 126) then [c]
   else if c <? 65536 then uXXXX c
   else
     let n := c - 65536 in
     uXXXX (55296 + (n / 1024) mod 1024) ++ uXXXX (56320 + n mod 1024))%N.

Definition encode_basestring_ascii (s : pystr) : pystr :=
  34%N :: flat_map escape_ascii s ++ [34%N].

Fixpoint digits_of_uint (u : Decimal.uint) : pystr :=
  (match u with
   | Decimal.Nil => []
   | Decimal.D0 u' => 48 :: digits_of_uint u'
   | Decimal.D1 u' => 49 :: digits_of_uint u'
   | Decimal.D2 u' => 50 :: digits_of_uint u'
   | Decimal.D3 u' => 51 :: digits_of_uint u'
   | Decimal.D4 u' => 52 :: digits_of_uint u'
   | Decimal.D5 u' => 53 :: digits_of_uint u'
   | Decimal.D6 u' => 54 :: digits_of_uint u'
   | Decimal.D7 u' => 55 :: digits_of_uint u'
   | Decimal.D8 u' => 56 :: digits_of_uint u'
   | Decimal.D9 u' => 57 :: digits_of_uint u'
   end)%N.

(** [int.__repr__]. *)
Definition int_repr (n : Z) : pystr :=
  match n with
  | Z0 => [48%N]
  | Zpos p => digits_of_uint (Pos.to_uint p)
  | Zneg p => 45%N :: digits_of_uint (Pos.to_uint p)
  end.

(** [float.__repr__] prints the shortest decimal that reads back as the same
    double.  A float is held here as a lexeme that denotes it, and that
    lexeme is what the model prints: it reads back as the same float, which
    is all the program relies on. *)
Definition float_repr (lexeme : pystr) : pystr := lexeme.

(** ['\n' + indent * level] when [indent] is given, nothing otherwise. *)
Definition newline_indent (indent : option nat) (level : nat) : pystr :=
  match indent with
  | None => []
  | Some width => 10%N :: repeat 32%N (width * level)
  end.

(** [', '] by default, [','] when [indent] is given. *)
Definition item_separator (indent : option nat) : pystr :=
  match indent with
  | None => [44; 32]%N
  | Some _ => [44%N]
  end.

Definition key_separator : pystr := [58; 32]%N.

(** [_make_iterencode]: the text of [o] at nesting depth [level]. *)
Fixpoint iterencode (indent : option nat) (level : nat) (o : json) : pystr :=
  match o with
  | JNone => str "null"
  | JBool true => str "true"
  | JBool false => str "false"
  | JInt n => int_repr n
  | JFloat lexeme => float_repr lexeme
  | JNaN => str "NaN"
  | JInfinity => str "Infinity"
  | JNegInfinity => str "-Infinity"
  | JStr s => encode_basestring_ascii s
  | JList [] => str "[]"
  | JList (first :: others) =>
      91%N :: newline_indent indent (S level)
      ++ iterencode indent (S level) first
      ++ flat_map (fun value =>
                     item_separator indent ++ newline_indent indent (S level)
                     ++ iterencode indent (S level) value) others
      ++ newline_indent indent level ++ [93%N]
  | JDict [] => str "{}"
  | JDict ((key, value) :: others) =>
      123%N :: newline_indent indent (S level)
      ++ encode_basestring_ascii key ++ key_separator
      ++ iterencode indent (S level) value
      ++ flat_map (fun kv =>
                     item_separator indent ++ newline_indent indent (S level)
                     ++ encode_basestring_ascii (fst kv) ++ key_separator
                     ++ iterencode indent (S level) (snd kv)) others
      ++ newline_indent indent level ++ [125%N]
  end.

(** [json.dumps(o)] and [json.dumps(o, indent=k)]. *)
Definition json_dumps (indent : option nat) (o : json) : pystr :=
  iterencode indent 0 o.

(* ================================================================== *)
(** ** Truth value of a document ([if schema:]) *)

(** The value of the exponent group of a float lexeme ([e], sign, digits). *)
Definition exponent_value (exp : pystr) : Z :=
  match exp with
  | _ :: c :: ds =>
      if (c =? 45)%N then Z.opp (Z.of_N (N.of_uint (uint_of_digits ds)))
      else if (c =? 43)%N then Z.of_N (N.of_uint (uint_of_digits ds))
      else Z.of_N (N.of_uint (uint_of_digits (c :: ds)))
  | _ => 0%Z
  end.

(** [float(lexeme) == 0.0]: the decimal rounds to zero exactly when its
    magnitude is at most 2^-1075, half the smallest subnormal double. *)
Definition float_is_zero (lexeme : pystr) : bool :=
  match match_integer lexeme with
  | None => false
  | Some (integer, r1) =>
      let (frac, r2) := match_frac r1 in
      let (exp, _) := match_exp r2 in
      let int_digits :=
        match integer with
        | c :: ds => if (c =? 45)%N then ds else integer
        | [] => []
        end in
      let frac_digits := tl frac in
      let mantissa := Z.of_N (N.of_uint (uint_of_digits (int_digits ++ frac_digits))) in
      let e := (exponent_value exp - Z.of_nat (length frac_digits))%Z in
      if (0 <=? e)%Z then (mantissa =? 0)%Z
      else (mantissa * 2 ^ 1075 <=? 10 ^ (- e))%Z
  end.

Definition truthy (o : json) : bool :=
  match o with
  | JNone => false
  | JBool b => b
  | JInt n => negb (n =? 0)%Z
  | JFloat lexeme => negb (float_is_zero lexeme)
  | JNaN | JInfinity | JNegInfinity => true
  | JStr [] => false
  | JStr (_ :: _) => true
  | JList [] => false
  | JList (_ :: _) => true
  | JDict [] => false
  | JDict (_ :: _) => true
  end.

(* ================================================================== *)
(** ** re.search of the fenced block *)

(** Three backticks, the word json, a line feed. *)
Definition FENCE_OPEN : pystr := [96; 96; 96; 106; 115; 111; 110; 10]%N.

(** Three backticks. *)
Definition FENCE_CLOSE : pystr := [96; 96; 96]%N.

(** The lazy group followed by [closing], matched at the head of [s] (with
    DOTALL the dot takes any character): the shortest [group] such that
    [s = group ++ closing ++ rest]. *)
Fixpoint lazy_until (closing s : pystr) : option (pystr * pystr) :=
  match strip_prefix closing s with
  | Some rest => Some ([], rest)
  | None =>
      match s with
      | [] => None
      | c :: s' =>
          match lazy_until closing s' with
          | Some (group, rest) => Some (c :: group, rest)
          | None => None
          end
      end
  end.

(** The pattern of line 83 matched at the head of [s]: group 1. *)
Definition match_fence (s : pystr) : option pystr :=
  match strip_prefix FENCE_OPEN s with
  | Some s1 =>
      match lazy_until FENCE_CLOSE s1 with
      | Some (group1, _) => Some group1
      | None => None
      end
  | None => None
  end.

(** [re.search(pattern, s, re.DOTALL)]: the match at the leftmost position
    that has one; [group(1)] of it. *)
Fixpoint re_search_fence (s : pystr) : option pystr :=
  match match_fence s with
  | Some group1 => Some group1
  | None =>
      match s with
      | [] => None
      | _ :: s' => re_search_fence s'
      end
  end.

(* ================================================================== *)
(** ** class SchemaGenerator *)

(** What the generation service does with a prompt: it answers with a text,
    or the call (or reading [response.text]) raises. *)
Inductive reply : Type :=
| ReplyText (text : pystr)
| ReplyRaises (e : exn).

Record SchemaGenerator : Type := mkSchemaGenerator {
  model : pystr -> reply;
  rate_limiter : RateLimiter
}.

(** [SchemaGenerator.__init__]: the limiter is [RateLimiter()]. *)
Definition SchemaGenerator_init (model : pystr -> reply) : SchemaGenerator :=
  mkSchemaGenerator model RateLimiter_default.

Definition set_rate_limiter (sg : SchemaGenerator) (rl : RateLimiter) : SchemaGenerator :=
  mkSchemaGenerator (model sg) rl.

(** The f-string of lines 75-76. *)
Definition generation_prompt (prompt : pystr) : pystr :=
  str "Generate a JSON schema based on this description: " ++ prompt
  ++ str ". Ensure the schema is valid JSON and includes appropriate types and constraints.".

(** Lines 80-88: the fenced block when there is one, else the whole text. *)
Definition extract_schema (schema_text : pystr) : result json :=
  let schema_text :=
    match re_search_fence schema_text with
    | Some group1 => group1
    | None => schema_text
    end in
  json_loads schema_text.

(** The body of the [try] of [generate_schema], lines 70-89. *)
Definition generate_schema_try (sg : SchemaGenerator) (prompt : pystr) (w : World)
  : result json * SchemaGenerator * World :=
  match wait (rate_limiter sg) w with
  | (Raise e, rl, w1) => (Raise e, set_rate_limiter sg rl, w1)
  | (Ok _, rl, w1) =>
      let w2 := emit (EvGenerateContent (generation_prompt prompt)) w1 in
      match model sg (generation_prompt prompt) with
      | ReplyRaises e => (Raise e, set_rate_limiter sg rl, w2)
      | ReplyText schema_text => (extract_schema schema_text, set_rate_limiter sg rl, w2)
      end
  end.

(** [SchemaGenerator.generate_schema], lines 62-99: the three handlers in
    the order of the source.  The returned object is the schema, or [None]
    ([JNone]) after an [st.error]. *)
Definition generate_schema (sg : SchemaGenerator) (prompt : pystr) (w : World)
  : json * SchemaGenerator * World :=
  match generate_schema_try sg prompt w with
  | (Ok schema, sg', w') => (schema, sg', w')
  | (Raise (BlockedPromptException e), sg', w') =>
      (JNone, sg', emit (EvStError (PromptBlocked e)) w')
  | (Raise JSONDecodeError, sg', w') =>
      (JNone, sg', emit (EvStError CouldNotParse) w')
  | (Raise e, sg', w') =>
      (JNone, sg', emit (EvStError (ErrorGenerating e)) w')
  end.

(* ================================================================== *)
(** ** The record store (table [schemas] of schema_records.db) *)

Record schema_row : Type := mkRow {
  row_id : pystr;           (* id TEXT PRIMARY KEY *)
  row_prompt : pystr;       (* prompt TEXT *)
  row_schema : pystr;       (* schema TEXT: the document as JSON text *)
  row_created_at : Q        (* created_at DATETIME *)
}.

(** The table, and the identifiers [uuid.uuid4()] hands out: [uuid4 n] is
    the text of the [n]-th one drawn, [drawn] counts the draws so far. *)
Record Store : Type := mkStore {
  rows : list schema_row;
  uuid4 : nat -> pystr;
  drawn : nat
}.

Definition has_id (id : pystr) (table : list schema_row) : bool :=
  existsb (fun r => pystr_eqb (row_id r) id) table.

(** [INSERT INTO schemas ... ; conn.commit()]: the primary key refuses an
    identifier already in the table. *)
Definition db_insert (r : schema_row) (table : list schema_row)
  : result (list schema_row) :=
  if has_id (row_id r) table then Raise IntegrityError else Ok (table ++ [r]).

(** [SELECT schema FROM schemas WHERE id = ?] and [fetchone()]. *)
Definition db_select_schema (id : pystr) (table : list schema_row) : option pystr :=
  match find (fun r => pystr_eqb (row_id r) id) table with
  | Some r => Some (row_schema r)
  | None => None
  end.

(** [str(uuid.uuid4())]. *)
Definition draw_uuid (st : Store) : pystr * Store :=
  (uuid4 st (drawn st), mkStore (rows st) (uuid4 st) (S (drawn st))).

Definition set_rows (st : Store) (table : list schema_row) : Store :=
  mkStore table (uuid4 st) (drawn st).

(** Lines 152-160 and 322-330: a new identifier, one INSERT. *)
Definition save_schema (prompt : pystr) (schema : json) (st : Store) (w : World)
  : result pystr * Store :=
  let (schema_id, st1) := draw_uuid st in
  match db_insert (mkRow schema_id prompt (json_dumps None schema) (clock w)) (rows st1) with
  | Ok table => (Ok schema_id, set_rows st1 table)
  | Raise e => (Raise e, st1)
  end.

(* ================================================================== *)
(** ** class SchemaGeneratorUI *)

(** An uploaded file of [st.file_uploader]. *)
Record UploadedFile : Type := mkUploadedFile {
  name : pystr;
  getvalue : pybytes
}.

Record successful_upload : Type := mkSuccessfulUpload {
  ok_filename : pystr;
  ok_id : pystr;
  ok_schema : json
}.

Record failed_upload : Type := mkFailedUpload {
  failed_filename : pystr;
  failed_error : upload_error
}.

(** The body of the [try] of lines 144-166 for one file. *)
Definition upload_try (uploaded_file : UploadedFile) (st : Store) (w : World)
  : result successful_upload * Store :=
  match utf8_decode (getvalue uploaded_file) with
  | None => (Raise UnicodeDecodeError, st)
  | Some file_content =>
      match json_loads file_content with
      | Raise e => (Raise e, st)
      | Ok schema =>
          match save_schema (str "Uploaded: " ++ name uploaded_file) schema st w with
          | (Ok schema_id, st') =>
              (Ok (mkSuccessfulUpload (name uploaded_file) schema_id schema), st')
          | (Raise e, st') => (Raise e, st')
          end
      end
  end.

(** The loop of lines 143-176. *)
Fixpoint upload_loop (uploaded_files : list UploadedFile)
  (successful_uploads : list successful_upload) (failed_uploads : list failed_upload)
  (st : Store) (w : World)
  : list successful_upload * list failed_upload * Store :=
  match uploaded_files with
  | [] => (successful_uploads, failed_uploads, st)
  | uploaded_file :: others =>
      match upload_try uploaded_file st w with
      | (Ok done, st') =>
          upload_loop others (successful_uploads ++ [done]) failed_uploads st' w
      | (Raise JSONDecodeError, st') =>
          upload_loop others successful_uploads
            (failed_uploads ++ [mkFailedUpload (name uploaded_file) InvalidJSONFormat])
            st' w
      | (Raise e, st') =>
          upload_loop others successful_uploads
            (failed_uploads ++ [mkFailedUpload (name uploaded_file) (ExceptionText e)])
            st' w
      end
  end.

(** Lines 179-194: what the page shows after the loop. *)
Definition upload_feedback (successful_uploads : list successful_upload)
  (failed_uploads : list failed_upload) : list event :=
  (match successful_uploads with
   | [] => []
   | _ :: _ =>
       EvStSuccess (UploadedSuccessfully (length successful_uploads))
       :: flat_map (fun upload =>
                      [EvStSubheader (ok_filename upload) (ok_id upload);
                       EvStJson (ok_schema upload)]) successful_uploads
   end)
  ++
  (match failed_uploads with
   | [] => []
   | _ :: _ =>
       EvStWarning (FailedToUpload (length failed_uploads))
       :: map (fun upload =>
                 EvStError (FileError (failed_filename upload) (failed_error upload)))
            failed_uploads
   end).

(** [SchemaGeneratorUI._upload_schema_files], lines 138-196. *)
Definition _upload_schema_files (uploaded_files : list UploadedFile) (st : Store) (w : World)
  : list successful_upload * list failed_upload * Store * World :=
  match upload_loop uploaded_files [] [] st w with
  | (successful_uploads, failed_uploads, st') =>
      (successful_uploads, failed_uploads, st',
       mkWorld (clock w) (trace w ++ upload_feedback successful_uploads failed_uploads))
  end.

(** The record details of [_view_records], lines 258-277: the text typed in
    the input, the SELECT, and the download button.  Nothing here is inside
    a [try].  (The table of all records and the archive of the selected ones,
    lines 204-255, are not part of the model.) *)
Definition view_record_details (record_id : pystr) (st : Store) (w : World)
  : result World :=
  match record_id with
  | [] => Ok w
  | _ :: _ =>
      match db_select_schema record_id (rows st) with
      | Some schema_text =>
          schema <- json_loads schema_text ;;
          Ok (emit (EvDownloadButton (json_dumps (Some 2%nat) schema)
                      (str "schema_" ++ record_id ++ str ".json"))
                (emit (EvStJson schema) w))
      | None => Ok (emit (EvStError NoRecordFound) w)
      end
  end.

(** What the browser saves when the button is pressed: Streamlit serves the
    [str] it was given as [data.encode()]. *)
Definition downloaded_bytes (data : pystr) : option pybytes := utf8_encode data.

(** The `Generate Schema` button of [run], lines 314-345, with the API key
    set and the generator built. *)
Definition run_generate (sg : SchemaGenerator) (prompt : pystr) (st : Store) (w : World)
  : SchemaGenerator * Store * World :=
  match prompt with
  | [] => (sg, st, emit (EvStWarning EnterPrompt) w)
  | _ :: _ =>
      match generate_schema sg prompt w with
      | (schema, sg', w') =>
          if truthy schema then
            match save_schema prompt schema st w' with
            | (Ok _, st') =>
                (sg', st',
                 emit (EvDownloadButton (json_dumps (Some 2%nat) schema) (str "schema.json"))
                   (emit (EvStJson schema) w'))
            | (Raise e, st') =>
                (sg', st', emit (EvStError (ErrorGenerating e)) w')
            end
          else (sg', st, w')
      end
  end.

(* ================================================================== *)
(** ** The grammar [scan_once] accepts *)

(** [scanned s v rest]: at the head of [s] stands the JSON text of [v],
    followed by [rest]; one constructor for each way [_scan_once],
    [JSONArray] and [JSONObject] return a value. *)
Inductive scanned : pystr -> json -> pystr -> Prop :=
| scanned_string s1 chars rest :
    scanstring s1 = Some (chars, rest) ->
    scanned (34%N :: s1) (JStr chars) rest
| scanned_empty_dict s1 s2 :
    skip_ws s1 = 125%N :: s2 ->
    scanned (123%N :: s1) (JDict []) s2
| scanned_dict s1 s2 pairs rest :
    skip_ws s1 = 34%N :: s2 ->
    scanned_pairs s2 pairs rest ->
    scanned (123%N :: s1) (JDict (dict_of_pairs pairs)) rest
| scanned_empty_list s1 s2 :
    skip_ws s1 = 93%N :: s2 ->
    scanned (91%N :: s1) (JList []) s2
| scanned_list s1 c s2 values rest :
    skip_ws s1 = c :: s2 ->
    scanned_values (c :: s2) values rest ->
    scanned (91%N :: s1) (JList values) rest
| scanned_null s rest :
    strip_prefix (str "null") s = Some rest -> scanned s JNone rest
| scanned_true s rest :
    strip_prefix (str "true") s = Some rest -> scanned s (JBool true) rest
| scanned_false s rest :
    strip_prefix (str "false") s = Some rest -> scanned s (JBool false) rest
| scanned_int s integer r1 r2 r3 :
    match_integer s = Some (integer, r1) ->
    match_frac r1 = ([], r2) ->
    match_exp r2 = ([], r3) ->
    scanned s (JInt (py_int integer)) r3
| scanned_float s integer frac exp r1 r2 r3 :
    match_integer s = Some (integer, r1) ->
    match_frac r1 = (frac, r2) ->
    match_exp r2 = (exp, r3) ->
    frac ++ exp <> [] ->
    scanned s (JFloat (integer ++ frac ++ exp)) r3
| scanned_nan s rest :
    strip_prefix (str "NaN") s = Some rest -> scanned s JNaN rest
| scanned_infinity s rest :
    strip_prefix (str "Infinity") s = Some rest -> scanned s JInfinity rest
| scanned_neg_infinity s rest :
    strip_prefix (str "-Infinity") s = Some rest -> scanned s JNegInfinity rest

with scanned_values : pystr -> list json -> pystr -> Prop :=
| scanned_values_last s value rest s2 :
    scanned s value rest ->
    skip_ws rest = 93%N :: s2 ->
    scanned_values s [value] s2
| scanned_values_more s value rest s2 values rest' :
    scanned s value rest ->
    skip_ws rest = 44%N :: s2 ->
    scanned_values (skip_ws s2) values rest' ->
    scanned_values s (value :: values) rest'

with scanned_pairs : pystr -> list (pystr * json) -> pystr -> Prop :=
| scanned_pairs_last s key r0 r1 value r2 r3 :
    scanstring s = Some (key, r0) ->
    skip_ws r0 = 58%N :: r1 ->
    scanned (skip_ws r1) value r2 ->
    skip_ws r2 = 125%N :: r3 ->
    scanned_pairs s [(key, value)] r3
| scanned_pairs_more s key r0 r1 value r2 r3 r4 pairs rest :
    scanstring s = Some (key, r0) ->
    skip_ws r0 = 58%N :: r1 ->
    scanned (skip_ws r1) value r2 ->
    skip_ws r2 = 44%N :: r3 ->
    skip_ws r3 = 34%N :: r4 ->
    scanned_pairs r4 pairs rest ->
    scanned_pairs s ((key, value) :: pairs) rest.

Scheme scanned_mut := Minimality for scanned Sort Prop
with scanned_values_mut := Minimality for scanned_values Sort Prop
with scanned_pairs_mut := Minimality for scanned_pairs Sort Prop.
Combined Scheme scanned_mutind from scanned_mut, scanned_values_mut, scanned_pairs_mut.

Scheme scanned_dep := Induction for scanned Sort Prop
with scanned_values_dep := Induction for scanned_values Sort Prop
with scanned_pairs_dep := Induction for scanned_pairs Sort Prop.
Combined Scheme scanned_dep_mutind from scanned_dep, scanned_values_dep, scanned_pairs_dep.

(** ** Texts without a fence *)

(** [tidy s]: every letter n of [s] is followed by a character other than a
    line feed. *)
Fixpoint tidy (s : pystr) : bool :=
  match s with
  | [] => true
  | c :: s' =>
      negb ((c =? 110)%N && match s' with d :: _ => (d =? 10)%N | [] => true end)
      && tidy s'
  end.

(** [s] is [r] after a tidy prefix. *)
Definition skips (s r : pystr) : Prop :=
  exists pre, s = pre ++ r /\ tidy pre = true.

(** [s] is [r] after a tidy prefix that is not empty. *)
Definition eats (s r : pystr) : Prop :=
  exists pre, s = pre ++ r /\ pre <> [] /\ tidy pre = true.

(* ================================================================== *)
(** ** Documents [json.loads] can return *)

(** A string as [scanstring] builds it: code points below 0x110000, and no
    high surrogate directly followed by a low one (the scanner joins such a
    pair of escapes into one character). *)
Fixpoint wf_pystr (s : pystr) : bool :=
  match s with
  | [] => true
  | c :: s' =>
      (c <? 1114112)%N
      && negb (is_high_surrogate c
               && match s' with d :: _ => is_low_surrogate d | [] => false end)
      && wf_pystr s'
  end.

(** A lexeme of NUMBER_RE with a fraction or an exponent. *)
Definition is_float_lexeme (lexeme : pystr) : bool :=
  match match_integer lexeme with
  | Some (integer, r1) =>
      let (frac, r2) := match_frac r1 in
      let (exp, r3) := match_exp r2 in
      match r3, frac ++ exp with
      | [], _ :: _ => true
      | _, _ => false
      end
  | None => false
  end.

Fixpoint distinct_keys (keys : list pystr) : bool :=
  match keys with
  | [] => true
  | k :: keys' => negb (existsb (pystr_eqb k) keys') && distinct_keys keys'
  end.

(** The shape of every object [json.loads] returns. *)
Fixpoint wf_json (o : json) : bool :=
  match o with
  | JFloat lexeme => is_float_lexeme lexeme
  | JStr s => wf_pystr s
  | JList items => forallb wf_json items
  | JDict items =>
      forallb (fun kv => wf_pystr (fst kv) && wf_json (snd kv)) items
      && distinct_keys (map fst items)
  | _ => true
  end.

(** A text decoded from UTF-8 holds Unicode scalar values only. *)
Definition is_scalar (c : N) : bool := (c <? 1114112)%N && negb (is_surrogate c).

(** A text that holds Unicode scalar values only, as every text decoded
    from UTF-8 does. *)
Definition unicode_text (s : pystr) : bool := forallb is_scalar s.

(** Whether a string starts with a low surrogate. *)
Definition head_low (chars : pystr) : bool :=
  match chars with
  | d :: _ => is_low_surrogate d
  | [] => false
  end.

(** A text of ASCII characters only. *)
Definition ascii_text (s : pystr) : bool := forallb (fun c => (c <? 128)%N) s.

(** What may follow a value in a JSON text. *)
Definition delimited (rest : pystr) : Prop :=
  match rest with
  | [] => True
  | c :: _ => is_ws c = true \/ c = 44%N \/ c = 93%N \/ c = 125%N
  end.

(** A scanning result that is the expected one unless the budget ran out. *)
Definition parsed_or_exhausted {A : Type} (r : scan A) (a : A) (rest : pystr) : Prop :=
  r = Parsed a rest \/ r = Exhausted.

(** ** Auxiliary notions of the round-trip proof *)

Unset Implicit Arguments.

Definition no_low_escape (s3 : pystr) : Prop :=
  forall t, s3 = 92%N :: 117%N :: t ->
  exists l1 l2 l3 l4 s5 uni2,
    t = l1 :: l2 :: l3 :: l4 :: s5 /\
    decode_uXXXX l1 l2 l3 l4 = Some uni2 /\ is_low_surrogate uni2 = false.

(** The seven ways [escape_ascii] writes a character. *)
Inductive escape_shape (c : N) : pystr -> Prop :=
| shape_short esc :
    esc <> 117%N -> backslash esc = Some c -> escape_shape c [92%N; esc]
| shape_plain :
    c <> 34%N -> c <> 92%N -> (32 <= c)%N -> (c <= 126)%N -> escape_shape c [c]
| shape_unicode :
    (c < 65536)%N -> escape_shape c (uXXXX c)
| shape_pair hi lo :
    is_high_surrogate hi = true -> is_low_surrogate lo = true ->
    (hi < 65536)%N -> (lo < 65536)%N ->
    (65536 + ((hi - 55296) * 1024 + (lo - 56320)) = c)%N ->
    escape_shape c (uXXXX hi ++ uXXXX lo).

Definition nondigit_head (rest : pystr) : Prop :=
  match rest with
  | [] => True
  | c :: _ => is_digit c = false
  end.

Section JsonInduction.
Variable P : json -> Prop.
Hypothesis HNone : P JNone.
Hypothesis HBool : forall b, P (JBool b).
Hypothesis HInt : forall n, P (JInt n).
Hypothesis HFloat : forall lexeme, P (JFloat lexeme).
Hypothesis HNaN : P JNaN.
Hypothesis HInfinity : P JInfinity.
Hypothesis HNegInfinity : P JNegInfinity.
Hypothesis HStr : forall s, P (JStr s).
Hypothesis HList : forall items, Forall P items -> P (JList items).
Hypothesis HDict : forall items, Forall (fun kv => P (snd kv)) items -> P (JDict items).

(** Induction on documents, with the hypothesis for every item of a list
    and every value of a dict. *)
Fixpoint json_nested_ind (o : json) : P o :=
  match o with
  | JNone => HNone
  | JBool b => HBool b
  | JInt n => HInt n
  | JFloat lexeme => HFloat lexeme
  | JNaN => HNaN
  | JInfinity => HInfinity
  | JNegInfinity => HNegInfinity
  | JStr s => HStr s
  | JList items =>
      HList items
        ((fix all (l : list json) : Forall P l :=
            match l with
            | [] => Forall_nil P
            | x :: l' => Forall_cons x (json_nested_ind x) (all l')
            end) items)
  | JDict items =>
      HDict items
        ((fix all (l : list (pystr * json)) : Forall (fun kv => P (snd kv)) l :=
            match l with
            | [] => Forall_nil _
            | kv :: l' => Forall_cons kv (json_nested_ind (snd kv)) (all l')
            end) items)
  end.
End JsonInduction.

(** The property proved of each document by induction. *)
Definition reads_back (indent : option nat) (o : json) : Prop :=
  forall level fuel rest, delimited rest ->
  parsed_or_exhausted (scan_once fuel (iterencode indent level o ++ rest)) o rest.

(** The text of the items after the first one, as [iterencode] joins them. *)
Definition encoded_items (indent : option nat) (level : nat) (items : list json) : pystr :=
  flat_map (fun value =>
              item_separator indent ++ newline_indent indent (S level)
              ++ iterencode indent (S level) value) items.

Definition encoded_pairs (indent : option nat) (level : nat)
  (items : list (pystr * json)) : pystr :=
  flat_map (fun kv =>
              item_separator indent ++ newline_indent indent (S level)
              ++ encode_basestring_ascii (fst kv) ++ key_separator
              ++ iterencode indent (S level) (snd kv)) items.

Set Implicit Arguments.

(* ================================================================== *)
(** ** The texts of the specification's parsing examples *)

(** An object with the one key a, bound to 1, written without spaces. *)
Definition example_raw_text : pystr := [123; 34; 97; 34; 58; 49; 125]%N.

(** The same text inside a fence: the opening fence, the text, a line feed,
    the closing fence. *)
Definition example_fenced_text : pystr :=
  FENCE_OPEN ++ example_raw_text ++ [10%N] ++ FENCE_CLOSE.

Definition example_document : json := JDict [(str "a", JInt 1)].

(** The [st.error] messages of a trace. *)
Fixpoint st_errors (tr : list event) : list st_message :=
  match tr with
  | [] => []
  | EvStError m :: tr' => m :: st_errors tr'
  | _ :: tr' => st_errors tr'
  end.

(** The prompts sent to the generation service in a trace. *)
Fixpoint outbound_calls (tr : list event) : list pystr :=
  match tr with
  | [] => []
  | EvGenerateContent p :: tr' => p :: outbound_calls tr'
  | _ :: tr' => outbound_calls tr'
  end.

(* ================================================================== *)
(** ** The specification's sentences as predicates *)

(** 4.1, step 3, read on the code: the deque [wait] leaves is the one the
    re-validating algorithm leaves, and no [time.sleep] happens while the
    lock is held. *)
Fixpoint sleeps_unlocked (held : bool) (tr : list event) : bool :=
  match tr with
  | [] => true
  | EvLockAcquire :: tr' => sleeps_unlocked true tr'
  | EvLockRelease :: tr' => sleeps_unlocked false tr'
  | EvSleep _ :: tr' => negb held && sleeps_unlocked held tr'
  | _ :: tr' => sleeps_unlocked held tr'
  end.

Definition revalidates_after_sleep (rl : RateLimiter) (w : World) : Prop :=
  exists fuel rl_spec w_spec rl' w',
    acquire_spec fuel rl w = Some (rl_spec, w_spec) /\
    wait rl w = (Ok tt, rl', w') /\
    request_times rl' = request_times rl_spec /\
    sleeps_unlocked false (trace w') = true.

(** 4.2, the contract of [generate]: the result states, and the state the
    specification gives each way the call can go.  [spec_generate] follows
    the words of the specification, not the code. *)
Inductive GenerationError : Type :=
| Blocked                        (* the service refuses the prompt for policy reasons *)
| ParseFailure                   (* no valid JSON document could be extracted *)
| UpstreamFailure (message : exn).   (* any other upstream or network error *)

Inductive Result : Type :=
| ResultOk (document : json)
| Err (e : GenerationError).

Definition spec_generate (sg : SchemaGenerator) (prompt : pystr) : Result :=
  match model sg (generation_prompt prompt) with
  | ReplyRaises (BlockedPromptException _) => Err Blocked
  | ReplyRaises e => Err (UpstreamFailure e)
  | ReplyText text =>
      match extract_schema text with
      | Ok document => ResultOk document
      | Raise _ => Err ParseFailure
      end
  end.

(** "[generate] returns one of the typed results": what [generate_schema]
    returns tells the caller which state the call ended in. *)
Definition returns_typed_result : Prop :=
  exists read : json -> Result,
    forall (sg : SchemaGenerator) (prompt : pystr) (w : World),
      (0 < max_requests (rate_limiter sg))%Z ->
      read (fst (fst (generate_schema sg prompt w))) = spec_generate sg prompt.

(** Services for the examples: one that refuses the prompt, one that
    answers with the given text, one whose call raises the given
    exception. *)
Definition example_refusing_service : SchemaGenerator :=
  SchemaGenerator_init (fun _ => ReplyRaises (BlockedPromptException (str "SAFETY"))).

Definition example_answering_service (text : pystr) : SchemaGenerator :=
  SchemaGenerator_init (fun _ => ReplyText text).

Definition example_failing_service (e : exn) : SchemaGenerator :=
  SchemaGenerator_init (fun _ => ReplyRaises e).

(* ================================================================== *)
(** ** The records tab and the script *)

Unset Implicit Arguments.

(** The deque in the order of a clock that does not go back: every entry is
    at most the entries to its right. *)
Fixpoint nondecreasing (q : list Q) : bool :=
  match q with
  | [] => true
  | t0 :: q' => forallb (Qle_bool t0) q' && nondecreasing q'
  end.

(** The texts [_view_records] and [run] show besides those above. *)
Inductive page_message : Type :=
| NoSchemaRecords                (* "No schema records found." *)
| EnterApiKey                    (* "Please enter your Gemini API key in the sidebar to get started." *)
| ErrorInitializing (e : exn).   (* f"Error initializing Schema Generator: {e}" *)

(** What a run of the script puts on the page, in order.  The input widgets
    ([st.text_input], [st.text_area], [st.button], [st.file_uploader],
    [st.multiselect]) and the containers ([st.sidebar], [st.tabs],
    [st.spinner], [st.expander]) show nothing of their own and are not
    recorded; what the widgets return is an input of the run. *)
Inductive page_event : Type :=
| Shown (e : event)                       (* an effect of the functions above *)
| EvStTitle (text : pystr)                (* st.title(text) *)
| EvPageSubheader (text : pystr)          (* st.subheader(text) *)
| EvStInfo (m : page_message)             (* st.info(...) *)
| EvPageWarning (m : page_message)        (* st.warning(...) *)
| EvPageError (m : page_message)          (* st.error(...) *)
| EvStDataframe (records : list (pystr * pystr * Q))   (* st.dataframe(df, ...) *)
| EvDownloadArchive (entries : list (pystr * pystr)) (file_name : pystr).
                                          (* st.download_button(data=zip_buffer, ...) *)

Record Page : Type := mkPage {
  page_clock : Q;                 (* what time.time() returns now *)
  shown : list page_event         (* the page so far, oldest first *)
}.

Definition show (e : page_event) (p : Page) : Page :=
  mkPage (page_clock p) (shown p ++ [e]).

(** The world a function of the sections above starts in, and the page once
    it has returned. *)
Definition world_of (p : Page) : World := mkWorld (page_clock p) [].

Definition page_after (p : Page) (w : World) : Page :=
  mkPage (clock w) (shown p ++ map Shown (trace w)).

(** The effects of the functions above that a page holds. *)
Fixpoint effects (evs : list page_event) : list event :=
  match evs with
  | [] => []
  | Shown e :: evs' => e :: effects evs'
  | _ :: evs' => effects evs'
  end.

(** [ORDER BY created_at DESC]: one row put in its place among rows already
    in order.  SQL leaves the order of rows of equal [created_at] open; here
    they stay in the order of insertion. *)
Fixpoint insert_newest_first (r : schema_row) (ordered : list schema_row)
  : list schema_row :=
  match ordered with
  | [] => [r]
  | r' :: rest =>
      if Qgt_bool (row_created_at r') (row_created_at r)
      then r' :: insert_newest_first r rest
      else r :: r' :: rest
  end.

Definition order_by_created_at_desc (table : list schema_row) : list schema_row :=
  fold_right insert_newest_first [] table.

(** [SELECT id, prompt, created_at FROM schemas ORDER BY created_at DESC]
    and [fetchall()]. *)
Definition db_select_listing (table : list schema_row) : list (pystr * pystr * Q) :=
  map (fun r => (row_id r, row_prompt r, row_created_at r))
    (order_by_created_at_desc table).

(** [SELECT schema, prompt FROM schemas WHERE id = ?] and [fetchone()]. *)
Definition db_select_schema_prompt (id : pystr) (table : list schema_row)
  : option (pystr * pystr) :=
  match find (fun r => pystr_eqb (row_id r) id) table with
  | Some r => Some (row_schema r, row_prompt r)
  | None => None
  end.

(** [schemas_to_download[filename] = content]: a name already present keeps
    its place. *)
Fixpoint files_set (d : list (pystr * pystr)) (filename content : pystr)
  : list (pystr * pystr) :=
  match d with
  | [] => [(filename, content)]
  | (filename', content') :: d' =>
      if pystr_eqb filename' filename
      then (filename', content) :: d'
      else (filename', content') :: files_set d' filename content
  end.

(** The loop of lines 235-241. *)
Fixpoint collect_schemas (selected_ids : list pystr) (table : list schema_row)
  (schemas_to_download : list (pystr * pystr)) : result (list (pystr * pystr)) :=
  match selected_ids with
  | [] => Ok schemas_to_download
  | schema_id :: others =>
      match db_select_schema_prompt schema_id table with
      | Some (schema_text, prompt) =>
          schema <- json_loads schema_text ;;
          collect_schemas others table
            (files_set schemas_to_download
               (schema_id ++ str "_" ++ prompt ++ str ".json")
               (json_dumps (Some 2%nat) schema))
      | None => collect_schemas others table schemas_to_download
      end
  end.

(** [SchemaGeneratorUI._view_records], lines 198-279.  [selected_ids] is
    what the multiselect returns and [record_id] what the text input
    returns.  The archive is held as the names and contents passed to
    [writestr], in order; the bytes of the zip file are not modelled.  The
    result carries the page as the call leaves it, also when it raises. *)
Definition _view_records (selected_ids : list pystr) (record_id : pystr)
  (st : Store) (p : Page) : result unit * Page :=
  match db_select_listing (rows st) with
  | [] => (Ok tt, show (EvStInfo NoSchemaRecords) p)
  | (_ :: _) as records =>
      let p1 := show (EvStDataframe records)
                  (show (EvPageSubheader (str "Schema Records")) p) in
      let bulk :=
        match selected_ids with
        | [] => Ok p1
        | _ :: _ =>
            schemas_to_download <- collect_schemas selected_ids (rows st) [] ;;
            Ok (show (EvDownloadArchive schemas_to_download (str "selected_schemas.zip")) p1)
        end in
      match bulk with
      | Raise e => (Raise e, p1)
      | Ok p2 =>
          let p3 := show (EvPageSubheader (str "Record Details")) p2 in
          match view_record_details record_id st (world_of p3) with
          | Raise e => (Raise e, p3)
          | Ok w => (Ok tt, page_after p3 w)
          end
      end
  end.

(** [SchemaGenerator()] as [run] meets it: [genai.configure] and
    [genai.GenerativeModel] give the model, or raise. *)
Definition SchemaGenerator_new (configured : result (pystr -> reply))
  : result SchemaGenerator :=
  model <- configured ;; Ok (SchemaGenerator_init model).

(** [SchemaGeneratorUI]: [__init__] runs [init_db()], which creates the
    table when it is missing and leaves an existing one as it is (the
    [Store] is the table once it exists), and sets no generator. *)
Record SchemaGeneratorUI : Type := mkSchemaGeneratorUI {
  schema_generator : option SchemaGenerator
}.

Definition SchemaGeneratorUI_init : SchemaGeneratorUI := mkSchemaGeneratorUI None.

(** What the input widgets return in one run of the script. *)
Record Widgets : Type := mkWidgets {
  api_key : pystr;                      (* st.text_input("Enter your Gemini API key", ...) *)
  prompt : pystr;                       (* st.text_area("Describe your schema requirements:", ...) *)
  generate_pressed : bool;              (* st.button("Generate Schema") *)
  uploaded_files : list UploadedFile;   (* st.file_uploader(...) *)
  selected_ids : list pystr;            (* st.multiselect("Select schemas", df['ID']) *)
  record_id : pystr                     (* st.text_input("Enter Schema ID to view details:") *)
}.

(** str(e) of the AttributeError raised by [None.generate_schema]. *)
Definition no_generator : exn :=
  OtherException (str "'NoneType' object has no attribute 'generate_schema'").

(** The sidebar of [run], lines 285-303.  [gemini_api_key] is the entry of
    [st.session_state], [None] when it is absent. *)
Definition run_sidebar (self : SchemaGeneratorUI) (gemini_api_key : option pystr)
  (configured : result (pystr -> reply)) (widgets : Widgets) (p : Page)
  : SchemaGeneratorUI * pystr * Page :=
  let p := show (EvStTitle (str "Configuration")) p in
  let gemini_api_key :=
    match gemini_api_key with
    | None => []
    | Some key => key
    end in
  match api_key widgets with
  | [] => (self, gemini_api_key, p)
  | _ :: _ =>
      match SchemaGenerator_new configured with
      | Ok generator => (mkSchemaGeneratorUI (Some generator), api_key widgets, p)
      | Raise e => (self, api_key widgets, show (EvPageError (ErrorInitializing e)) p)
      end
  end.

(** The first tab of [run], lines 308-347. *)
Definition run_tab1 (self : SchemaGeneratorUI) (gemini_api_key : pystr)
  (widgets : Widgets) (st : Store) (p : Page)
  : SchemaGeneratorUI * Store * Page :=
  match gemini_api_key with
  | [] => (self, st, show (EvPageWarning EnterApiKey) p)
  | _ :: _ =>
      if generate_pressed widgets then
        match schema_generator self with
        | Some generator =>
            match run_generate generator (prompt widgets) st (world_of p) with
            | (generator', st', w') =>
                (mkSchemaGeneratorUI (Some generator'), st', page_after p w')
            end
        | None =>
            match prompt widgets with
            | [] => (self, st, show (Shown (EvStWarning EnterPrompt)) p)
            | _ :: _ =>
                (self, st, show (Shown (EvStError (ErrorGenerating no_generator))) p)
            end
        end
      else (self, st, p)
  end.

(** The second tab, lines 349-359. *)
Definition run_tab2 (widgets : Widgets) (st : Store) (p : Page) : Store * Page :=
  let p := show (EvPageSubheader (str "Upload Schema Files")) p in
  match uploaded_files widgets with
  | [] => (st, p)
  | (_ :: _) as files =>
      match _upload_schema_files files st (world_of p) with
      | (_, _, st', w') => (st', page_after p w')
      end
  end.

(** [SchemaGeneratorUI.run], lines 281-362.  The result carries the object,
    the session's key, the table and the page as the call leaves them, also
    when the third tab raises. *)
Definition run (self : SchemaGeneratorUI) (gemini_api_key : option pystr)
  (configured : result (pystr -> reply)) (widgets : Widgets) (st : Store) (p : Page)
  : result unit * SchemaGeneratorUI * pystr * Store * Page :=
  let p := show (EvStTitle (str "Schema Generator")) p in
  match run_sidebar self gemini_api_key configured widgets p with
  | (self, gemini_api_key, p) =>
      match run_tab1 self gemini_api_key widgets st p with
      | (self, st, p) =>
          match run_tab2 widgets st p with
          | (st, p) =>
              match _view_records (selected_ids widgets) (record_id widgets) st p with
              | (r, p) => (r, self, gemini_api_key, st, p)
              end
          end
      end
  end.

(** The script, lines 364-373: a new [SchemaGeneratorUI] for every run.
    [st.set_page_config] names the browser tab and puts nothing on the
    page. *)
Definition script (gemini_api_key : option pystr) (configured : result (pystr -> reply))
  (widgets : Widgets) (st : Store) (p : Page)
  : result unit * SchemaGeneratorUI * pystr * Store * Page :=
  run SchemaGeneratorUI_init gemini_api_key configured widgets st p.

(** Every row holds what [json.dumps] writes: an ASCII text that
    [json.loads] reads. *)
Definition rows_load (table : list schema_row) : bool :=
  forallb (fun r => ascii_text (row_schema r)
                    && match json_loads (row_schema r) with
                       | Ok _ => true
                       | Raise _ => false
                       end) table.

(** The row [save_schema] writes for a successful upload. *)
Definition uploaded_row (created_at : Q) (upload : successful_upload) : schema_row :=
  mkRow (ok_id upload) (str "Uploaded: " ++ ok_filename upload)
    (json_dumps None (ok_schema upload)) created_at.

(** What an entry of [successful_uploads] says about the file it stands
    for: the file's name, and the document its bytes decode and load to. *)
Definition success_of (f : UploadedFile) (u : successful_upload) : Prop :=
  ok_filename u = name f /\
  exists text, utf8_decode (getvalue f) = Some text /\ json_loads text = Ok (ok_schema u).

(** What an entry of [failed_uploads] says about its file, in a batch that
    took the table from [st] to [st'] and had the successes [successful]:
    "Invalid JSON format" for bytes that decode to a text that is not JSON;
    the text of the UnicodeDecodeError for bytes that are not UTF-8; the
    text of the IntegrityError for a JSON document whose identifier, one of
    those drawn during the batch, was already in the table as it stood
    then: the rows before the batch and those of the successes so far. *)
Definition failure_of (st st' : Store) (created_at : Q)
  (successful : list successful_upload) (f : UploadedFile) (x : failed_upload) : Prop :=
  failed_filename x = name f /\
  ((failed_error x = InvalidJSONFormat /\
    exists text, utf8_decode (getvalue f) = Some text /\
                 json_loads text = Raise JSONDecodeError) \/
   (failed_error x = ExceptionText UnicodeDecodeError /\
    utf8_decode (getvalue f) = None) \/
   (failed_error x = ExceptionText IntegrityError /\
    (exists text schema, utf8_decode (getvalue f) = Some text /\
                         json_loads text = Ok schema) /\
    exists n stored,
      (drawn st <= n < drawn st')%nat /\
      (exists later, successful = stored ++ later) /\
      has_id (uuid4 st n) (rows st ++ map (uploaded_row created_at) stored) = true)).

(** What an entry of the archive is: the file of a selected row, named by
    the row's identifier and prompt, holding the row's document as
    [json.dumps(schema, indent=2)] writes it, a text that loads as that
    document again. *)
Definition archived (table : list schema_row) (selected : list pystr)
  (entry : pystr * pystr) : Prop :=
  exists r schema,
    In r table /\ In (row_id r) selected /\
    fst entry = row_id r ++ str "_" ++ row_prompt r ++ str ".json" /\
    json_loads (row_schema r) = Ok schema /\
    snd entry = json_dumps (Some 2%nat) schema /\
    json_loads (snd entry) = Ok schema.

(** A column of [created_at] values with the newest first: every value is
    at least the values below it. *)
Fixpoint newest_first (created_at : list Q) : bool :=
  match created_at with
  | [] => true
  | t0 :: below => forallb (fun t => Qle_bool t t0) below && newest_first below
  end.

(** What a part of a run adds to the page: some events after those already
    there, among them no [time.sleep] and the calls [calls] of the
    generation service, with the clock left where it was. *)
Definition adds (p p' : Page) (calls : list pystr) : Prop :=
  exists new,
    p' = mkPage (page_clock p) (shown p ++ new) /\
    sleeps (effects new) = [] /\
    outbound_calls (effects new) = calls.

(** ** Examples *)

(** A file that holds the document of the parsing examples, one whose
    content is not JSON and one whose bytes are not UTF-8. *)
Definition example_upload : UploadedFile :=
  mkUploadedFile (str "users.json") example_raw_text.

Definition example_broken_upload : UploadedFile :=
  mkUploadedFile (str "notes.json") (str "{oops").


(** An empty table; the [n]-th identifier drawn is the text id- followed by
    [n] letters x. *)
Definition example_store : Store :=
  mkStore [] (fun n => str "id-" ++ repeat 120%N n) 0.

(** The table after one schema was generated at time 5 for the prompt
    users. *)
Definition example_filled_store : Store :=
  mkStore [mkRow (str "id-") (str "users") (json_dumps None example_document) 5]
    (fun n => str "id-" ++ repeat 120%N n) 1.


Set Implicit Arguments.

(* ================================================================== *)
(** * Properties *)

(** ** Rationals as booleans *)

Lemma Qgt_bool_true (a b : Q) : Qgt_bool a b = true <-> b < a.
Proof.
  unfold Qgt_bool. rewrite negb_true_iff.
  split; intro H.
  - apply Qnot_le_lt. intro Hle. apply Qle_bool_iff in Hle. congruence.
  - destruct (Qle_bool a b) eqn:E; [|reflexivity].
    apply Qle_bool_iff in E. exfalso. apply (Qlt_not_le _ _ H E).
Qed.

Lemma Qgt_bool_false (a b : Q) : Qgt_bool a b = false <-> a <= b.
Proof.
  unfold Qgt_bool. rewrite negb_false_iff. apply Qle_bool_iff.
Qed.

(** ** RateLimiter.wait *)

(** After the eviction loop the left end of the deque is not older than the
    time frame. *)
Lemma popleft_stale_head (current_time frame : Q) (q : list Q) (t0 : Q) (rest : list Q) :
  popleft_stale current_time frame q = t0 :: rest ->
  current_time - t0 <= frame.
Proof.
  induction q as [|x q IH]; simpl; [discriminate|].
  destruct (Qgt_bool (current_time - x) frame) eqn:E.
  - exact IH.
  - intros [= -> _]. now apply Qgt_bool_false.
Qed.

(** The eviction loop only removes from the left. *)
Lemma popleft_stale_suffix (current_time frame : Q) (q : list Q) :
  exists evicted, q = evicted ++ popleft_stale current_time frame q.
Proof.
  induction q as [|x q [ev IH]]; simpl.
  - now exists [].
  - destruct (Qgt_bool (current_time - x) frame).
    + exists (x :: ev). simpl. now f_equal.
    + now exists [].
Qed.

(** [wait] when the window has room. *)
Lemma wait_room (rl : RateLimiter) (w : World) :
  (Z.of_nat (length (popleft_stale (clock w) (time_frame rl) (request_times rl)))
   < max_requests rl)%Z ->
  wait rl w =
  (Ok tt,
   set_request_times rl
     (popleft_stale (clock w) (time_frame rl) (request_times rl) ++ [clock w]),
   mkWorld (clock w) (trace w ++ [EvLockAcquire; EvLockRelease])).
Proof.
  intro H. unfold wait. simpl.
  destruct (Z.geb_spec
              (Z.of_nat (length (popleft_stale (clock w) (time_frame rl) (request_times rl))))
              (max_requests rl)) as [Hge|_]; [lia|].
  unfold emit. simpl. now rewrite <- app_assoc.
Qed.

(** [wait] when the window is full and its oldest entry is younger than the
    time frame. *)
Lemma wait_full_positive (rl : RateLimiter) (w : World) (oldest : Q) (rest : list Q) :
  popleft_stale (clock w) (time_frame rl) (request_times rl) = oldest :: rest ->
  (max_requests rl <= Z.of_nat (length (oldest :: rest)))%Z ->
  0 < time_frame rl - (clock w - oldest) ->
  wait rl w =
  (Ok tt,
   set_request_times rl (oldest :: rest ++ [clock w]),
   mkWorld (clock w + (time_frame rl - (clock w - oldest)))
     (trace w ++ [EvLockAcquire;
                  EvStWarning (RateLimitReached (time_frame rl - (clock w - oldest)));
                  EvSleep (time_frame rl - (clock w - oldest));
                  EvLockRelease])).
Proof.
  intros Hq Hlen Hpos. unfold wait. simpl. rewrite Hq.
  destruct (Z.geb_spec (Z.of_nat (length (oldest :: rest))) (max_requests rl)) as [_|Hlt];
    [|lia].
  apply Qgt_bool_true in Hpos. rewrite Hpos.
  unfold emit, sleep, set_request_times. simpl.
  now rewrite <- !app_assoc.
Qed.

(** [wait] when the window is full and its oldest entry is exactly one time
    frame old. *)
Lemma wait_full_zero (rl : RateLimiter) (w : World) (oldest : Q) (rest : list Q) :
  popleft_stale (clock w) (time_frame rl) (request_times rl) = oldest :: rest ->
  (max_requests rl <= Z.of_nat (length (oldest :: rest)))%Z ->
  time_frame rl - (clock w - oldest) <= 0 ->
  wait rl w =
  (Ok tt,
   set_request_times rl (oldest :: rest ++ [clock w]),
   mkWorld (clock w) (trace w ++ [EvLockAcquire; EvLockRelease])).
Proof.
  intros Hq Hlen Hpos. unfold wait. simpl. rewrite Hq.
  destruct (Z.geb_spec (Z.of_nat (length (oldest :: rest))) (max_requests rl)) as [_|Hlt];
    [|lia].
  apply Qgt_bool_false in Hpos. rewrite Hpos.
  unfold emit, set_request_times. simpl.
  now rewrite <- !app_assoc.
Qed.

Lemma sleeps_app (a b : list event) : sleeps (a ++ b) = sleeps a ++ sleeps b.
Proof.
  induction a as [|e a IH]; simpl; [reflexivity|].
  destruct e; simpl; now rewrite ?IH.
Qed.

(** With a positive [max_requests], [wait] never raises and records exactly
    the time read at entry, after what the eviction loop kept. *)
Lemma wait_records_entry_time (rl : RateLimiter) (w : World) :
  (0 < max_requests rl)%Z ->
  exists w',
    wait rl w =
    (Ok tt,
     set_request_times rl
       (popleft_stale (clock w) (time_frame rl) (request_times rl) ++ [clock w]),
     w') /\
    exists during, trace w' = trace w ++ EvLockAcquire :: during ++ [EvLockRelease].
Proof.
  intro Hmax.
  destruct (popleft_stale (clock w) (time_frame rl) (request_times rl))
    as [|oldest rest] eqn:Hq.
  - eexists. split.
    + rewrite wait_room; rewrite Hq; [reflexivity|simpl; lia].
    + now exists [].
  - destruct (Z_lt_le_dec (Z.of_nat (length (oldest :: rest))) (max_requests rl)) as [Hl|Hl].
    + eexists. split.
      * rewrite wait_room; rewrite Hq; [reflexivity|exact Hl].
      * now exists [].
    + destruct (Qlt_le_dec 0 (time_frame rl - (clock w - oldest))) as [Hp|Hp].
      * eexists. split.
        -- rewrite (wait_full_positive rl w Hq Hl Hp). reflexivity.
        -- simpl. eexists [_; _]. reflexivity.
      * eexists. split.
        -- rewrite (wait_full_zero rl w Hq Hl Hp). reflexivity.
        -- now exists [].
Qed.

(** C6.  When fewer than [max_requests] timestamps are left after the
    eviction loop, [wait] returns without sleeping: the clock has not moved,
    no [time.sleep] was called, the lock was taken and released once, and the
    time read at entry is appended to what the eviction kept. *)
Theorem wait_below_quota_does_not_block (rl : RateLimiter) (w : World) :
  let kept := popleft_stale (clock w) (time_frame rl) (request_times rl) in
  (Z.of_nat (length kept) < max_requests rl)%Z ->
  exists w',
    wait rl w = (Ok tt, set_request_times rl (kept ++ [clock w]), w') /\
    clock w' = clock w /\
    sleeps (trace w') = sleeps (trace w) /\
    trace w' = trace w ++ [EvLockAcquire; EvLockRelease].
Proof.
  intros kept Hroom. subst kept.
  eexists. split; [apply wait_room; exact Hroom|].
  simpl. repeat split.
  rewrite sleeps_app. simpl. now rewrite app_nil_r.
Qed.

Lemma wait_below_quota_does_not_block_witness :
  exists w',
    wait (mkRateLimiter 2 60 [0]) (mkWorld 10 []) =
      (Ok tt, mkRateLimiter 2 60 [0; 10], w') /\
    clock w' = 10 /\
    sleeps (trace w') = [] /\
    trace w' = [EvLockAcquire; EvLockRelease].
Proof.
  apply (wait_below_quota_does_not_block (mkRateLimiter 2 60 [0]) (mkWorld 10 [])).
  vm_compute. reflexivity.
Defined.

(** C3.  When at least [max_requests] timestamps are left after the eviction
    loop (and [max_requests] is positive), [wait] succeeds, and the time it
    blocks is [time_frame - (current_time - oldest)] for the oldest entry
    left: that quantity is never negative, it is the argument of the one
    [time.sleep] call when it is positive, and no sleep is made when it is
    zero. *)
Theorem wait_at_quota_blocks_for_remaining_frame (rl : RateLimiter) (w : World) :
  let kept := popleft_stale (clock w) (time_frame rl) (request_times rl) in
  (0 < max_requests rl)%Z ->
  (max_requests rl <= Z.of_nat (length kept))%Z ->
  exists oldest rest w',
    kept = oldest :: rest /\
    wait rl w = (Ok tt, set_request_times rl (kept ++ [clock w]), w') /\
    let wait_time := time_frame rl - (clock w - oldest) in
    0 <= wait_time /\
    clock w' == clock w + wait_time /\
    sleeps (trace w') =
      sleeps (trace w) ++ (if Qgt_bool wait_time 0 then [wait_time] else []).
Proof.
  intros kept Hmax Hfull.
  destruct kept as [|oldest rest] eqn:Hq; [simpl in Hfull; lia|].
  exists oldest, rest. subst kept.
  pose proof (popleft_stale_head _ _ _ Hq) as Hhead.
  assert (Hnonneg : 0 <= time_frame rl - (clock w - oldest)) by lra.
  destruct (Qlt_le_dec 0 (time_frame rl - (clock w - oldest))) as [Hp|Hp].
  - eexists. split; [reflexivity|]. split.
    + rewrite (wait_full_positive rl w Hq Hfull Hp). reflexivity.
    + cbv zeta. simpl. split; [exact Hnonneg|]. split; [reflexivity|].
      apply Qgt_bool_true in Hp. rewrite Hp.
      rewrite sleeps_app. reflexivity.
  - eexists. split; [reflexivity|]. split.
    + rewrite (wait_full_zero rl w Hq Hfull Hp). reflexivity.
    + cbv zeta. simpl. split; [exact Hnonneg|]. split; [lra|].
      apply Qgt_bool_false in Hp. rewrite Hp.
      rewrite sleeps_app. simpl. reflexivity.
Qed.

Lemma wait_at_quota_blocks_for_remaining_frame_witness :
  exists oldest rest w',
    [0] = oldest :: rest /\
    wait (mkRateLimiter 1 60 [0]) (mkWorld 10 []) =
      (Ok tt, mkRateLimiter 1 60 [0; 10], w') /\
    let wait_time := 60 - (10 - oldest) in
    0 <= wait_time /\
    clock w' == 10 + wait_time /\
    sleeps (trace w') = [] ++ (if Qgt_bool wait_time 0 then [wait_time] else []).
Proof.
  apply (wait_at_quota_blocks_for_remaining_frame (mkRateLimiter 1 60 [0]) (mkWorld 10 []));
    vm_compute; [reflexivity | discriminate].
Defined.

(** C2, as the specification states it, fails on the code.  With one slot,
    a frame of 60 and a grant at 0, a call entering at 10 sleeps 50 seconds
    between taking and releasing the lock and then appends 10, the time read
    before the sleep; read again at wake-up it would be 60, which is what the
    re-validating algorithm appends. *)
Lemma wait_does_not_revalidate :
  ~ revalidates_after_sleep (mkRateLimiter 1 60 [0]) (mkWorld 10 []) /\
  (exists w',
     wait (mkRateLimiter 1 60 [0]) (mkWorld 10 []) =
       (Ok tt, mkRateLimiter 1 60 [0; 10], w') /\
     trace w' = [EvLockAcquire; EvStWarning (RateLimitReached 50);
                 EvSleep 50; EvLockRelease] /\
     sleeps_unlocked false (trace w') = false) /\
  (forall fuel rl_spec w_spec,
     acquire_spec fuel (mkRateLimiter 1 60 [0]) (mkWorld 10 []) = Some (rl_spec, w_spec) ->
     request_times rl_spec = [0; 60]).
Proof.
  split; [|split].
  - intros (fuel & rls & ws & rl' & w' & _ & Hw & _ & Hl).
    vm_compute in Hw. injection Hw as <- <-.
    vm_compute in Hl. discriminate.
  - eexists. split; [vm_compute; reflexivity|]. split; reflexivity.
  - intros [|[|fuel]] rls ws H.
    + discriminate.
    + vm_compute in H. discriminate.
    + cbn in H. injection H as <- _. reflexivity.
Qed.

(** C2, amended.  When the window is full and the computed wait is positive,
    [wait] sleeps once, for exactly that time, while it holds the lock (the
    sleep stands between the acquisition and the release), and then records
    the grant and returns: there is no loop.  Nothing is evicted after the
    sleep and the quota is not checked again, so that the deque is the
    entries the first eviction kept, all of them, followed by the one new
    entry, although the window was full. *)
Theorem wait_sleeps_once_under_lock (rl : RateLimiter) (w : World)
  (oldest : Q) (rest : list Q) :
  popleft_stale (clock w) (time_frame rl) (request_times rl) = oldest :: rest ->
  (max_requests rl <= Z.of_nat (length (oldest :: rest)))%Z ->
  0 < time_frame rl - (clock w - oldest) ->
  let wait_time := time_frame rl - (clock w - oldest) in
  exists rl' recorded,
    wait rl w =
      (Ok tt, rl',
       mkWorld (clock w + wait_time)
         (trace w ++ [EvLockAcquire; EvStWarning (RateLimitReached wait_time);
                      EvSleep wait_time; EvLockRelease])) /\
    request_times rl' = oldest :: rest ++ [recorded] /\
    max_requests rl' = max_requests rl /\
    time_frame rl' = time_frame rl.
Proof.
  intros Hq Hfull Hpos wait_time. subst wait_time.
  rewrite (wait_full_positive rl w Hq Hfull Hpos).
  do 2 eexists. split; [reflexivity|]. cbn [set_request_times request_times].
  repeat split.
Qed.

Lemma wait_sleeps_once_under_lock_witness :
  exists rl' recorded,
    wait (mkRateLimiter 1 60 [0]) (mkWorld 10 []) =
      (Ok tt, rl',
       mkWorld (10 + (60 - (10 - 0)))
         ([] ++ [EvLockAcquire; EvStWarning (RateLimitReached (60 - (10 - 0)));
                 EvSleep (60 - (10 - 0)); EvLockRelease])) /\
    request_times rl' = 0 :: [] ++ [recorded] /\
    max_requests rl' = 1%Z /\
    time_frame rl' = 60.
Proof.
  apply (wait_sleeps_once_under_lock (mkRateLimiter 1 60 [0]) (mkWorld 10 [])
           (oldest := 0) (rest := []));
    vm_compute; [reflexivity | discriminate | reflexivity].
Defined.

(** C1 on the code.  A limiter with [max_requests = 1] and [time_frame = 60]
    is called at time 0 and again at time 10.  The second call sleeps 50
    seconds and then records 10: the deque holds 0 and 10, two timestamps
    inside one 60-second window where one is allowed.  The limiter that
    [SchemaGenerator] builds (60 requests in 60 seconds) does the same: after
    60 calls at time 0, a call at time 10 sleeps 50 seconds and records 10,
    the 61st timestamp of the window that starts at 0. *)
Theorem wait_overfills_window :
  (exists rl' w',
     wait_calls [0; 10] (RateLimiter_init 1 60) (mkWorld 0 []) = (Ok tt, rl', w') /\
     request_times rl' = [0; 10] /\
     sleeps (trace w') = [50] /\
     count_in_window 0 (time_frame rl') (request_times rl') = 2%nat /\
     ~ quota_respected (max_requests rl') (time_frame rl') (request_times rl')) /\
  (exists rl' w',
     wait_calls (repeat 0 60 ++ [10]) RateLimiter_default (mkWorld 0 []) =
       (Ok tt, rl', w') /\
     request_times rl' = repeat 0 60 ++ [10] /\
     sleeps (trace w') = [50] /\
     count_in_window 0 (time_frame rl') (request_times rl') = 61%nat /\
     ~ quota_respected (max_requests rl') (time_frame rl') (request_times rl')).
Proof.
  split.
  - eexists. eexists. split; [vm_compute; reflexivity|].
    simpl. repeat split.
    intro H. specialize (H 0). vm_compute in H. apply H. reflexivity.
  - eexists. eexists. split; [vm_compute; reflexivity|].
    split; [reflexivity|]. split; [reflexivity|]. split; [reflexivity|].
    intro H. specialize (H 0). vm_compute in H. apply H. reflexivity.
Qed.

(* ================================================================== *)
(** ** json.loads: what it consumes, and that it always answers *)

Lemma hexval_not_lf h v : hexval h = Some v -> h <> 10%N.
Proof.
  unfold hexval, is_digit. intros H ->. vm_compute in H. discriminate.
Qed.

Lemma option_cons_Some c r chars rest :
  option_cons c r = Some (chars, rest) ->
  exists chars', r = Some (chars', rest) /\ chars = c :: chars'.
Proof.
  destruct r as [[a b]|]; simpl; [|discriminate].
  intros [= <- <-]. eauto.
Qed.

Lemma decode_uXXXX_not_lf h1 h2 h3 h4 v :
  decode_uXXXX h1 h2 h3 h4 = Some v ->
  Forall (fun c => c <> 10%N) [h1; h2; h3; h4].
Proof.
  unfold decode_uXXXX.
  destruct (hexval h1) eqn:E1; [|discriminate].
  destruct (hexval h2) eqn:E2; [|discriminate].
  destruct (hexval h3) eqn:E3; [|discriminate].
  destruct (hexval h4) eqn:E4; [|discriminate].
  intros _. repeat constructor; eapply hexval_not_lf; eauto.
Qed.

Lemma backslash_not_lf esc ch : backslash esc = Some ch -> esc <> 10%N.
Proof.
  intros H ->. vm_compute in H. discriminate.
Qed.

(** What [scanstring] consumes ends at the closing quote and holds no
    line feed. *)
Lemma scanstring_consumed_aux (n : nat) : forall s chars rest,
  (length s <= n)%nat ->
  scanstring s = Some (chars, rest) ->
  exists pre, s = pre ++ 34%N :: rest /\ Forall (fun c => c <> 10%N) pre.
Proof.
  induction n as [|n IH]; intros s chars rest Hn H.
  - destruct s; [discriminate|simpl in Hn; lia].
  - destruct s as [|c s1]; [discriminate|].
    simpl in Hn. cbn [scanstring] in H.
    destruct (c =? 34)%N eqn:Ec.
    { apply N.eqb_eq in Ec. subst c. injection H as <- <-. exists []. split; auto. }
    destruct (c =? 92)%N eqn:Eb.
    { apply N.eqb_eq in Eb. subst c.
      destruct s1 as [|esc s2]; [discriminate|].
      simpl in Hn.
      destruct (esc =? 117)%N eqn:Eu.
      - apply N.eqb_eq in Eu. subst esc.
        destruct s2 as [|h1 [|h2 [|h3 [|h4 s3]]]]; try discriminate.
        simpl in Hn.
        destruct (decode_uXXXX h1 h2 h3 h4) as [uni|] eqn:Ed; [|discriminate].
        pose proof (decode_uXXXX_not_lf _ _ _ _ Ed) as Hh.
        assert (Hplain : forall x, option_cons x (scanstring s3) = Some (chars, rest) ->
                  exists pre, 92%N :: 117%N :: h1 :: h2 :: h3 :: h4 :: s3 = pre ++ 34%N :: rest
                              /\ Forall (fun c => c <> 10%N) pre).
        { intros x Hx. apply option_cons_Some in Hx as (chars' & Hs & _).
          apply IH in Hs as (pre & -> & Hpre); [|lia].
          exists (92%N :: 117%N :: h1 :: h2 :: h3 :: h4 :: pre). split; [reflexivity|].
          inversion Hh as [|? ? ? Hh1]; inversion Hh1 as [|? ? ? Hh2]; inversion Hh2 as [|? ? ? Hh3];
            inversion Hh3; subst.
          repeat (constructor; [try assumption; discriminate|]). assumption. }
        destruct s3 as [|b [|u [|l1 [|l2 [|l3 [|l4 s5]]]]]];
          try (destruct (is_high_surrogate uni && _ && _); [discriminate|]);
          try (apply Hplain in H; exact H).
        destruct (is_high_surrogate uni && (b =? 92)%N && (u =? 117)%N) eqn:Ehi;
          [|apply Hplain in H; exact H].
        destruct (decode_uXXXX l1 l2 l3 l4) as [uni2|] eqn:Ed2; [|discriminate].
        destruct (is_low_surrogate uni2); [|apply Hplain in H; exact H].
        apply option_cons_Some in H as (chars' & Hs & _).
        simpl in Hn.
        apply IH in Hs as (pre & -> & Hpre); [|lia].
        apply andb_prop in Ehi as [Ehi Eu2]. apply andb_prop in Ehi as [_ Eb2].
        apply N.eqb_eq in Eu2, Eb2. subst b u.
        pose proof (decode_uXXXX_not_lf _ _ _ _ Ed2) as Hl.
        exists (92%N :: 117%N :: h1 :: h2 :: h3 :: h4 :: 92%N :: 117%N :: l1 :: l2 :: l3 :: l4 :: pre).
        split; [reflexivity|].
        inversion Hh as [|? ? ? Hh1]; inversion Hh1 as [|? ? ? Hh2]; inversion Hh2 as [|? ? ? Hh3];
          inversion Hh3; subst.
        inversion Hl as [|? ? ? Hl1]; inversion Hl1 as [|? ? ? Hl2]; inversion Hl2 as [|? ? ? Hl3];
          inversion Hl3; subst.
        repeat (constructor; [try assumption; discriminate|]). assumption.
      - destruct (backslash esc) as [ch|] eqn:Ebs; [|discriminate].
        apply option_cons_Some in H as (chars' & Hs & _).
        apply IH in Hs as (pre & -> & Hpre); [|lia].
        exists (92%N :: esc :: pre). split; [reflexivity|].
        constructor; [discriminate|]. constructor; [|assumption].
        eapply backslash_not_lf; eauto. }
    destruct (c <? 32)%N eqn:Ectl; [discriminate|].
    apply option_cons_Some in H as (chars' & Hs & _).
    apply IH in Hs as (pre & -> & Hpre); [|lia].
    exists (c :: pre). split; [reflexivity|].
    constructor; [|assumption].
    apply N.ltb_ge in Ectl. lia.
Qed.

Lemma scanstring_consumed s chars rest :
  scanstring s = Some (chars, rest) ->
  exists pre, s = pre ++ 34%N :: rest /\ Forall (fun c => c <> 10%N) pre.
Proof. apply (scanstring_consumed_aux (n := length s)). lia. Qed.

Lemma tidy_app a b : tidy a = true -> tidy b = true -> tidy (a ++ b) = true.
Proof.
  induction a as [|c a IH]; simpl; [auto|].
  intros Ha Hb. apply andb_prop in Ha as [Hc Ha].
  rewrite (IH Ha Hb), andb_true_r.
  destruct a as [|d a]; simpl in *; [|exact Hc].
  rewrite andb_true_r in Hc. destruct (c =? 110)%N; [discriminate|reflexivity].
Qed.

Lemma tidy_no_n pre : Forall (fun c => c <> 110%N) pre -> tidy pre = true.
Proof.
  induction 1 as [|c pre Hc _ IH]; simpl; [reflexivity|].
  rewrite IH, andb_true_r. apply N.eqb_neq in Hc. now rewrite Hc.
Qed.

Lemma tidy_no_lf pre c :
  Forall (fun c => c <> 10%N) pre -> c <> 110%N -> c <> 10%N -> tidy (pre ++ [c]) = true.
Proof.
  intros Hpre Hc Hc'. induction Hpre as [|d pre Hd Hpre IH]; simpl.
  - apply N.eqb_neq in Hc. now rewrite Hc.
  - rewrite IH, andb_true_r.
    destruct pre as [|e pre]; simpl.
    + apply N.eqb_neq in Hc'. rewrite Hc'. now rewrite andb_false_r.
    + inversion Hpre as [|? ? He _]; subst. apply N.eqb_neq in He. rewrite He.
      now rewrite andb_false_r.
Qed.

Lemma skips_refl s : skips s s.
Proof. now exists []. Qed.

Lemma eats_skips s r : eats s r -> skips s r.
Proof. intros (pre & -> & _ & H). now exists pre. Qed.

Lemma skips_trans s r t : skips s r -> skips r t -> skips s t.
Proof.
  intros (a & -> & Ha) (b & -> & Hb). exists (a ++ b).
  split; [now rewrite app_assoc|now apply tidy_app].
Qed.

Lemma eats_then_skips s r t : eats s r -> skips r t -> eats s t.
Proof.
  intros (a & -> & Hne & Ha) (b & -> & Hb). exists (a ++ b).
  split; [now rewrite app_assoc|]. split; [|now apply tidy_app].
  destruct a; [congruence|discriminate].
Qed.

Lemma skips_then_eats s r t : skips s r -> eats r t -> eats s t.
Proof.
  intros (a & -> & Ha) (b & -> & Hne & Hb). exists (a ++ b).
  split; [now rewrite app_assoc|]. split; [|now apply tidy_app].
  destruct a; simpl; [assumption|discriminate].
Qed.

Lemma eats_char c r : c <> 110%N -> eats (c :: r) r.
Proof.
  intro Hc. exists [c]. split; [reflexivity|]. split; [discriminate|].
  simpl. apply N.eqb_neq in Hc. now rewrite Hc.
Qed.

Lemma eats_length s r : eats s r -> (length r < length s)%nat.
Proof.
  intros (pre & -> & Hne & _). rewrite length_app.
  destruct pre; [congruence|simpl; lia].
Qed.

Lemma skips_length s r : skips s r -> (length r <= length s)%nat.
Proof. intros (pre & -> & _). rewrite length_app. lia. Qed.

Lemma skips_ws s : skips s (skip_ws s).
Proof.
  induction s as [|c s IH]; simpl; [apply skips_refl|].
  destruct (is_ws c) eqn:E; [|apply skips_refl].
  eapply skips_trans; [|exact IH].
  apply eats_skips, eats_char. intros ->. discriminate.
Qed.

Lemma strip_prefix_app p s rest : strip_prefix p s = Some rest -> s = p ++ rest.
Proof.
  revert s. induction p as [|x p IH]; intros s; simpl.
  - now intros [= ->].
  - destruct s as [|y s]; [discriminate|].
    destruct (x =? y)%N eqn:E; [|discriminate].
    apply N.eqb_eq in E. subst y. intros H. now rewrite (IH _ H).
Qed.

Lemma eats_literal p s rest :
  strip_prefix p s = Some rest -> p <> [] -> tidy p = true -> eats s rest.
Proof.
  intros H Hne Ht. apply strip_prefix_app in H. subst s. now exists p.
Qed.

Lemma eats_string s chars rest : scanstring s = Some (chars, rest) -> eats s rest.
Proof.
  intro H. apply scanstring_consumed in H as (pre & -> & Hpre).
  exists (pre ++ [34%N]). split; [now rewrite <- app_assoc|].
  split; [destruct pre; discriminate|].
  apply tidy_no_lf; [assumption|discriminate|discriminate].
Qed.

Lemma span_digits_spec s ds r :
  span_digits s = (ds, r) ->
  s = ds ++ r /\ Forall (fun c => is_digit c = true) ds /\
  match r with [] => True | c :: _ => is_digit c = false end.
Proof.
  revert ds r. induction s as [|c s IH]; intros ds r; simpl.
  - intros [= <- <-]. auto.
  - destruct (is_digit c) eqn:E.
    + destruct (span_digits s) as [ds' r'] eqn:Es. intros [= <- <-].
      destruct (IH _ _ eq_refl) as (-> & Hds & Hr). auto.
    + intros [= <- <-]. auto.
Qed.

Lemma digit_not_n c : is_digit c = true -> c <> 110%N.
Proof. intros H ->. discriminate. Qed.

Lemma digits_no_n ds :
  Forall (fun c => is_digit c = true) ds -> Forall (fun c => c <> 110%N) ds.
Proof. intro H. eapply Forall_impl; [|exact H]. apply digit_not_n. Qed.

Lemma match_integer_spec s integer r :
  match_integer s = Some (integer, r) ->
  s = integer ++ r /\ integer <> [] /\ Forall (fun c => c <> 110%N) integer.
Proof.
  unfold match_integer.
  assert (Hgen : forall sign s1,
    Forall (fun c => c <> 110%N) sign ->
    match s1 with
    | [] => None
    | c :: s2 =>
        if (c =? 48)%N then Some (sign ++ [c], s2)
        else if is_digit c then let (ds, r) := span_digits s2 in Some (sign ++ c :: ds, r)
        else None
    end = Some (integer, r) ->
    sign ++ s1 = integer ++ r /\ integer <> [] /\ Forall (fun c => c <> 110%N) integer).
  { intros sign s1 Hsign H. destruct s1 as [|c s2]; [discriminate|].
    destruct (c =? 48)%N eqn:E0.
    - injection H as <- <-. rewrite <- app_assoc. split; [reflexivity|].
      split; [destruct sign; discriminate|].
      apply Forall_app. split; [assumption|]. constructor; [|constructor].
      apply N.eqb_eq in E0. subst. discriminate.
    - destruct (is_digit c) eqn:Ed; [|discriminate].
      destruct (span_digits s2) as [ds r'] eqn:Es. injection H as <- <-.
      apply span_digits_spec in Es as (-> & Hds & _).
      rewrite <- app_assoc. split; [reflexivity|].
      split; [destruct sign; discriminate|].
      apply Forall_app. split; [assumption|]. constructor.
      + now apply digit_not_n.
      + now apply digits_no_n. }
  destruct s as [|c s'].
  - intro H. apply (Hgen [] []); [constructor|exact H].
  - destruct (c =? 45)%N eqn:Em.
    + apply N.eqb_eq in Em. subst c. intro H.
      apply (Hgen [45%N] s'); [|exact H]. constructor; [discriminate|constructor].
    + intro H. apply (Hgen [] (c :: s')); [constructor|exact H].
Qed.

Lemma match_frac_spec s frac r :
  match_frac s = (frac, r) -> s = frac ++ r /\ Forall (fun c => c <> 110%N) frac.
Proof.
  unfold match_frac. destruct s as [|c s1]; [intros [= <- <-]; auto|].
  destruct (c =? 46)%N eqn:E; [|intros [= <- <-]; auto].
  destruct (span_digits s1) as [ds r'] eqn:Es.
  apply span_digits_spec in Es as (-> & Hds & _).
  destruct ds as [|d ds]; intros [= <- <-]; [auto|].
  split; [reflexivity|]. constructor.
  - apply N.eqb_eq in E. subst. discriminate.
  - now apply digits_no_n.
Qed.

Lemma match_exp_spec s exp r :
  match_exp s = (exp, r) -> s = exp ++ r /\ Forall (fun c => c <> 110%N) exp.
Proof.
  unfold match_exp. destruct s as [|c s1]; [intros [= <- <-]; auto|].
  destruct ((c =? 101) || (c =? 69))%N eqn:E; [|intros [= <- <-]; auto].
  assert (Hc : c <> 110%N).
  { intros ->. discriminate. }
  assert (Hgen : forall sign s2,
    Forall (fun c => c <> 110%N) sign -> s1 = sign ++ s2 ->
    match span_digits s2 with
    | ([], _) => ([], c :: s1)
    | ((_ :: _) as ds, r) => (c :: sign ++ ds, r)
    end = (exp, r) ->
    c :: s1 = exp ++ r /\ Forall (fun c => c <> 110%N) exp).
  { intros sign s2 Hsign -> H.
    destruct (span_digits s2) as [ds r'] eqn:Es.
    apply span_digits_spec in Es as (-> & Hds & _).
    destruct ds as [|d ds]; injection H as <- <-; [auto|].
    split; [simpl; now rewrite <- app_assoc|].
    constructor; [assumption|]. apply Forall_app. split; [assumption|].
    now apply digits_no_n. }
  destruct s1 as [|d s1'].
  - intro H. apply (Hgen [] []); [constructor|reflexivity|exact H].
  - destruct ((d =? 45) || (d =? 43))%N eqn:Es.
    + intro H. apply (Hgen [d] s1'); [|reflexivity|exact H].
      constructor; [|constructor]. intros ->. discriminate.
    + intro H. apply (Hgen [] (d :: s1')); [constructor|reflexivity|exact H].
Qed.

Ltac eqb_subst :=
  repeat match goal with
  | H : (_ =? _)%N = true |- _ => apply N.eqb_eq in H; subst
  end.

(** Every value [scan_once] returns is read off the grammar. *)
Lemma scan_once_scanned (fuel : nat) :
  (forall s v r, scan_once fuel s = Parsed v r -> scanned s v r) /\
  (forall s vs r, array_values fuel s = Parsed vs r -> scanned_values s vs r) /\
  (forall s ps r, object_pairs fuel s = Parsed ps r -> scanned_pairs s ps r).
Proof.
  induction fuel as [|fuel (IH1 & IH2 & IH3)].
  - repeat split; intros; discriminate.
  - split; [|split].
    + intros s v r H. cbn [scan_once] in H.
      destruct s as [|nextchar s1]; [discriminate|].
      destruct (nextchar =? 34)%N eqn:E1.
      { eqb_subst. destruct (scanstring s1) as [[chars rest]|] eqn:Es; [|discriminate].
        injection H as <- <-. now constructor. }
      destruct (nextchar =? 123)%N eqn:E2.
      { eqb_subst. destruct (skip_ws s1) as [|c s2] eqn:Ew; [discriminate|].
        destruct (c =? 125)%N eqn:E3.
        { eqb_subst. injection H as <- <-. now constructor. }
        destruct (c =? 34)%N eqn:E4; [|discriminate].
        eqb_subst. destruct (object_pairs fuel s2) as [pairs rest| |] eqn:Eo; try discriminate.
        injection H as <- <-. eapply scanned_dict; eauto. }
      destruct (nextchar =? 91)%N eqn:E3.
      { eqb_subst. destruct (skip_ws s1) as [|c s2] eqn:Ew; [discriminate|].
        destruct (c =? 93)%N eqn:E4.
        { eqb_subst. injection H as <- <-. now constructor. }
        destruct (array_values fuel (c :: s2)) as [values rest| |] eqn:Ea; try discriminate.
        injection H as <- <-. eapply scanned_list; eauto. }
      destruct (strip_prefix (str "null") (nextchar :: s1)) eqn:P1.
      { injection H as <- <-. now constructor. }
      destruct (strip_prefix (str "true") (nextchar :: s1)) eqn:P2.
      { injection H as <- <-. now constructor. }
      destruct (strip_prefix (str "false") (nextchar :: s1)) eqn:P3.
      { injection H as <- <-. now constructor. }
      destruct (match_integer (nextchar :: s1)) as [[integer r1]|] eqn:Ei.
      { destruct (match_frac r1) as [frac r2] eqn:Ef.
        destruct (match_exp r2) as [exp r3] eqn:Ee.
        destruct frac as [|f frac]; [destruct exp as [|e exp]|];
          injection H as <- <-.
        - eapply scanned_int; eauto.
        - apply (@scanned_float (nextchar :: s1) integer [] (e :: exp) r1 r2 r3 Ei Ef Ee).
          discriminate.
        - apply (@scanned_float (nextchar :: s1) integer (f :: frac) exp r1 r2 r3 Ei Ef Ee).
          discriminate. }
      destruct (strip_prefix (str "NaN") (nextchar :: s1)) eqn:P4.
      { injection H as <- <-. now constructor. }
      destruct (strip_prefix (str "Infinity") (nextchar :: s1)) eqn:P5.
      { injection H as <- <-. now constructor. }
      destruct (strip_prefix (str "-Infinity") (nextchar :: s1)) eqn:P6; [|discriminate].
      injection H as <- <-. now constructor.
    + intros s vs r H. cbn [array_values] in H.
      destruct (scan_once fuel s) as [value rest| |] eqn:Ev; try discriminate.
      destruct (skip_ws rest) as [|c s2] eqn:Ew; [discriminate|].
      destruct (c =? 93)%N eqn:E1.
      { eqb_subst. injection H as <- <-. eapply scanned_values_last; eauto. }
      destruct (c =? 44)%N eqn:E2; [|discriminate].
      eqb_subst.
      destruct (array_values fuel (skip_ws s2)) as [values rest'| |] eqn:Ea; try discriminate.
      injection H as <- <-. eapply scanned_values_more; eauto.
    + intros s ps r H. cbn [object_pairs] in H.
      destruct (scanstring s) as [[key r0]|] eqn:Es; [|discriminate].
      destruct (skip_ws r0) as [|c r1] eqn:Ew0; [discriminate|].
      destruct (c =? 58)%N eqn:E1; [|discriminate].
      eqb_subst.
      destruct (scan_once fuel (skip_ws r1)) as [value r2| |] eqn:Ev; try discriminate.
      destruct (skip_ws r2) as [|d r3] eqn:Ew2; [discriminate|].
      destruct (d =? 125)%N eqn:E2.
      { eqb_subst. injection H as <- <-. eapply scanned_pairs_last; eauto. }
      destruct (d =? 44)%N eqn:E3; [|discriminate].
      eqb_subst.
      destruct (skip_ws r3) as [|q r4] eqn:Ew3; [discriminate|].
      destruct (q =? 34)%N eqn:E4; [|discriminate].
      eqb_subst.
      destruct (object_pairs fuel r4) as [pairs rest| |] eqn:Eo; try discriminate.
      injection H as <- <-. eapply scanned_pairs_more; eauto.
Qed.

Lemma skips_to s c r : skip_ws s = c :: r -> skips s (c :: r).
Proof. intros <-. apply skips_ws. Qed.

Lemma tidy_number integer frac exp :
  Forall (fun c => c <> 110%N) integer ->
  Forall (fun c => c <> 110%N) frac ->
  Forall (fun c => c <> 110%N) exp ->
  tidy (integer ++ frac ++ exp) = true.
Proof.
  intros. apply tidy_no_n. rewrite !Forall_app. auto.
Qed.

(** What the grammar consumes is a tidy, non-empty prefix. *)
Lemma scanned_eats :
  (forall s v r, scanned s v r -> eats s r) /\
  (forall s vs r, scanned_values s vs r -> eats s r) /\
  (forall s ps r, scanned_pairs s ps r -> eats s r).
Proof.
  apply scanned_mutind; intros.
  - eapply skips_then_eats; [apply eats_skips, eats_char; discriminate|].
    eapply eats_string; eauto.
  - eapply eats_then_skips; [apply eats_char; discriminate|].
    eapply skips_trans; [eapply skips_to; eauto|].
    apply eats_skips, eats_char; discriminate.
  - eapply eats_then_skips; [apply eats_char; discriminate|].
    eapply skips_trans; [eapply skips_to; eauto|].
    eapply skips_trans; [apply eats_skips, eats_char; discriminate|].
    now apply eats_skips.
  - eapply eats_then_skips; [apply eats_char; discriminate|].
    eapply skips_trans; [eapply skips_to; eauto|].
    apply eats_skips, eats_char; discriminate.
  - eapply eats_then_skips; [apply eats_char; discriminate|].
    eapply skips_trans; [eapply skips_to; eauto|].
    now apply eats_skips.
  - eapply eats_literal; eauto. discriminate.
  - eapply eats_literal; eauto. discriminate.
  - eapply eats_literal; eauto. discriminate.
  - apply match_integer_spec in H as (-> & Hne & Hi).
    apply match_frac_spec in H0 as (-> & _).
    apply match_exp_spec in H1 as (-> & _). simpl.
    exists integer. repeat split; auto. now apply tidy_no_n.
  - apply match_integer_spec in H as (-> & Hne & Hi).
    apply match_frac_spec in H0 as (-> & Hf).
    apply match_exp_spec in H1 as (-> & He).
    exists (integer ++ frac ++ exp). split; [now rewrite <- !app_assoc|].
    split; [destruct integer; [congruence|discriminate]|].
    now apply tidy_number.
  - eapply eats_literal; eauto. discriminate.
  - eapply eats_literal; eauto. discriminate.
  - eapply eats_literal; eauto. discriminate.
  - eapply eats_then_skips; [eassumption|].
    eapply skips_trans; [eapply skips_to; eauto|].
    apply eats_skips, eats_char; discriminate.
  - eapply eats_then_skips; [eassumption|].
    eapply skips_trans; [eapply skips_to; eauto|].
    eapply skips_trans; [apply eats_skips, eats_char; discriminate|].
    eapply skips_trans; [apply skips_ws|]. now apply eats_skips.
  - eapply eats_then_skips; [eapply eats_string; eauto|].
    eapply skips_trans; [eapply skips_to; eauto|].
    eapply skips_trans; [apply eats_skips, eats_char; discriminate|].
    eapply skips_trans; [apply skips_ws|].
    eapply skips_trans; [apply eats_skips; eassumption|].
    eapply skips_trans; [eapply skips_to; eauto|].
    apply eats_skips, eats_char; discriminate.
  - eapply eats_then_skips; [eapply eats_string; eauto|].
    eapply skips_trans; [eapply skips_to; eauto|].
    eapply skips_trans; [apply eats_skips, eats_char; discriminate|].
    eapply skips_trans; [apply skips_ws|].
    eapply skips_trans; [apply eats_skips; eassumption|].
    eapply skips_trans; [eapply skips_to; eauto|].
    eapply skips_trans; [apply eats_skips, eats_char; discriminate|].
    eapply skips_trans; [eapply skips_to; eauto|].
    eapply skips_trans; [apply eats_skips, eats_char; discriminate|].
    now apply eats_skips.
Qed.

Lemma skip_ws_cons_length s c r : skip_ws s = c :: r -> (length r < length s)%nat.
Proof.
  intro H. pose proof (skips_length (skips_ws s)) as Hl. rewrite H in Hl.
  simpl in Hl. lia.
Qed.

Lemma skip_ws_length s : (length (skip_ws s) <= length s)%nat.
Proof. apply skips_length, skips_ws. Qed.

Lemma scanstring_length s chars rest :
  scanstring s = Some (chars, rest) -> (length rest < length s)%nat.
Proof. intro H. eapply eats_length, eats_string; eauto. Qed.

Lemma scan_once_length fuel s v r :
  scan_once fuel s = Parsed v r -> (length r < length s)%nat.
Proof.
  intro H. apply eats_length. apply (proj1 scanned_eats) with v.
  now apply (proj1 (scan_once_scanned fuel)).
Qed.

(** The budget [json_loads] starts with is never spent. *)
Lemma scan_not_exhausted (fuel : nat) :
  (forall s, (2 * length s < fuel)%nat -> scan_once fuel s <> Exhausted) /\
  (forall s, (2 * length s + 1 < fuel)%nat -> array_values fuel s <> Exhausted) /\
  (forall s, (2 * length s + 1 < fuel)%nat -> object_pairs fuel s <> Exhausted).
Proof.
  induction fuel as [|fuel (IH1 & IH2 & IH3)].
  - repeat split; intros; lia.
  - split; [|split].
    + intros s Hf H. cbn [scan_once] in H.
      destruct s as [|nextchar s1]; [discriminate|]. simpl in Hf.
      destruct (nextchar =? 34)%N.
      { destruct (scanstring s1) as [[chars rest]|]; discriminate. }
      destruct (nextchar =? 123)%N.
      { destruct (skip_ws s1) as [|c s2] eqn:Ew; [discriminate|].
        apply skip_ws_cons_length in Ew.
        destruct (c =? 125)%N; [discriminate|].
        destruct (c =? 34)%N; [|discriminate].
        destruct (object_pairs fuel s2) eqn:Eo; try discriminate.
        apply IH3 in Eo; [contradiction|lia]. }
      destruct (nextchar =? 91)%N.
      { destruct (skip_ws s1) as [|c s2] eqn:Ew; [discriminate|].
        apply skip_ws_cons_length in Ew.
        destruct (c =? 93)%N; [discriminate|].
        destruct (array_values fuel (c :: s2)) eqn:Ea; try discriminate.
        apply IH2 in Ea; [contradiction|simpl; lia]. }
      destruct (strip_prefix (str "null") (nextchar :: s1)); [discriminate|].
      destruct (strip_prefix (str "true") (nextchar :: s1)); [discriminate|].
      destruct (strip_prefix (str "false") (nextchar :: s1)); [discriminate|].
      destruct (match_integer (nextchar :: s1)) as [[integer r1]|].
      { destruct (match_frac r1) as [frac r2]. destruct (match_exp r2) as [exp r3].
        destruct frac; [destruct exp|]; discriminate. }
      destruct (strip_prefix (str "NaN") (nextchar :: s1)); [discriminate|].
      destruct (strip_prefix (str "Infinity") (nextchar :: s1)); [discriminate|].
      destruct (strip_prefix (str "-Infinity") (nextchar :: s1)); discriminate.
    + intros s Hf H. cbn [array_values] in H.
      destruct (scan_once fuel s) as [value rest| |] eqn:Ev; try discriminate.
      * apply scan_once_length in Ev.
        destruct (skip_ws rest) as [|c s2] eqn:Ew; [discriminate|].
        apply skip_ws_cons_length in Ew.
        destruct (c =? 93)%N; [discriminate|].
        destruct (c =? 44)%N; [|discriminate].
        destruct (array_values fuel (skip_ws s2)) eqn:Ea; try discriminate.
        pose proof (skip_ws_length s2).
        apply IH2 in Ea; [contradiction|lia].
      * apply IH1 in Ev; [contradiction|lia].
    + intros s Hf H. cbn [object_pairs] in H.
      destruct (scanstring s) as [[key r0]|] eqn:Es; [|discriminate].
      apply scanstring_length in Es.
      destruct (skip_ws r0) as [|c r1] eqn:Ew0; [discriminate|].
      apply skip_ws_cons_length in Ew0.
      destruct (c =? 58)%N; [|discriminate].
      pose proof (skip_ws_length r1).
      destruct (scan_once fuel (skip_ws r1)) as [value r2| |] eqn:Ev; try discriminate.
      * apply scan_once_length in Ev.
        destruct (skip_ws r2) as [|d r3] eqn:Ew2; [discriminate|].
        apply skip_ws_cons_length in Ew2.
        destruct (d =? 125)%N; [discriminate|].
        destruct (d =? 44)%N; [|discriminate].
        destruct (skip_ws r3) as [|q r4] eqn:Ew3; [discriminate|].
        apply skip_ws_cons_length in Ew3.
        destruct (q =? 34)%N; [|discriminate].
        destruct (object_pairs fuel r4) eqn:Eo; try discriminate.
        apply IH3 in Eo; [contradiction|lia].
      * apply IH1 in Ev; [contradiction|lia].
Qed.

(** [json_loads] returns a document or raises JSONDecodeError. *)
Lemma json_loads_cases (s : pystr) :
  (exists v rest,
     scan_once (scan_fuel s) (skip_ws s) = Parsed v rest /\ skip_ws rest = [] /\
     json_loads s = Ok v) \/
  json_loads s = Raise JSONDecodeError.
Proof.
  unfold json_loads.
  destruct (scan_once (scan_fuel s) (skip_ws s)) as [v rest| |] eqn:E.
  - destruct (skip_ws rest) eqn:Er; [left|right]; eauto.
  - now right.
  - exfalso. revert E. apply (proj1 (scan_not_exhausted (scan_fuel s))).
    unfold scan_fuel. pose proof (skip_ws_length s). lia.
Qed.

Lemma json_loads_raises (s : pystr) (e : exn) :
  json_loads s = Raise e -> e = JSONDecodeError.
Proof.
  destruct (json_loads_cases s) as [(v & rest & _ & _ & H)|H]; rewrite H; congruence.
Qed.

Lemma json_loads_scanned (s : pystr) (v : json) :
  json_loads s = Ok v ->
  exists rest, scanned (skip_ws s) v rest /\ skip_ws rest = [].
Proof.
  intro H. destruct (json_loads_cases s) as [(v' & rest & Hs & Hr & H')|H'];
    rewrite H' in H; [|discriminate].
  injection H as <-. exists rest. split; [|assumption].
  now apply (proj1 (scan_once_scanned (scan_fuel s))).
Qed.

(** A text [json.loads] accepts is tidy. *)
Lemma json_loads_tidy (s : pystr) (v : json) : json_loads s = Ok v -> tidy s = true.
Proof.
  intro H. apply json_loads_scanned in H as (rest & Hs & Hr).
  apply (proj1 scanned_eats) in Hs.
  assert (Hall : skips s []).
  { eapply skips_trans; [apply skips_ws|].
    eapply skips_trans; [apply eats_skips; eassumption|].
    rewrite <- Hr. apply skips_ws. }
  destruct Hall as (pre & -> & Ht). now rewrite app_nil_r.
Qed.

Lemma tidy_tail c s : tidy (c :: s) = true -> tidy s = true.
Proof. simpl. intro H. now apply andb_prop in H. Qed.

(** A tidy text has no opening fence anywhere. *)
Lemma tidy_no_fence (s : pystr) : tidy s = true -> re_search_fence s = None.
Proof.
  induction s as [|c s IH]; intro Ht.
  - reflexivity.
  - cbn [re_search_fence]. rewrite (IH (tidy_tail _ _ Ht)).
    unfold match_fence.
    destruct (strip_prefix FENCE_OPEN (c :: s)) as [s1|] eqn:E; [|reflexivity].
    apply strip_prefix_app in E. rewrite E in Ht. simpl in Ht. discriminate.
Qed.

(** A text that holds a fenced block is not itself a JSON document. *)
Lemma fenced_text_is_not_json (s group1 : pystr) :
  re_search_fence s = Some group1 -> json_loads s = Raise JSONDecodeError.
Proof.
  intro H. destruct (json_loads s) as [v|e] eqn:E.
  - apply json_loads_tidy, tidy_no_fence in E. congruence.
  - now rewrite (json_loads_raises _ E).
Qed.

(* ================================================================== *)
(** ** SchemaGenerator.generate_schema *)

Lemma st_errors_app (a b : list event) : st_errors (a ++ b) = st_errors a ++ st_errors b.
Proof.
  induction a as [|e a IH]; simpl; [reflexivity|].
  destruct e; simpl; now rewrite ?IH.
Qed.

Lemma outbound_calls_app (a b : list event) :
  outbound_calls (a ++ b) = outbound_calls a ++ outbound_calls b.
Proof.
  induction a as [|e a IH]; simpl; [reflexivity|].
  destruct e; simpl; now rewrite ?IH.
Qed.

(** [extract_schema] raises nothing but JSONDecodeError. *)
Lemma extract_schema_raises (text : pystr) (e : exn) :
  extract_schema text = Raise e -> e = JSONDecodeError.
Proof. unfold extract_schema. apply json_loads_raises. Qed.

(** What [wait] adds to the trace: no page error, no outbound call. *)
Lemma wait_trace (rl : RateLimiter) (w : World) :
  exists r rl' w' during,
    wait rl w = (r, rl', w') /\
    trace w' = trace w ++ EvLockAcquire :: during ++ [EvLockRelease] /\
    st_errors during = [] /\ outbound_calls during = [].
Proof.
  unfold wait. cbv zeta.
  destruct (Z.of_nat _ >=? max_requests rl)%Z.
  - cbn [request_times set_request_times].
    destruct (popleft_stale _ _ _) as [|oldest rest].
    + do 3 eexists. exists []. split; [reflexivity|].
      simpl. rewrite <- app_assoc. auto.
    + destruct (Qgt_bool _ 0).
      * do 3 eexists. eexists [_; _]. split; [reflexivity|].
        simpl. rewrite <- !app_assoc. split; [reflexivity|]. split; reflexivity.
      * do 3 eexists. exists []. split; [reflexivity|].
        simpl. rewrite <- app_assoc. auto.
  - do 3 eexists. exists []. split; [reflexivity|].
    simpl. rewrite <- app_assoc. auto.
Qed.

(** The only exception [wait] can raise is the IndexError of line 45. *)
Lemma wait_raises (rl : RateLimiter) (w : World) (e : exn) (rl' : RateLimiter) (w' : World) :
  wait rl w = (Raise e, rl', w') -> e = IndexError.
Proof.
  unfold wait. cbv zeta.
  destruct (_ >=? _)%Z.
  - cbn [request_times set_request_times].
    destruct (popleft_stale _ _ _); intros [= <- _ _]; reflexivity.
  - intros [= ].
Qed.

(** The pattern of line 83 finds a block exactly in the texts that hold one,
    and what it finds is the interior of a block of the text. *)
Lemma strip_prefix_here (p rest : pystr) : strip_prefix p (p ++ rest) = Some rest.
Proof.
  induction p as [|x p IH]; simpl; [reflexivity|].
  now rewrite N.eqb_refl.
Qed.

Lemma lazy_until_app (closing s group rest : pystr) :
  lazy_until closing s = Some (group, rest) -> s = group ++ closing ++ rest.
Proof.
  revert group rest. induction s as [|c s IH]; intros group rest; cbn [lazy_until].
  - destruct (strip_prefix closing []) eqn:E; [|discriminate].
    intros [= <- <-]. now apply strip_prefix_app in E.
  - destruct (strip_prefix closing (c :: s)) eqn:E.
    + intros [= <- <-]. now apply strip_prefix_app in E.
    + destruct (lazy_until closing s) as [[g r]|]; [|discriminate].
      intros [= <- <-]. simpl. f_equal. now apply IH.
Qed.

Lemma lazy_until_finds (closing group rest : pystr) :
  exists group' rest', lazy_until closing (group ++ closing ++ rest) = Some (group', rest').
Proof.
  induction group as [|c group (g & r & IH)].
  - exists [], rest. simpl app.
    destruct (closing ++ rest) eqn:E; cbn [lazy_until]; rewrite <- E;
      now rewrite strip_prefix_here.
  - simpl app. cbn [lazy_until]. rewrite IH.
    destruct (strip_prefix closing _); eauto.
Qed.

Lemma re_search_fence_app (s group1 : pystr) :
  re_search_fence s = Some group1 ->
  exists before after, s = before ++ FENCE_OPEN ++ group1 ++ FENCE_CLOSE ++ after.
Proof.
  induction s as [|c s IH]; cbn [re_search_fence].
  - vm_compute. discriminate.
  - destruct (match_fence (c :: s)) as [g|] eqn:E.
    + intros [= ->]. unfold match_fence in E.
      destruct (strip_prefix FENCE_OPEN (c :: s)) as [s1|] eqn:E1; [|discriminate].
      destruct (lazy_until FENCE_CLOSE s1) as [[g r]|] eqn:E2; [|discriminate].
      injection E as ->.
      apply strip_prefix_app in E1. apply lazy_until_app in E2.
      exists [], r. now rewrite E1, E2.
    + intros H. destruct (IH H) as (b & a & ->). now exists (c :: b), a.
Qed.

Lemma re_search_fence_here (s group1 : pystr) :
  match_fence s = Some group1 -> re_search_fence s = Some group1.
Proof. intros H. destruct s; cbn [re_search_fence]; now rewrite H. Qed.

Lemma re_search_fence_finds (before group after : pystr) :
  exists group1,
    re_search_fence (before ++ FENCE_OPEN ++ group ++ FENCE_CLOSE ++ after) = Some group1.
Proof.
  induction before as [|c before (g & IH)].
  - rewrite app_nil_l.
    destruct (lazy_until_finds FENCE_CLOSE group after) as (g & r & E).
    exists g.
    apply re_search_fence_here.
    unfold match_fence. now rewrite strip_prefix_here, E.
  - rewrite <- app_comm_cons. cbn [re_search_fence]. rewrite IH.
    destruct (match_fence _); eauto.
Qed.

(** C4.  For every response text: when the pattern of line 83 finds a fenced
    block, which is then a block of the text, the document is what
    [json.loads] makes of its interior; when it finds none, the text holds no
    fenced block and the document is what [json.loads] makes of the whole
    text; and when extraction raises, it raises JSONDecodeError, the whole
    text is not a JSON document either, and neither is the interior of the
    block found.  The three examples of the specification come out as it
    says. *)
Theorem extract_schema_fence_then_raw :
  (forall text group1,
     re_search_fence text = Some group1 ->
     (exists before after,
        text = before ++ FENCE_OPEN ++ group1 ++ FENCE_CLOSE ++ after) /\
     extract_schema text = json_loads group1) /\
  (forall text,
     re_search_fence text = None ->
     (forall before group after,
        text <> before ++ FENCE_OPEN ++ group ++ FENCE_CLOSE ++ after) /\
     extract_schema text = json_loads text) /\
  (forall text e,
     extract_schema text = Raise e ->
     e = JSONDecodeError /\
     json_loads text = Raise JSONDecodeError /\
     (forall group1,
        re_search_fence text = Some group1 -> json_loads group1 = Raise JSONDecodeError)) /\
  extract_schema example_fenced_text = Ok example_document /\
  extract_schema example_raw_text = Ok example_document /\
  extract_schema (str "not json at all") = Raise JSONDecodeError.
Proof.
  split; [|split; [|split; [|split; [|split]]]].
  - intros text group1 H. split; [now apply re_search_fence_app|].
    unfold extract_schema. now rewrite H.
  - intros text H. split.
    + intros before group after ->.
      destruct (re_search_fence_finds before group after) as (g & Hg).
      congruence.
    + unfold extract_schema. now rewrite H.
  - intros text e H.
    pose proof (extract_schema_raises _ H) as ->.
    split; [reflexivity|].
    unfold extract_schema in H.
    destruct (re_search_fence text) as [g|] eqn:Ef.
    + split; [eapply fenced_text_is_not_json; eauto|].
      now intros group1 [= <-].
    + split; [assumption|discriminate].
  - vm_compute. reflexivity.
  - vm_compute. reflexivity.
  - vm_compute. reflexivity.
Qed.

(** C5, as the specification states it, fails on the code.  What
    [generate_schema] returns does not tell the result states apart: a
    refused prompt, a reply that is not JSON and a failing call all return
    [None], and so does the successful reply null, which shows no message
    either; no reading of the returned value gives the state.  Moreover a
    JSONDecodeError raised by the call of the service, an upstream error
    for the specification, is reported as "Could not parse", the message
    of a parse failure. *)
Lemma generate_schema_returns_no_typed_result :
  ~ returns_typed_result /\
  (fst (fst (generate_schema example_refusing_service (str "users") (mkWorld 0 []))) = JNone /\
   fst (fst (generate_schema (example_answering_service (str "not json at all"))
               (str "users") (mkWorld 0 []))) = JNone /\
   fst (fst (generate_schema (example_failing_service (OtherException (str "timeout")))
               (str "users") (mkWorld 0 []))) = JNone /\
   fst (fst (generate_schema (example_answering_service (str "null"))
               (str "users") (mkWorld 0 []))) = JNone /\
   st_errors (trace (snd (generate_schema (example_answering_service (str "null"))
                            (str "users") (mkWorld 0 [])))) = []) /\
  (spec_generate (example_failing_service JSONDecodeError) (str "users")
   = Err (UpstreamFailure JSONDecodeError) /\
   st_errors (trace (snd (generate_schema (example_failing_service JSONDecodeError)
                            (str "users") (mkWorld 0 [])))) = [CouldNotParse]).
Proof.
  split; [|split].
  - intros (read & H).
    pose proof (H example_refusing_service (str "users") (mkWorld 0 []) eq_refl) as H1.
    pose proof (H (example_answering_service (str "not json at all")) (str "users")
                  (mkWorld 0 []) eq_refl) as H2.
    vm_compute in H1. vm_compute in H2. congruence.
  - repeat split; vm_compute; reflexivity.
  - split; vm_compute; reflexivity.
Qed.

(** C5, amended.  [generate_schema] returns for every prompt, limiter state
    and behaviour of the service, and what happened is told by the one
    [st.error] it shows, chosen by the type of the exception caught: the
    document is returned, with no message, when the reply (or its first
    fenced block) is read as JSON; [None] is returned after "Prompt
    blocked" when the service raised BlockedPromptException; after "Could
    not parse" when a JSONDecodeError was raised inside the [try], by
    [json.loads] or by the call of the service; after "Error generating
    schema", with the text of the exception, for every other exception,
    that of the limiter included.  Every exception raised inside the [try]
    is caught by one of the three handlers. *)
Theorem generate_schema_reports_by_message (sg : SchemaGenerator) (prompt : pystr) (w : World) :
  (exists returned sg' new,
    generate_schema sg prompt w =
      (returned, sg', mkWorld (clock (snd (wait (rate_limiter sg) w))) (trace w ++ new)) /\
    ((* no message: the document *)
     (st_errors new = [] /\
      exists text, model sg (generation_prompt prompt) = ReplyText text /\
                   extract_schema text = Ok returned) \/
     (* except BlockedPromptException *)
     (returned = JNone /\
      exists e, st_errors new = [PromptBlocked e] /\
                model sg (generation_prompt prompt) = ReplyRaises (BlockedPromptException e)) \/
     (* except json.JSONDecodeError *)
     (returned = JNone /\ st_errors new = [CouldNotParse] /\
      ((exists text, model sg (generation_prompt prompt) = ReplyText text /\
                     extract_schema text = Raise JSONDecodeError) \/
       model sg (generation_prompt prompt) = ReplyRaises JSONDecodeError)) \/
     (* except Exception *)
     (returned = JNone /\
      exists e, st_errors new = [ErrorGenerating e] /\
                (forall b, e <> BlockedPromptException b) /\ e <> JSONDecodeError /\
                (fst (fst (wait (rate_limiter sg) w)) = Raise e \/
                 model sg (generation_prompt prompt) = ReplyRaises e)))) /\
  (forall e sg1 w1,
     generate_schema_try sg prompt w = (Raise e, sg1, w1) ->
     exists m, generate_schema sg prompt w = (JNone, sg1, emit (EvStError m) w1)).
Proof.
  split.
  {
    unfold generate_schema, generate_schema_try.
    destruct (wait_trace (rate_limiter sg) w) as (r & rl' & w' & during & Hw & Ht & He & _).
    rewrite Hw. cbn [fst snd].
    assert (Hd : st_errors (EvLockAcquire :: during ++ [EvLockRelease]) = []).
    { simpl. rewrite st_errors_app, He. reflexivity. }
    destruct r as [[]|e].
    - destruct (model sg (generation_prompt prompt)) as [text|e] eqn:Em.
      + destruct (extract_schema text) as [schema|e] eqn:Ex.
        * do 2 eexists. exists (EvLockAcquire :: during ++ [EvLockRelease; EvGenerateContent (generation_prompt prompt)]).
          split.
          { unfold emit. simpl. rewrite Ht, <- app_assoc. simpl.
            rewrite <- app_assoc. reflexivity. }
          left. split; [|eauto].
          simpl. rewrite st_errors_app, He. reflexivity.
        * pose proof (extract_schema_raises _ Ex) as ->.
          do 2 eexists.
          exists (EvLockAcquire :: during
                  ++ [EvLockRelease; EvGenerateContent (generation_prompt prompt);
                      EvStError CouldNotParse]).
          split.
          { unfold emit. simpl. rewrite Ht, <- !app_assoc. simpl.
            rewrite <- app_assoc. reflexivity. }
          right. right. left. split; [reflexivity|]. split; [|eauto].
          simpl. rewrite st_errors_app, He. reflexivity.
      + assert (Hnew : forall m,
          st_errors (EvLockAcquire :: during
                     ++ [EvLockRelease; EvGenerateContent (generation_prompt prompt);
                         EvStError m]) = [m]).
        { intro m. simpl. rewrite st_errors_app, He. reflexivity. }
        assert (Htr : forall m,
          trace (emit (EvStError m) (emit (EvGenerateContent (generation_prompt prompt)) w'))
          = trace w ++ EvLockAcquire :: during
                  ++ [EvLockRelease; EvGenerateContent (generation_prompt prompt);
                      EvStError m]).
        { intro m. unfold emit. simpl. rewrite Ht, <- !app_assoc. simpl.
          rewrite <- app_assoc. reflexivity. }
        destruct e as [|b| | | |o];
          do 2 eexists; eexists (EvLockAcquire :: during ++ [_; _; EvStError _]);
          (split; [unfold emit at 1; cbn [clock trace]; rewrite <- Htr; reflexivity|]).
        * right. right. right. split; [reflexivity|]. eexists. split; [apply Hnew|].
          repeat split; try discriminate. now right.
        * right. left. split; [reflexivity|]. eexists. split; [apply Hnew|reflexivity].
        * right. right. left. split; [reflexivity|]. split; [apply Hnew|]. now right.
        * right. right. right. split; [reflexivity|]. eexists. split; [apply Hnew|].
          repeat split; try discriminate. now right.
        * right. right. right. split; [reflexivity|]. eexists. split; [apply Hnew|].
          repeat split; try discriminate. now right.
        * right. right. right. split; [reflexivity|]. eexists. split; [apply Hnew|].
          repeat split; try discriminate. now right.
    - pose proof (wait_raises _ _ Hw) as ->.
      do 2 eexists. exists (EvLockAcquire :: during ++ [EvLockRelease; EvStError (ErrorGenerating IndexError)]).
      split.
      { unfold emit. simpl. rewrite Ht, <- app_assoc. simpl.
        rewrite <- app_assoc. reflexivity. }
      right. right. right. split; [reflexivity|]. eexists.
      split; [simpl; rewrite st_errors_app, He; reflexivity|].
      repeat split; try discriminate. now left.
  }
  intros e sg1 w1 H. unfold generate_schema. rewrite H.
  destruct e; eexists; reflexivity.
Qed.

(** C10.  Every call of [generate_schema] on a limiter with a positive
    [max_requests] leaves exactly one more timestamp in the deque than the
    eviction loop kept, and that timestamp is the time read at entry to
    [wait], whatever was slept in between; the lock section in which it is
    appended is closed before the one outbound call is made, and this holds
    whatever the service then answers, so a call that ends in a failure has
    used its slot as well. *)
Theorem generate_schema_records_entry_time (sg : SchemaGenerator) (prompt : pystr) (w : World) :
  (0 < max_requests (rate_limiter sg))%Z ->
  exists returned sg' w' during after,
    generate_schema sg prompt w = (returned, sg', w') /\
    request_times (rate_limiter sg') =
      popleft_stale (clock w) (time_frame (rate_limiter sg))
        (request_times (rate_limiter sg)) ++ [clock w] /\
    trace w' =
      trace w ++ EvLockAcquire :: during
      ++ EvLockRelease :: EvGenerateContent (generation_prompt prompt) :: after /\
    outbound_calls during = [] /\
    outbound_calls after = [].
Proof.
  intro Hmax.
  destruct (wait_records_entry_time (rate_limiter sg) w Hmax) as (w1 & Hw & _).
  destruct (wait_trace (rate_limiter sg) w) as (r & rl' & w1' & during & Hw' & Ht & _ & Ho).
  rewrite Hw in Hw'. injection Hw' as <- <- <-.
  unfold generate_schema, generate_schema_try. rewrite Hw.
  assert (Htr : forall extra,
    trace w ++ (EvLockAcquire :: during ++ [EvLockRelease])
    ++ EvGenerateContent (generation_prompt prompt) :: extra
    = trace w ++ EvLockAcquire :: during
      ++ EvLockRelease :: EvGenerateContent (generation_prompt prompt) :: extra).
  { intro extra. simpl. now rewrite <- app_assoc. }
  destruct (model sg (generation_prompt prompt)) as [text|e].
  - destruct (extract_schema text) as [schema|e].
    + do 3 eexists. exists during, []. split; [reflexivity|].
      split; [reflexivity|]. split; [|auto].
      unfold emit. cbn [trace]. rewrite Ht, <- Htr, <- !app_assoc. reflexivity.
    + destruct e; do 3 eexists; exists during; eexists [_];
        (split; [reflexivity|]); (split; [reflexivity|]);
        (split; [unfold emit; cbn [trace]; rewrite Ht, <- Htr, <- !app_assoc; reflexivity
                |auto]).
  - destruct e; do 3 eexists; exists during; eexists [_];
      (split; [reflexivity|]); (split; [reflexivity|]);
      (split; [unfold emit; cbn [trace]; rewrite Ht, <- Htr, <- !app_assoc; reflexivity
              |auto]).
Qed.

Lemma generate_schema_records_entry_time_witness :
  exists returned sg' w' during after,
    generate_schema
      (mkSchemaGenerator (fun _ => ReplyRaises (OtherException (str "503")))
         (mkRateLimiter 1 60 [0]))
      (str "a user table") (mkWorld 10 []) = (returned, sg', w') /\
    request_times (rate_limiter sg') = [0] ++ [10] /\
    trace w' =
      [] ++ EvLockAcquire :: during
      ++ EvLockRelease :: EvGenerateContent (generation_prompt (str "a user table")) :: after /\
    outbound_calls during = [] /\
    outbound_calls after = [].
Proof.
  apply (generate_schema_records_entry_time
           (mkSchemaGenerator (fun _ => ReplyRaises (OtherException (str "503")))
              (mkRateLimiter 1 60 [0]))
           (str "a user table") (mkWorld 10 [])).
  vm_compute. reflexivity.
Defined.

(** C9.  When the [try] of [generate_schema] ends in an exception (a blocked
    prompt, a JSONDecodeError or any other), the button handler of [run]
    leaves the store as it was: no row is inserted and no identifier is
    drawn. *)
Theorem failed_generation_inserts_nothing (sg : SchemaGenerator) (prompt : pystr)
  (st : Store) (w : World) (e : exn) (sg' : SchemaGenerator) (w' : World) :
  generate_schema_try sg prompt w = (Raise e, sg', w') ->
  fst (fst (generate_schema sg prompt w)) = JNone /\
  exists sg'' w'', run_generate sg prompt st w = (sg'', st, w'').
Proof.
  intro H.
  assert (Hg : exists w'', generate_schema sg prompt w = (JNone, sg', w'')).
  { unfold generate_schema. rewrite H. destruct e; eexists; reflexivity. }
  destruct Hg as (w'' & Hg). rewrite Hg. split; [reflexivity|].
  unfold run_generate. destruct prompt as [|c prompt].
  - do 2 eexists. reflexivity.
  - rewrite Hg. cbn [truthy]. do 2 eexists. reflexivity.
Qed.

Lemma failed_generation_inserts_nothing_witness :
  fst (fst (generate_schema
              (SchemaGenerator_init (fun _ => ReplyRaises (BlockedPromptException (str "safety"))))
              (str "a user table") (mkWorld 0 []))) = JNone /\
  exists sg'' w'',
    run_generate
      (SchemaGenerator_init (fun _ => ReplyRaises (BlockedPromptException (str "safety"))))
      (str "a user table") (mkStore [] (fun _ => str "id") 0) (mkWorld 0 [])
    = (sg'', mkStore [] (fun _ => str "id") 0, w'').
Proof.
  eapply (failed_generation_inserts_nothing
            (SchemaGenerator_init (fun _ => ReplyRaises (BlockedPromptException (str "safety"))))
            (str "a user table") (mkStore [] (fun _ => str "id") 0) (mkWorld 0 [])).
  vm_compute. reflexivity.
Defined.

(* ================================================================== *)
(** ** json.loads after json.dumps *)

Unset Implicit Arguments.

Lemma hexval_hexdigit (n : N) : (n < 16)%N -> hexval (hexdigit n) = Some n.
Proof.
  intro H. unfold hexval, hexdigit, is_digit.
  destruct (N.ltb_spec n 10).
  - replace ((48 <=? 48 + n) && (48 + n <=? 57))%N with true.
    + f_equal. lia.
    + symmetry. apply andb_true_iff. split; apply N.leb_le; lia.
  - replace ((48 <=? 87 + n) && (87 + n <=? 57))%N with false.
    + replace ((97 <=? 87 + n) && (87 + n <=? 102))%N with true.
      * f_equal. lia.
      * symmetry. apply andb_true_iff. split; apply N.leb_le; lia.
    + symmetry. apply andb_false_iff. right. apply N.leb_gt. lia.
Qed.

Lemma div_mod_by (k x : N) : (k <> 0 -> (x / k) * k + x mod k = x)%N.
Proof. intro Hk. rewrite N.mul_comm. symmetry. now apply N.div_mod. Qed.

Lemma hex4_value (c : N) :
  ((((c / 4096) * 16 + (c / 256) mod 16) * 16 + (c / 16) mod 16) * 16 + c mod 16 = c)%N.
Proof.
  replace (c / 4096)%N with (c / 256 / 16)%N by (rewrite N.Div0.div_div; reflexivity).
  rewrite div_mod_by by discriminate.
  replace (c / 256)%N with (c / 16 / 16)%N by (rewrite N.Div0.div_div; reflexivity).
  rewrite div_mod_by by discriminate.
  apply div_mod_by. discriminate.
Qed.

Lemma decode_uXXXX_hex (c : N) :
  (c < 65536)%N ->
  decode_uXXXX (hexdigit (c / 4096)) (hexdigit ((c / 256) mod 16))
    (hexdigit ((c / 16) mod 16)) (hexdigit (c mod 16)) = Some c.
Proof.
  intro H. unfold decode_uXXXX.
  rewrite !hexval_hexdigit.
  - f_equal. apply hex4_value.
  - apply N.mod_lt. discriminate.
  - apply N.mod_lt. discriminate.
  - apply N.mod_lt. discriminate.
  - apply N.Div0.div_lt_upper_bound. exact H.
Qed.

Lemma hexdigit_not_special (n : N) :
  (n < 16)%N -> hexdigit n <> 34%N /\ hexdigit n <> 92%N /\ (32 <= hexdigit n)%N.
Proof. unfold hexdigit. destruct (N.ltb_spec n 10); lia. Qed.

(** *** scanstring after encode_basestring_ascii *)


Lemma scanstring_escape_plain (h1 h2 h3 h4 uni : N) (s3 : pystr) :
  decode_uXXXX h1 h2 h3 h4 = Some uni ->
  is_high_surrogate uni = false \/ no_low_escape s3 ->
  scanstring (92%N :: 117%N :: h1 :: h2 :: h3 :: h4 :: s3) = option_cons uni (scanstring s3).
Proof.
  intros Hd Hc. cbn [scanstring]. simpl (92 =? 34)%N. simpl (92 =? 92)%N.
  simpl (117 =? 117)%N. cbv iota. rewrite Hd.
  destruct Hc as [Hh|Hn].
  - rewrite Hh. simpl. destruct s3 as [|b [|u [|l1 [|l2 [|l3 [|l4 s5]]]]]]; reflexivity.
  - destruct s3 as [|b s3']; [reflexivity|].
    destruct s3' as [|u t]; [reflexivity|].
    destruct ((b =? 92)%N && (u =? 117)%N) eqn:E.
    + apply andb_prop in E as [Eb Eu]. apply N.eqb_eq in Eb, Eu. subst b u.
      destruct (Hn t eq_refl) as (l1 & l2 & l3 & l4 & s5 & uni2 & -> & Hd2 & Hl).
      rewrite Hd2, Hl.
      destruct (is_high_surrogate uni && (92 =? 92)%N && (117 =? 117)%N); reflexivity.
    + replace (is_high_surrogate uni && (b =? 92)%N && (u =? 117)%N) with false
        by (rewrite <- andb_assoc, E; now rewrite andb_false_r).
      destruct t as [|l1 [|l2 [|l3 [|l4 s5]]]]; reflexivity.
Qed.

Lemma scanstring_escape_pair (h1 h2 h3 h4 l1 l2 l3 l4 uni uni2 : N) (s5 : pystr) :
  decode_uXXXX h1 h2 h3 h4 = Some uni ->
  is_high_surrogate uni = true ->
  decode_uXXXX l1 l2 l3 l4 = Some uni2 ->
  is_low_surrogate uni2 = true ->
  scanstring (92%N :: 117%N :: h1 :: h2 :: h3 :: h4
              :: 92%N :: 117%N :: l1 :: l2 :: l3 :: l4 :: s5)
  = option_cons (65536 + ((uni - 55296) * 1024 + (uni2 - 56320)))%N (scanstring s5).
Proof.
  intros Hd Hh Hd2 Hl. cbn [scanstring]. simpl (92 =? 34)%N. simpl (92 =? 92)%N.
  simpl (117 =? 117)%N. cbv iota. rewrite Hd, Hh, Hd2, Hl. reflexivity.
Qed.

Lemma scanstring_short_escape (esc ch : N) (s2 : pystr) :
  esc <> 117%N -> backslash esc = Some ch ->
  scanstring (92%N :: esc :: s2) = option_cons ch (scanstring s2).
Proof.
  intros Hu Hb. cbn [scanstring]. simpl (92 =? 34)%N. simpl (92 =? 92)%N. cbv iota.
  apply N.eqb_neq in Hu. rewrite Hu, Hb. reflexivity.
Qed.

Lemma scanstring_plain_char (c : N) (s1 : pystr) :
  c <> 34%N -> c <> 92%N -> (32 <= c)%N ->
  scanstring (c :: s1) = option_cons c (scanstring s1).
Proof.
  intros H1 H2 H3. cbn [scanstring].
  apply N.eqb_neq in H1, H2. rewrite H1, H2.
  apply N.ltb_ge in H3. rewrite H3. reflexivity.
Qed.


Lemma escape_ascii_shape (c : N) : (c < 1114112)%N -> escape_shape c (escape_ascii c).
Proof.
  intro Hc. unfold escape_ascii.
  destruct (N.eqb_spec c 92); [subst; now apply shape_short|].
  destruct (N.eqb_spec c 34); [subst; now apply shape_short|].
  destruct (N.eqb_spec c 8); [subst; now apply shape_short|].
  destruct (N.eqb_spec c 12); [subst; now apply shape_short|].
  destruct (N.eqb_spec c 10); [subst; now apply shape_short|].
  destruct (N.eqb_spec c 13); [subst; now apply shape_short|].
  destruct (N.eqb_spec c 9); [subst; now apply shape_short|].
  destruct ((32 <=? c) && (c <=? 126))%N eqn:Ep.
  { apply andb_prop in Ep as [Hlo Hhi]. apply N.leb_le in Hlo, Hhi. now apply shape_plain. }
  destruct (N.ltb_spec c 65536) as [Hs|Hs]; [now apply shape_unicode|].
  cbv zeta.
  assert (Hq : ((c - 65536) / 1024 < 1024)%N).
  { apply N.Div0.div_lt_upper_bound. lia. }
  assert (Hr : ((c - 65536) mod 1024 < 1024)%N) by (apply N.mod_lt; discriminate).
  rewrite (N.mod_small _ _ Hq).
  pose proof (div_mod_by 1024 (c - 65536)) as Hdm.
  revert Hdm Hq Hr.
  generalize ((c - 65536) / 1024)%N ((c - 65536) mod 1024)%N.
  intros q r Hdm Hq Hr. specialize (Hdm ltac:(discriminate)).
  apply shape_pair.
  - unfold is_high_surrogate. apply andb_true_iff. split; apply N.leb_le; lia.
  - unfold is_low_surrogate. apply andb_true_iff. split; apply N.leb_le; lia.
  - lia.
  - lia.
  - lia.
Qed.

Lemma high_not_low (c : N) : is_high_surrogate c = true -> is_low_surrogate c = false.
Proof.
  unfold is_high_surrogate, is_low_surrogate. intro H.
  apply andb_prop in H as [_ H]. apply N.leb_le in H.
  apply andb_false_iff. left. apply N.leb_gt. lia.
Qed.

Lemma no_low_escape_encoded (s : pystr) (rest : pystr) :
  match s with
  | d :: _ => (d <? 1114112)%N = true /\ is_low_surrogate d = false
  | [] => True
  end ->
  no_low_escape (flat_map escape_ascii s ++ 34%N :: rest).
Proof.
  destruct s as [|d s]; intros H t Ht.
  - discriminate.
  - destruct H as [Hd Hl]. apply N.ltb_lt in Hd.
    cbn [flat_map] in Ht. rewrite <- app_assoc in Ht.
    destruct (escape_ascii_shape d Hd) as [esc Hu Hb|H1 H2 H3 H4|Hs|hi lo Hhi Hlo Hh Hlt Hc].
    + injection Ht as Hesc _. congruence.
    + injection Ht as Hesc _. congruence.
    + unfold uXXXX in Ht. injection Ht as <-.
      do 6 eexists. split; [reflexivity|]. split; [now apply decode_uXXXX_hex|exact Hl].
    + unfold uXXXX in Ht. simpl in Ht. injection Ht as <-.
      do 6 eexists. split; [reflexivity|].
      split; [now apply decode_uXXXX_hex|now apply high_not_low].
Qed.

Lemma wf_pystr_cons (c : N) (s : pystr) :
  wf_pystr (c :: s) = true ->
  (c < 1114112)%N /\ wf_pystr s = true /\
  (is_high_surrogate c = true ->
   match s with
   | d :: _ => (d <? 1114112)%N = true /\ is_low_surrogate d = false
   | [] => True
   end).
Proof.
  cbn [wf_pystr]. intro H.
  apply andb_prop in H as [H Hs]. apply andb_prop in H as [Hc Hp].
  apply N.ltb_lt in Hc. split; [assumption|]. split; [assumption|].
  intro Hh. rewrite Hh in Hp. simpl in Hp.
  destruct s as [|d s']; [exact I|].
  cbn [wf_pystr] in Hs. apply andb_prop in Hs as [Hs _]. apply andb_prop in Hs as [Hd _].
  split; [assumption|]. now apply negb_true_iff in Hp.
Qed.

(** [scanstring] reads back what [encode_basestring_ascii] wrote. *)
Lemma scanstring_encoded (s : pystr) (rest : pystr) :
  wf_pystr s = true ->
  scanstring (flat_map escape_ascii s ++ 34%N :: rest) = Some (s, rest).
Proof.
  induction s as [|c s IH]; intro Hwf.
  - reflexivity.
  - apply wf_pystr_cons in Hwf as (Hc & Hs & Hnext).
    cbn [flat_map]. rewrite <- app_assoc.
    destruct (escape_ascii_shape c Hc) as [esc Hu Hb|H1 H2 H3 H4|Hlt|hi lo Hhi Hlo Hh Hlt Hval].
    + cbn [app]. rewrite (scanstring_short_escape esc c _ Hu Hb), (IH Hs). reflexivity.
    + cbn [app]. rewrite (scanstring_plain_char c _ H1 H2 H3), (IH Hs). reflexivity.
    + unfold uXXXX. cbn [app].
      rewrite (scanstring_escape_plain _ _ _ _ c).
      * rewrite (IH Hs). reflexivity.
      * now apply decode_uXXXX_hex.
      * destruct (is_high_surrogate c) eqn:Eh; [right|now left].
        apply no_low_escape_encoded. now apply Hnext.
    + unfold uXXXX. cbn [app].
      rewrite (scanstring_escape_pair _ _ _ _ _ _ _ _ hi lo);
        try (now apply decode_uXXXX_hex); try assumption.
      rewrite Hval, (IH Hs). reflexivity.
Qed.

(** *** Numbers *)

Lemma uint_of_digits_of_uint (u : Decimal.uint) : uint_of_digits (digits_of_uint u) = u.
Proof. induction u; simpl; congruence. Qed.

Lemma digits_of_uint_digits (u : Decimal.uint) :
  Forall (fun c => is_digit c = true) (digits_of_uint u).
Proof. induction u; simpl; constructor; auto. Qed.

Lemma nzhead_head (d d' : Decimal.uint) : Decimal.nzhead d <> Decimal.D0 d'.
Proof. induction d; simpl; try discriminate. assumption. Qed.

Lemma to_uint_head (p : positive) (d' : Decimal.uint) : Pos.to_uint p <> Decimal.D0 d'.
Proof.
  intro H.
  pose proof (DecimalPos.Unsigned.to_of (Pos.to_uint p)) as Hn.
  rewrite DecimalPos.Unsigned.of_to in Hn. simpl in Hn.
  rewrite H in Hn. unfold Decimal.unorm in Hn. simpl in Hn.
  destruct (Decimal.nzhead d') eqn:E.
  - injection Hn as Hd. subst d'.
    apply (DecimalPos.Unsigned.to_uint_nonzero p). exact H.
  - eapply nzhead_head. exact E.
  - discriminate.
  - discriminate.
  - discriminate.
  - discriminate.
  - discriminate.
  - discriminate.
  - discriminate.
  - discriminate.
  - discriminate.
Qed.


Lemma span_digits_app (s rest ds r : pystr) :
  span_digits s = (ds, r) -> nondigit_head rest ->
  span_digits (s ++ rest) = (ds, r ++ rest).
Proof.
  revert ds r. induction s as [|c s IH]; intros ds r H Hrest.
  - injection H as <- <-. simpl. destruct rest as [|c rest]; [reflexivity|].
    simpl in *. now rewrite Hrest.
  - simpl in *. destruct (is_digit c).
    + destruct (span_digits s) as [ds' r'] eqn:E. injection H as <- <-.
      now rewrite (IH _ _ eq_refl Hrest).
    + injection H as <- <-. reflexivity.
Qed.

Lemma span_digits_all (ds : pystr) :
  Forall (fun c => is_digit c = true) ds -> span_digits ds = (ds, []).
Proof.
  induction 1 as [|c ds Hc _ IH]; simpl; [reflexivity|].
  now rewrite Hc, IH.
Qed.

Lemma delimited_nondigit (rest : pystr) : delimited rest -> nondigit_head rest.
Proof.
  destruct rest as [|c rest]; simpl; [auto|].
  intros [H|[-> | [-> | ->]]]; try reflexivity.
  unfold is_ws in H. unfold is_digit.
  destruct (N.eqb_spec c 32); [subst; reflexivity|].
  destruct (N.eqb_spec c 9); [subst; reflexivity|].
  destruct (N.eqb_spec c 10); [subst; reflexivity|].
  destruct (N.eqb_spec c 13); [subst; reflexivity|].
  discriminate.
Qed.

Lemma delimited_head (rest : pystr) :
  delimited rest ->
  match rest with
  | [] => True
  | c :: _ => is_digit c = false /\ (c =? 46)%N = false /\
              ((c =? 101) || (c =? 69))%N = false
  end.
Proof.
  destruct rest as [|c rest]; simpl; [auto|].
  intros [H|[-> | [-> | ->]]]; try (repeat split; reflexivity).
  unfold is_ws in H. unfold is_digit.
  destruct (N.eqb_spec c 32); [subst; repeat split; reflexivity|].
  destruct (N.eqb_spec c 9); [subst; repeat split; reflexivity|].
  destruct (N.eqb_spec c 10); [subst; repeat split; reflexivity|].
  destruct (N.eqb_spec c 13); [subst; repeat split; reflexivity|].
  discriminate.
Qed.

Lemma match_integer_app (s rest integer r : pystr) :
  match_integer s = Some (integer, r) -> nondigit_head rest ->
  match_integer (s ++ rest) = Some (integer, r ++ rest).
Proof.
  unfold match_integer. intros H Hrest.
  assert (Hgen : forall sign s1,
    match s1 with
    | [] => None
    | c :: s2 =>
        if (c =? 48)%N then Some (sign ++ [c], s2)
        else if is_digit c then let (ds, r) := span_digits s2 in Some (sign ++ c :: ds, r)
        else None
    end = Some (integer, r) ->
    match s1 ++ rest with
    | [] => None
    | c :: s2 =>
        if (c =? 48)%N then Some (sign ++ [c], s2)
        else if is_digit c then let (ds, r) := span_digits s2 in Some (sign ++ c :: ds, r)
        else None
    end = Some (integer, r ++ rest)).
  { intros sign s1 H1. destruct s1 as [|c s2]; [discriminate|]. cbn [app].
    destruct (c =? 48)%N; [now injection H1 as <- <-|].
    destruct (is_digit c); [|discriminate].
    destruct (span_digits s2) as [ds r'] eqn:E. injection H1 as <- <-.
    now rewrite (span_digits_app _ _ _ _ E Hrest). }
  destruct s as [|c s'].
  - discriminate.
  - cbn [app]. destruct (c =? 45)%N.
    + now apply Hgen.
    + now apply (Hgen [] (c :: s')).
Qed.

Lemma match_frac_app (s rest frac r : pystr) :
  match_frac s = (frac, r) -> delimited rest ->
  match_frac (s ++ rest) = (frac, r ++ rest).
Proof.
  unfold match_frac. intros H Hrest.
  pose proof (delimited_head _ Hrest) as Hh.
  pose proof (delimited_nondigit _ Hrest) as Hn.
  destruct s as [|c s1].
  - injection H as <- <-. simpl. destruct rest as [|d rest]; [reflexivity|].
    destruct Hh as (_ & Hd & _). now rewrite Hd.
  - cbn [app]. destruct (c =? 46)%N; [|now injection H as <- <-].
    destruct (span_digits s1) as [ds r'] eqn:E.
    rewrite (span_digits_app _ _ _ _ E Hn).
    destruct ds; now injection H as <- <-.
Qed.

Lemma match_exp_app (s rest exp r : pystr) :
  match_exp s = (exp, r) -> delimited rest ->
  match_exp (s ++ rest) = (exp, r ++ rest).
Proof.
  unfold match_exp. intros H Hrest.
  pose proof (delimited_head _ Hrest) as Hh.
  pose proof (delimited_nondigit _ Hrest) as Hn.
  destruct s as [|c s1].
  - injection H as <- <-. simpl. destruct rest as [|d rest]; [reflexivity|].
    destruct Hh as (_ & _ & Hd). now rewrite Hd.
  - cbn [app]. destruct ((c =? 101) || (c =? 69))%N; [|now injection H as <- <-].
    destruct s1 as [|d s1'].
    + cbn [app]. simpl in H. injection H as <- <-.
      destruct rest as [|x rest]; [reflexivity|].
      destruct Hh as (Hx & _ & _).
      assert (Hsign : ((x =? 45) || (x =? 43))%N = false).
      { simpl in Hrest. unfold is_ws in Hrest.
        destruct Hrest as [Hw|[-> | [-> | ->]]]; try reflexivity.
        destruct (N.eqb_spec x 32); [subst; reflexivity|].
        destruct (N.eqb_spec x 9); [subst; reflexivity|].
        destruct (N.eqb_spec x 10); [subst; reflexivity|].
        destruct (N.eqb_spec x 13); [subst; reflexivity|].
        discriminate. }
      rewrite Hsign. simpl. now rewrite Hx.
    + cbn [app]. destruct ((d =? 45) || (d =? 43))%N.
      * destruct (span_digits s1') as [ds r'] eqn:E.
        rewrite (span_digits_app _ _ _ _ E Hn).
        destruct ds; now injection H as <- <-.
      * destruct (span_digits (d :: s1')) as [ds r'] eqn:E.
        change (d :: s1' ++ rest) with ((d :: s1') ++ rest).
        rewrite (span_digits_app _ _ _ _ E Hn).
        destruct ds; now injection H as <- <-.
Qed.

(** The head of a text [match_integer] accepts. *)
Lemma match_integer_head (s integer r : pystr) :
  match_integer s = Some (integer, r) ->
  exists c s1, s = c :: s1 /\ (c = 45%N \/ is_digit c = true).
Proof.
  unfold match_integer. destruct s as [|c s1]; [discriminate|].
  intro H. exists c, s1. split; [reflexivity|].
  destruct (N.eqb_spec c 45); [now left|right].
  destruct (c =? 48)%N eqn:E0; [apply N.eqb_eq in E0; now subst|].
  destruct (is_digit c); [reflexivity|discriminate].
Qed.

(** [_scan_once] on a text that starts with a number. *)
Lemma scan_once_number (fuel : nat) (s integer r1 frac r2 exp r3 : pystr) :
  match_integer s = Some (integer, r1) ->
  match_frac r1 = (frac, r2) ->
  match_exp r2 = (exp, r3) ->
  scan_once (S fuel) s =
  match frac, exp with
  | [], [] => Parsed (JInt (py_int integer)) r3
  | _, _ => Parsed (JFloat (integer ++ frac ++ exp)) r3
  end.
Proof.
  intros Hi Hf He.
  destruct (match_integer_head _ _ _ Hi) as (c & s1 & -> & Hc).
  cbn [scan_once]. rewrite Hi, Hf, He.
  assert (Hne : (c =? 34)%N = false /\ (c =? 123)%N = false /\ (c =? 91)%N = false /\
                (110 =? c)%N = false /\ (116 =? c)%N = false /\ (102 =? c)%N = false).
  { destruct Hc as [->|Hd]; [repeat split; reflexivity|].
    unfold is_digit in Hd. apply andb_prop in Hd as [H1 H2].
    apply N.leb_le in H1, H2. repeat split; apply N.eqb_neq; lia. }
  destruct Hne as (E1 & E2 & E3 & E4 & E5 & E6).
  rewrite E1, E2, E3.
  change (strip_prefix (str "null") (c :: s1)) with
    (if (110 =? c)%N then strip_prefix [117; 108; 108]%N s1 else None).
  change (strip_prefix (str "true") (c :: s1)) with
    (if (116 =? c)%N then strip_prefix [114; 117; 101]%N s1 else None).
  change (strip_prefix (str "false") (c :: s1)) with
    (if (102 =? c)%N then strip_prefix [97; 108; 115; 101]%N s1 else None).
  rewrite E4, E5, E6. destruct frac, exp; reflexivity.
Qed.

Lemma py_int_repr (n : Z) : py_int (int_repr n) = n.
Proof.
  destruct n as [|p|p]; [reflexivity| |].
  - unfold int_repr, py_int.
    pose proof (digits_of_uint_digits (Pos.to_uint p)) as Hd.
    destruct (digits_of_uint (Pos.to_uint p)) as [|c ds] eqn:E.
    + exfalso. apply (DecimalPos.Unsigned.to_uint_nonnil p).
      rewrite <- (uint_of_digits_of_uint (Pos.to_uint p)), E. reflexivity.
    + inversion Hd as [|? ? Hc _]; subst.
      replace (c =? 45)%N with false by (symmetry; apply N.eqb_neq; intros ->; discriminate).
      rewrite <- E, uint_of_digits_of_uint.
      change (N.of_uint (Pos.to_uint p)) with (Pos.of_uint (Pos.to_uint p)).
      now rewrite DecimalPos.Unsigned.of_to.
  - unfold int_repr, py_int. simpl (45 =? 45)%N. cbv iota.
    rewrite uint_of_digits_of_uint.
    change (N.of_uint (Pos.to_uint p)) with (Pos.of_uint (Pos.to_uint p)).
    now rewrite DecimalPos.Unsigned.of_to.
Qed.

Lemma match_integer_pos (p : positive) :
  match_integer (digits_of_uint (Pos.to_uint p)) = Some (digits_of_uint (Pos.to_uint p), []).
Proof.
  pose proof (to_uint_head p) as Hh.
  pose proof (DecimalPos.Unsigned.to_uint_nonnil p) as Hn.
  unfold match_integer.
  destruct (Pos.to_uint p) as [|u|u|u|u|u|u|u|u|u|u]; try congruence;
    try (exfalso; eapply Hh; reflexivity);
    cbn [digits_of_uint]; simpl;
    rewrite (span_digits_all _ (digits_of_uint_digits u)); reflexivity.
Qed.

Lemma match_integer_repr (n : Z) : match_integer (int_repr n) = Some (int_repr n, []).
Proof.
  destruct n as [|p|p]; [reflexivity|apply match_integer_pos|].
  unfold int_repr. pose proof (match_integer_pos p) as H.
  unfold match_integer in *. simpl (45 =? 45)%N. cbv iota.
  pose proof (digits_of_uint_digits (Pos.to_uint p)) as Hd.
  destruct (digits_of_uint (Pos.to_uint p)) as [|c ds]; [discriminate|].
  inversion Hd as [|? ? Hc _]; subst.
  replace (c =? 45)%N with false in H
    by (symmetry; apply N.eqb_neq; intros ->; discriminate).
  destruct (c =? 48)%N.
  { simpl in *. injection H as H1 H2. rewrite H2. reflexivity. }
  destruct (is_digit c); [|discriminate].
  destruct (span_digits ds) as [ds' r']. simpl in *.
  injection H as H1 H2. rewrite H1, H2. reflexivity.
Qed.

(** [_scan_once] reads back [int.__repr__]. *)
Lemma scan_once_int (fuel : nat) (n : Z) (rest : pystr) :
  delimited rest ->
  scan_once (S fuel) (int_repr n ++ rest) = Parsed (JInt n) rest.
Proof.
  intro Hrest.
  pose proof (match_integer_app _ rest _ _ (match_integer_repr n) (delimited_nondigit _ Hrest)) as Hi.
  pose proof (match_frac_app [] rest [] [] eq_refl Hrest) as Hf.
  pose proof (match_exp_app [] rest [] [] eq_refl Hrest) as He.
  simpl in Hi, Hf, He.
  rewrite (scan_once_number fuel _ _ _ _ _ _ _ Hi Hf He). now rewrite py_int_repr.
Qed.

Lemma is_float_lexeme_spec (l : pystr) :
  is_float_lexeme l = true ->
  exists integer frac exp,
    l = integer ++ frac ++ exp /\ frac ++ exp <> [] /\
    match_integer l = Some (integer, frac ++ exp) /\
    match_frac (frac ++ exp) = (frac, exp) /\
    match_exp exp = (exp, []).
Proof.
  unfold is_float_lexeme.
  destruct (match_integer l) as [[integer r1]|] eqn:Ei; [|discriminate].
  destruct (match_frac r1) as [frac r2] eqn:Ef.
  destruct (match_exp r2) as [exp r3] eqn:Ee.
  destruct r3; [|discriminate].
  intro H.
  assert (Hne : frac ++ exp <> []).
  { intro Hnil. rewrite Hnil in H. discriminate. }
  pose proof (match_integer_spec _ Ei) as (Hl & _).
  pose proof (match_frac_spec _ Ef) as (Hr1 & _).
  pose proof (match_exp_spec _ Ee) as (Hr2 & _).
  rewrite app_nil_r in Hr2. subst r2 r1.
  exists integer, frac, exp. repeat split; auto.
Qed.

(** [_scan_once] reads back a float lexeme. *)
Lemma scan_once_float (fuel : nat) (l rest : pystr) :
  is_float_lexeme l = true -> delimited rest ->
  scan_once (S fuel) (l ++ rest) = Parsed (JFloat l) rest.
Proof.
  intros Hl Hrest.
  destruct (is_float_lexeme_spec _ Hl) as (integer & frac & exp & -> & Hne & Hi & Hf & He).
  pose proof (match_integer_app _ rest _ _ Hi (delimited_nondigit _ Hrest)) as Hi'.
  pose proof (match_frac_app _ rest _ _ Hf Hrest) as Hf'.
  pose proof (match_exp_app _ rest _ _ He Hrest) as He'.
  rewrite (scan_once_number fuel _ _ _ _ _ _ _ Hi' Hf' He').
  destruct frac; [destruct exp; [exfalso; apply Hne; reflexivity|]|]; reflexivity.
Qed.

(** *** Arrays and objects *)


Lemma skip_ws_nonws (c : N) (t : pystr) : is_ws c = false -> skip_ws (c :: t) = c :: t.
Proof. intro H. simpl. now rewrite H. Qed.

Lemma skip_ws_spaces (n : nat) (s : pystr) : skip_ws (repeat 32%N n ++ s) = skip_ws s.
Proof. induction n as [|n IH]; simpl; auto. Qed.

Lemma skip_ws_newline_indent (indent : option nat) (level : nat) (s : pystr) :
  skip_ws (newline_indent indent level ++ s) = skip_ws s.
Proof.
  destruct indent as [width|]; simpl; [|reflexivity]. apply skip_ws_spaces.
Qed.

Lemma skip_ws_item_separator_tail (indent : option nat) (s : pystr) :
  exists tail, item_separator indent ++ s = 44%N :: tail /\ skip_ws tail = skip_ws s.
Proof.
  destruct indent as [width|]; simpl; eexists; split; reflexivity.
Qed.

Lemma delimited_newline_indent (indent : option nat) (level : nat) (c : N) (s : pystr) :
  c = 93%N \/ c = 125%N -> delimited (newline_indent indent level ++ c :: s).
Proof.
  intro Hc. destruct indent as [width|]; simpl.
  - now left.
  - destruct Hc as [-> | ->]; auto.
Qed.

Lemma delimited_item_separator (indent : option nat) (s : pystr) :
  delimited (item_separator indent ++ s).
Proof. destruct indent; simpl; auto. Qed.

(** The first character of an encoded document starts a value. *)
Lemma iterencode_head (indent : option nat) (level : nat) (o : json) :
  wf_json o = true ->
  exists c t, iterencode indent level o = c :: t /\ is_ws c = false /\ c <> 93%N.
Proof.
  intro Hwf.
  assert (Hnum : forall l integer r, match_integer l = Some (integer, r) ->
            exists c t, l = c :: t /\ is_ws c = false /\ c <> 93%N).
  { intros l integer r H. destruct (match_integer_head _ _ _ H) as (c & t & -> & Hc).
    exists c, t. split; [reflexivity|].
    destruct Hc as [-> | Hd]; [split; [reflexivity|discriminate]|].
    unfold is_digit in Hd. apply andb_prop in Hd as [H1 H2]. apply N.leb_le in H1, H2.
    split; [|lia]. unfold is_ws.
    repeat (apply orb_false_iff; split); apply N.eqb_neq; lia. }
  destruct o as [|[|]|n|l| | | |s|[|x xs]|[|[k v] kvs]]; cbn [iterencode];
    try (do 2 eexists; split; [reflexivity|split; [reflexivity|discriminate]]).
  - exact (Hnum _ _ _ (match_integer_repr n)).
  - simpl in Hwf. destruct (is_float_lexeme_spec _ Hwf) as (i & f & e & _ & _ & Hi & _).
    exact (Hnum _ _ _ Hi).
Qed.

Lemma pystr_eqb_refl (a : pystr) : pystr_eqb a a = true.
Proof. induction a as [|x a IH]; simpl; [reflexivity|]. now rewrite N.eqb_refl. Qed.

Lemma pystr_eqb_eq (a b : pystr) : pystr_eqb a b = true <-> a = b.
Proof.
  split; [|intros ->; apply pystr_eqb_refl].
  revert b. induction a as [|x a IH]; destruct b as [|y b]; simpl; try discriminate; auto.
  intro H. apply andb_prop in H as [Hx Hab]. apply N.eqb_eq in Hx. subst.
  now rewrite (IH _ Hab).
Qed.

Lemma dict_set_new (d : list (pystr * json)) (k : pystr) (v : json) :
  existsb (pystr_eqb k) (map fst d) = false -> dict_set d k v = d ++ [(k, v)].
Proof.
  induction d as [|[k' v'] d IH]; simpl; [reflexivity|].
  intro H. apply orb_false_iff in H as [Hk Hd].
  assert (Hk' : pystr_eqb k' k = false).
  { destruct (pystr_eqb k' k) eqn:E; [|reflexivity].
    apply pystr_eqb_eq in E. subst. now rewrite pystr_eqb_refl in Hk. }
  rewrite Hk'. now rewrite (IH Hd).
Qed.

Lemma existsb_app_false (k : pystr) (a b : list pystr) :
  existsb (pystr_eqb k) a = false -> existsb (pystr_eqb k) b = false ->
  existsb (pystr_eqb k) (a ++ b) = false.
Proof. intros Ha Hb. now rewrite existsb_app, Ha, Hb. Qed.

Lemma dict_of_pairs_distinct_aux (items acc : list (pystr * json)) :
  distinct_keys (map fst items) = true ->
  (forall k, In k (map fst items) -> existsb (pystr_eqb k) (map fst acc) = false) ->
  fold_left (fun d kv => dict_set d (fst kv) (snd kv)) items acc = acc ++ items.
Proof.
  revert acc. induction items as [|[k v] items IH]; intros acc Hd Hacc; simpl.
  - now rewrite app_nil_r.
  - simpl in Hd. apply andb_prop in Hd as [Hk Hd]. apply negb_true_iff in Hk.
    rewrite dict_set_new by (apply Hacc; now left).
    rewrite IH; [now rewrite <- app_assoc|assumption|].
    intros k' Hin. rewrite map_app. apply existsb_app_false.
    + apply Hacc. now right.
    + simpl. rewrite orb_false_r.
      destruct (pystr_eqb k' k) eqn:E; [|reflexivity].
      apply pystr_eqb_eq in E. subst k'.
      assert (Hex : existsb (pystr_eqb k) (map fst items) = true).
      { apply existsb_exists. exists k. split; [assumption|apply pystr_eqb_refl]. }
      congruence.
Qed.

(** [dict(pairs)] keeps a list of pairs with distinct keys as it is. *)
Lemma dict_of_pairs_distinct (items : list (pystr * json)) :
  distinct_keys (map fst items) = true -> dict_of_pairs items = items.
Proof.
  intro H. unfold dict_of_pairs.
  rewrite dict_of_pairs_distinct_aux; [reflexivity|assumption|reflexivity].
Qed.


Lemma delimited_after_item (indent : option nat) (level : nat) (items : list json)
  (c : N) (rest : pystr) :
  c = 93%N \/ c = 125%N ->
  delimited (encoded_items indent level items ++ newline_indent indent level ++ c :: rest).
Proof.
  intro Hc. destruct items as [|y ys]; unfold encoded_items; cbn [flat_map app].
  - now apply delimited_newline_indent.
  - rewrite <- !app_assoc. apply delimited_item_separator.
Qed.

Lemma delimited_after_pair (indent : option nat) (level : nat)
  (items : list (pystr * json)) (c : N) (rest : pystr) :
  c = 93%N \/ c = 125%N ->
  delimited (encoded_pairs indent level items ++ newline_indent indent level ++ c :: rest).
Proof.
  intro Hc. destruct items as [|y ys]; unfold encoded_pairs; cbn [flat_map app].
  - now apply delimited_newline_indent.
  - rewrite <- !app_assoc. apply delimited_item_separator.
Qed.

Lemma skip_ws_before_value (indent : option nat) (level level' : nat) (o : json)
  (s : pystr) :
  wf_json o = true ->
  skip_ws (newline_indent indent level ++ iterencode indent level' o ++ s)
  = iterencode indent level' o ++ s.
Proof.
  intro Hwf. rewrite skip_ws_newline_indent.
  destruct (iterencode_head indent level' o Hwf) as (c & t & -> & Hc & _).
  cbn [app]. now apply skip_ws_nonws.
Qed.

Lemma skip_ws_space_value (indent : option nat) (level' : nat) (o : json) (s : pystr) :
  wf_json o = true ->
  skip_ws (32%N :: iterencode indent level' o ++ s) = iterencode indent level' o ++ s.
Proof.
  intro Hwf. change (skip_ws (32%N :: iterencode indent level' o ++ s))
    with (skip_ws (iterencode indent level' o ++ s)).
  destruct (iterencode_head indent level' o Hwf) as (c & t & -> & Hc & _).
  cbn [app]. now apply skip_ws_nonws.
Qed.

(** The loop of [JSONArray] reads back the items [iterencode] wrote. *)
Lemma array_values_encoded (indent : option nat) (level : nat) (xs : list json) :
  Forall (fun o => wf_json o = true /\ reads_back indent o) xs ->
  forall (x : json), wf_json x = true -> reads_back indent x ->
  forall fuel rest,
  parsed_or_exhausted
    (array_values fuel
       (iterencode indent (S level) x
        ++ encoded_items indent level xs ++ newline_indent indent level ++ 93%N :: rest))
    (x :: xs) rest.
Proof.
  induction 1 as [|y ys [Hy Ry] Hys IH]; intros x Hx Rx fuel rest.
  - destruct fuel as [|fuel]; [now right|]. cbn [array_values].
    destruct (Rx (S level) fuel
                (encoded_items indent level [] ++ newline_indent indent level ++ 93%N :: rest))
      as [E|E].
    + apply delimited_after_item. now left.
    + rewrite E. cbn [encoded_items flat_map app].
      rewrite skip_ws_newline_indent, skip_ws_nonws by reflexivity.
      simpl (93 =? 93)%N. cbv iota. now left.
    + rewrite E. now right.
  - destruct fuel as [|fuel]; [now right|]. cbn [array_values].
    destruct (Rx (S level) fuel
                (encoded_items indent level (y :: ys)
                 ++ newline_indent indent level ++ 93%N :: rest)) as [E|E].
    + apply delimited_after_item. now left.
    + rewrite E. unfold encoded_items at 1. cbn [flat_map].
      fold (encoded_items indent level ys). rewrite <- !app_assoc.
      destruct (skip_ws_item_separator_tail indent
                  (newline_indent indent (S level) ++ iterencode indent (S level) y
                   ++ encoded_items indent level ys
                   ++ newline_indent indent level ++ 93%N :: rest))
        as (tail & Et & Es).
      rewrite Et, skip_ws_nonws by reflexivity.
      simpl (44 =? 93)%N. simpl (44 =? 44)%N. cbv iota.
      rewrite Es, skip_ws_before_value by assumption.
      destruct (IH y Hy Ry fuel rest) as [E'|E']; rewrite E'; [now left|now right].
    + rewrite E. now right.
Qed.

(** The loop of [JSONObject] reads back the pairs [iterencode] wrote. *)
Lemma object_pairs_encoded (indent : option nat) (level : nat)
  (kvs : list (pystr * json)) :
  Forall (fun kv => wf_pystr (fst kv) = true /\ wf_json (snd kv) = true
                    /\ reads_back indent (snd kv)) kvs ->
  forall (k : pystr) (v : json),
  wf_pystr k = true -> wf_json v = true -> reads_back indent v ->
  forall fuel rest,
  parsed_or_exhausted
    (object_pairs fuel
       (flat_map escape_ascii k ++ 34%N :: key_separator
        ++ iterencode indent (S level) v
        ++ encoded_pairs indent level kvs ++ newline_indent indent level ++ 125%N :: rest))
    ((k, v) :: kvs) rest.
Proof.
  induction 1 as [|[k' v'] kvs (Hk' & Hv' & Rv') Hkvs IH]; intros k v Hk Hv Rv fuel rest.
  - destruct fuel as [|fuel]; [now right|]. cbn [object_pairs].
    rewrite scanstring_encoded by assumption.
    unfold key_separator. cbn [app]. rewrite skip_ws_nonws by reflexivity.
    simpl (58 =? 58)%N. cbv iota.
    replace (skip_ws (32%N :: iterencode indent (S level) v
                      ++ encoded_pairs indent level []
                      ++ newline_indent indent level ++ 125%N :: rest))
      with (iterencode indent (S level) v
            ++ encoded_pairs indent level []
            ++ newline_indent indent level ++ 125%N :: rest)
      by (symmetry; apply skip_ws_space_value; assumption).
    destruct (Rv (S level) fuel
                (encoded_pairs indent level [] ++ newline_indent indent level ++ 125%N :: rest))
      as [E|E].
    + apply delimited_after_pair. now right.
    + rewrite E. cbn [encoded_pairs flat_map app].
      rewrite skip_ws_newline_indent, skip_ws_nonws by reflexivity.
      simpl (125 =? 125)%N. cbv iota. now left.
    + rewrite E. now right.
  - destruct fuel as [|fuel]; [now right|]. cbn [object_pairs].
    rewrite scanstring_encoded by assumption.
    unfold key_separator. cbn [app]. rewrite skip_ws_nonws by reflexivity.
    simpl (58 =? 58)%N. cbv iota.
    replace (skip_ws (32%N :: iterencode indent (S level) v
                      ++ encoded_pairs indent level ((k', v') :: kvs)
                      ++ newline_indent indent level ++ 125%N :: rest))
      with (iterencode indent (S level) v
            ++ encoded_pairs indent level ((k', v') :: kvs)
            ++ newline_indent indent level ++ 125%N :: rest)
      by (symmetry; apply skip_ws_space_value; assumption).
    destruct (Rv (S level) fuel
                (encoded_pairs indent level ((k', v') :: kvs)
                 ++ newline_indent indent level ++ 125%N :: rest)) as [E|E].
    + apply delimited_after_pair. now right.
    + rewrite E. unfold encoded_pairs at 1. cbn [flat_map fst snd].
      fold (encoded_pairs indent level kvs). rewrite <- !app_assoc.
      destruct (skip_ws_item_separator_tail indent
                  (newline_indent indent (S level) ++ encode_basestring_ascii k'
                   ++ key_separator ++ iterencode indent (S level) v'
                   ++ encoded_pairs indent level kvs
                   ++ newline_indent indent level ++ 125%N :: rest))
        as (tail & Et & Es).
      rewrite Et, skip_ws_nonws by reflexivity.
      simpl (44 =? 125)%N. simpl (44 =? 44)%N. cbv iota.
      rewrite Es, skip_ws_newline_indent.
      unfold encode_basestring_ascii. cbn [app]. rewrite skip_ws_nonws by reflexivity.
      simpl (34 =? 34)%N. cbv iota. rewrite <- !app_assoc. cbn [app].
      destruct (IH k' v' Hk' Hv' Rv' fuel rest) as [E'|E']; rewrite E'; [now left|now right].
    + rewrite E. now right.
Qed.

Lemma forallb_Forall_wf (P : json -> Prop) (items : list json) :
  forallb wf_json items = true ->
  Forall (fun o => wf_json o = true -> P o) items ->
  Forall (fun o => wf_json o = true /\ P o) items.
Proof.
  intros Hwf H. induction H as [|x xs Hx _ IH]; [constructor|].
  simpl in Hwf. apply andb_prop in Hwf as [Hwx Hwxs].
  constructor; [split; auto|auto].
Qed.

Lemma forallb_Forall_wf_pairs (P : json -> Prop) (items : list (pystr * json)) :
  forallb (fun kv => wf_pystr (fst kv) && wf_json (snd kv)) items = true ->
  Forall (fun kv => wf_json (snd kv) = true -> P (snd kv)) items ->
  Forall (fun kv => wf_pystr (fst kv) = true /\ wf_json (snd kv) = true /\ P (snd kv)) items.
Proof.
  intros Hwf H. induction H as [|x xs Hx _ IH]; [constructor|].
  simpl in Hwf. apply andb_prop in Hwf as [Hwx Hwxs]. apply andb_prop in Hwx as [Hk Hv].
  constructor; [repeat split; auto|auto].
Qed.

(** [_scan_once] reads back what [iterencode] wrote, at every depth and
    before every delimiter, unless the budget runs out. *)
Lemma scan_once_encoded (indent : option nat) (o : json) :
  wf_json o = true -> reads_back indent o.
Proof.
  induction o as [|b|n|l| | | |s|items IH|items IH] using json_nested_ind;
    intros Hwf level fuel rest Hrest;
    (destruct fuel as [|fuel]; [now right|]).
  - left. reflexivity.
  - left. destruct b; reflexivity.
  - left. now apply scan_once_int.
  - left. now apply scan_once_float.
  - left. reflexivity.
  - left. reflexivity.
  - left. reflexivity.
  - left. cbn [iterencode]. unfold encode_basestring_ascii. cbn [app scan_once].
    simpl (34 =? 34)%N. cbv iota. rewrite <- app_assoc. cbn [app].
    now rewrite scanstring_encoded.
  - destruct items as [|x xs]; [left; reflexivity|].
    cbn [wf_json] in Hwf.
    pose proof (forallb_Forall_wf (reads_back indent) (x :: xs) Hwf IH) as Hall.
    inversion Hall as [|? ? [Hx Rx] Hxs]; subst.
    pose proof (array_values_encoded indent level xs Hxs x Hx Rx fuel rest) as R.
    cbn [iterencode app scan_once]. simpl (91 =? 34)%N. simpl (91 =? 123)%N.
    simpl (91 =? 91)%N. cbv iota.
    fold (encoded_items indent level xs). rewrite <- !app_assoc. cbn [app].
    rewrite skip_ws_before_value by assumption.
    destruct (iterencode_head indent (S level) x Hx) as (c & t & Ec & _ & Hc).
    rewrite Ec in *. cbn [app] in *.
    apply N.eqb_neq in Hc. rewrite Hc.
    destruct R as [E|E]; rewrite E; [now left|now right].
  - destruct items as [|[k v] kvs]; [left; reflexivity|].
    cbn [wf_json] in Hwf. apply andb_prop in Hwf as [Hwf Hkeys].
    pose proof (forallb_Forall_wf_pairs (reads_back indent) ((k, v) :: kvs) Hwf IH) as Hall.
    inversion Hall as [|? ? (Hk & Hv & Rv) Hkvs]; subst. cbn [fst snd] in *.
    pose proof (object_pairs_encoded indent level kvs Hkvs k v Hk Hv Rv fuel rest) as R.
    cbn [iterencode app scan_once]. simpl (123 =? 34)%N. simpl (123 =? 123)%N.
    cbv iota.
    fold (encoded_pairs indent level kvs). rewrite <- !app_assoc.
    rewrite skip_ws_newline_indent.
    unfold encode_basestring_ascii. cbn [app]. rewrite skip_ws_nonws by reflexivity.
    simpl (34 =? 125)%N. simpl (34 =? 34)%N. cbv iota.
    rewrite <- !app_assoc. cbn [app].
    destruct R as [E|E]; rewrite E; [left|now right].
    now rewrite dict_of_pairs_distinct.
Qed.

(** [json.loads(json.dumps(o))] and [json.loads(json.dumps(o, indent=k))]
    are [o], for every document of the shape [json.loads] returns. *)
Lemma json_loads_dumps (indent : option nat) (o : json) :
  wf_json o = true -> json_loads (json_dumps indent o) = Ok o.
Proof.
  intro Hwf. unfold json_loads, json_dumps.
  destruct (iterencode_head indent 0%nat o Hwf) as (c & t & Ec & Hc & _).
  assert (Hs : skip_ws (iterencode indent 0 o) = iterencode indent 0 o).
  { rewrite Ec. now apply skip_ws_nonws. }
  rewrite Hs.
  pose proof (scan_once_encoded indent o Hwf 0%nat (scan_fuel (iterencode indent 0 o)) [] I) as R.
  rewrite app_nil_r in R. destruct R as [E|E].
  - rewrite E. reflexivity.
  - exfalso. revert E. apply (proj1 (scan_not_exhausted _)).
    unfold scan_fuel. lia.
Qed.

(* ================================================================== *)
(** ** json.loads returns well-formed documents; UTF-8; ASCII output *)

(** *** What scanstring returns *)

Lemma hexval_lt (h v : N) : hexval h = Some v -> (v < 16)%N.
Proof.
  unfold hexval, is_digit.
  destruct ((48 <=? h) && (h <=? 57))%N eqn:E1.
  { apply andb_prop in E1 as [H1 H2]. apply N.leb_le in H1, H2. intros [= <-]. lia. }
  destruct ((97 <=? h) && (h <=? 102))%N eqn:E2.
  { apply andb_prop in E2 as [H1 H2]. apply N.leb_le in H1, H2. intros [= <-]. lia. }
  destruct ((65 <=? h) && (h <=? 70))%N eqn:E3; [|discriminate].
  apply andb_prop in E3 as [H1 H2]. apply N.leb_le in H1, H2. intros [= <-]. lia.
Qed.

Lemma decode_uXXXX_lt (h1 h2 h3 h4 uni : N) :
  decode_uXXXX h1 h2 h3 h4 = Some uni -> (uni < 65536)%N.
Proof.
  unfold decode_uXXXX.
  destruct (hexval h1) as [a|] eqn:E1; [|discriminate].
  destruct (hexval h2) as [b|] eqn:E2; [|discriminate].
  destruct (hexval h3) as [c|] eqn:E3; [|discriminate].
  destruct (hexval h4) as [d|] eqn:E4; [|discriminate].
  apply hexval_lt in E1, E2, E3, E4. intros [= <-]. lia.
Qed.

Lemma backslash_small (esc ch : N) : backslash esc = Some ch -> (ch < 128)%N.
Proof.
  unfold backslash.
  repeat match goal with
         | |- context [if ?c then _ else _] => destruct c
         end; intros [= <-]; lia.
Qed.

Lemma unicode_text_cons (c : N) (s : pystr) :
  unicode_text (c :: s) = true -> is_scalar c = true /\ unicode_text s = true.
Proof. unfold unicode_text. simpl. intro H. now apply andb_prop in H. Qed.

Lemma is_scalar_spec (c : N) :
  is_scalar c = true ->
  (c < 1114112)%N /\ is_high_surrogate c = false /\ is_low_surrogate c = false.
Proof.
  unfold is_scalar, is_surrogate, is_high_surrogate, is_low_surrogate. intro H.
  apply andb_prop in H as [H1 H2]. apply N.ltb_lt in H1. apply negb_true_iff in H2.
  split; [assumption|].
  apply andb_false_iff in H2.
  split; apply andb_false_iff; destruct H2 as [H2|H2];
    apply N.leb_gt in H2; try (left; apply N.leb_gt; lia); try (right; apply N.leb_gt; lia).
Qed.

Lemma small_not_surrogate (c : N) :
  (c < 128)%N -> is_high_surrogate c = false /\ is_low_surrogate c = false.
Proof.
  intro H. unfold is_high_surrogate, is_low_surrogate.
  split; apply andb_false_iff; left; apply N.leb_gt; lia.
Qed.

Lemma option_cons_inv (c : N) (r : option (pystr * pystr)) (chars rest : pystr) :
  option_cons c r = Some (chars, rest) ->
  exists chars', r = Some (chars', rest) /\ chars = c :: chars'.
Proof.
  destruct r as [[a b]|]; simpl; [|discriminate].
  intros [= <- <-]. eauto.
Qed.

(** When the string [scanstring] returns starts with a low surrogate, the
    text started with the escape of that surrogate. *)
Lemma scanstring_head_low (s chars rest : pystr) :
  scanstring s = Some (chars, rest) ->
  unicode_text s = true ->
  head_low chars = true ->
  exists l1 l2 l3 l4 s5 uni2,
    s = 92%N :: 117%N :: l1 :: l2 :: l3 :: l4 :: s5 /\
    decode_uXXXX l1 l2 l3 l4 = Some uni2 /\ is_low_surrogate uni2 = true.
Proof.
  intros H Hu Hl.
  destruct s as [|c s1]; [discriminate|]. cbn [scanstring] in H.
  apply unicode_text_cons in Hu as [Hc Hu1].
  destruct (c =? 34)%N eqn:Ec.
  { injection H as <- <-. discriminate. }
  destruct (c =? 92)%N eqn:Eb.
  { apply N.eqb_eq in Eb. subst c.
    destruct s1 as [|esc s2]; [discriminate|].
    destruct (esc =? 117)%N eqn:Eu.
    - apply N.eqb_eq in Eu. subst esc.
      destruct s2 as [|h1 [|h2 [|h3 [|h4 s3]]]]; try discriminate.
      destruct (decode_uXXXX h1 h2 h3 h4) as [uni|] eqn:Ed; [|discriminate].
      assert (Hplain : option_cons uni (scanstring s3) = Some (chars, rest) ->
                exists l1 l2 l3 l4 s5 uni2,
                  92%N :: 117%N :: h1 :: h2 :: h3 :: h4 :: s3
                  = 92%N :: 117%N :: l1 :: l2 :: l3 :: l4 :: s5 /\
                  decode_uXXXX l1 l2 l3 l4 = Some uni2 /\ is_low_surrogate uni2 = true).
      { intro Hx. apply option_cons_inv in Hx as (chars' & _ & ->).
        cbn [head_low] in Hl. do 6 eexists. split; [reflexivity|]. split; eassumption. }
      destruct s3 as [|b [|u [|l1 [|l2 [|l3 [|l4 s5]]]]]];
        try (destruct (is_high_surrogate uni && _ && _); [discriminate|]);
        try (exact (Hplain H)).
      destruct (is_high_surrogate uni && (b =? 92)%N && (u =? 117)%N) eqn:Ehi;
        [|exact (Hplain H)].
      destruct (decode_uXXXX l1 l2 l3 l4) as [uni2|] eqn:Ed2; [|discriminate].
      destruct (is_low_surrogate uni2) eqn:El2; [|exact (Hplain H)].
      apply option_cons_inv in H as (chars' & _ & ->).
      exfalso. cbn [head_low] in Hl. unfold is_low_surrogate in Hl.
      apply andb_prop in Hl as [_ Hl]. apply N.leb_le in Hl. lia.
    - destruct (backslash esc) as [ch|] eqn:Ebs; [|discriminate].
      apply option_cons_inv in H as (chars' & _ & ->).
      exfalso. cbn [head_low] in Hl.
      destruct (small_not_surrogate ch (backslash_small _ _ Ebs)) as [_ Hn]. congruence. }
  destruct (c <? 32)%N; [discriminate|].
  apply option_cons_inv in H as (chars' & _ & ->).
  exfalso. cbn [head_low] in Hl. destruct (is_scalar_spec c Hc) as (_ & _ & Hn). congruence.
Qed.

Lemma wf_pystr_intro (c : N) (chars : pystr) :
  (c < 1114112)%N ->
  (is_high_surrogate c = true -> head_low chars = false) ->
  wf_pystr chars = true ->
  wf_pystr (c :: chars) = true.
Proof.
  intros Hc Hp Hw. cbn [wf_pystr]. rewrite Hw, andb_true_r.
  apply andb_true_intro. split; [now apply N.ltb_lt|].
  apply negb_true_iff.
  destruct (is_high_surrogate c); [|reflexivity].
  specialize (Hp eq_refl). destruct chars; [reflexivity|exact Hp].
Qed.

Lemma unicode_text_skip (pre s : pystr) :
  unicode_text (pre ++ s) = true -> unicode_text s = true.
Proof.
  unfold unicode_text. rewrite forallb_app. intro H. now apply andb_prop in H.
Qed.

(** The strings [scanstring] returns from a Unicode text are well formed. *)
Lemma scanstring_wf_aux (n : nat) : forall s chars rest,
  (length s <= n)%nat ->
  scanstring s = Some (chars, rest) ->
  unicode_text s = true ->
  wf_pystr chars = true.
Proof.
  induction n as [|n IH]; intros s chars rest Hn H Hu.
  - destruct s; [discriminate|simpl in Hn; lia].
  - destruct s as [|c s1]; [discriminate|].
    simpl in Hn. cbn [scanstring] in H.
    pose proof Hu as Hu0.
    apply unicode_text_cons in Hu as [Hc Hu1].
    destruct (c =? 34)%N eqn:Ec.
    { injection H as <- <-. reflexivity. }
    destruct (c =? 92)%N eqn:Eb.
    { apply N.eqb_eq in Eb. subst c.
      destruct s1 as [|esc s2]; [discriminate|]. simpl in Hn.
      destruct (esc =? 117)%N eqn:Eu.
      - apply N.eqb_eq in Eu. subst esc.
        destruct s2 as [|h1 [|h2 [|h3 [|h4 s3]]]]; try discriminate.
        simpl in Hn.
        destruct (decode_uXXXX h1 h2 h3 h4) as [uni|] eqn:Ed; [|discriminate].
        pose proof (decode_uXXXX_lt _ _ _ _ _ Ed) as Hlt.
        assert (Hu3 : unicode_text s3 = true).
        { apply (unicode_text_skip [92; 117; h1; h2; h3; h4]%N). exact Hu0. }
        (* the branches that keep [uni] as a character of its own *)
        assert (Hplain : option_cons uni (scanstring s3) = Some (chars, rest) ->
                  (is_high_surrogate uni = true ->
                   forall l1 l2 l3 l4 s5 uni2,
                     s3 = 92%N :: 117%N :: l1 :: l2 :: l3 :: l4 :: s5 ->
                     decode_uXXXX l1 l2 l3 l4 = Some uni2 ->
                     is_low_surrogate uni2 = false) ->
                  wf_pystr chars = true).
        { intros Hx Hno. apply option_cons_inv in Hx as (chars' & Hs & ->).
          apply wf_pystr_intro.
          - lia.
          - intro Hh. destruct (head_low chars') eqn:El; [|reflexivity].
            destruct (scanstring_head_low _ _ _ Hs Hu3 El)
              as (l1 & l2 & l3 & l4 & s5 & uni2 & E3 & Ed2 & Hl2).
            rewrite (Hno Hh _ _ _ _ _ _ E3 Ed2) in Hl2. discriminate.
          - apply (IH s3 chars' rest); [lia|assumption|assumption]. }
        destruct s3 as [|b [|u [|l1 [|l2 [|l3 [|l4 s5]]]]]];
          try (destruct (is_high_surrogate uni && _ && _); [discriminate|]);
          try (apply (Hplain H); intros; discriminate).
        destruct (is_high_surrogate uni && (b =? 92)%N && (u =? 117)%N) eqn:Ehi.
        + destruct (decode_uXXXX l1 l2 l3 l4) as [uni2|] eqn:Ed2; [|discriminate].
          destruct (is_low_surrogate uni2) eqn:El2.
          * apply option_cons_inv in H as (chars' & Hs & ->).
            apply andb_prop in Ehi as [Ehi _]. apply andb_prop in Ehi as [Ehi _].
            unfold is_high_surrogate in Ehi. apply andb_prop in Ehi as [Ha Hb].
            unfold is_low_surrogate in El2. apply andb_prop in El2 as [Hc2 Hd2].
            apply N.leb_le in Ha, Hb, Hc2, Hd2.
            apply wf_pystr_intro.
            -- lia.
            -- intro Hh. exfalso. unfold is_high_surrogate in Hh.
               apply andb_prop in Hh as [_ Hh]. apply N.leb_le in Hh. lia.
            -- simpl in Hn. apply (IH s5 chars' rest); [lia|assumption|].
               apply (unicode_text_skip [b; u; l1; l2; l3; l4]). exact Hu3.
          * apply (Hplain H). intros _ l1' l2' l3' l4' s5' uni2' E3 Ed2'.
            injection E3 as -> -> -> -> -> -> ->. congruence.
        + apply (Hplain H). intros Hh l1' l2' l3' l4' s5' uni2' E3 Ed2'.
          injection E3 as -> -> _ _ _ _ _. rewrite Hh in Ehi. discriminate.
      - destruct (backslash esc) as [ch|] eqn:Ebs; [|discriminate].
        apply option_cons_inv in H as (chars' & Hs & ->).
        pose proof (backslash_small _ _ Ebs) as Hsm.
        apply wf_pystr_intro.
        + lia.
        + intro Hh. destruct (small_not_surrogate ch Hsm) as [Hn' _]. congruence.
        + apply (IH s2 chars' rest); [lia|assumption|].
          apply (unicode_text_skip [92; esc]%N). exact Hu0. }
    destruct (c <? 32)%N; [discriminate|].
    apply option_cons_inv in H as (chars' & Hs & ->).
    destruct (is_scalar_spec c Hc) as (Hlt & Hnh & _).
    apply wf_pystr_intro.
    + exact Hlt.
    + intro Hh. congruence.
    + apply (IH s1 chars' rest); [lia|assumption|assumption].
Qed.

Lemma scanstring_wf (s chars rest : pystr) :
  scanstring s = Some (chars, rest) -> unicode_text s = true -> wf_pystr chars = true.
Proof. apply (scanstring_wf_aux (length s)). lia. Qed.

(** *** Float lexemes *)

Lemma match_integer_self (s integer r : pystr) :
  match_integer s = Some (integer, r) -> match_integer integer = Some (integer, []).
Proof.
  unfold match_integer.
  assert (Hgen : forall sign s1,
    (sign = [] \/ sign = [45%N]) ->
    match s1 with
    | [] => None
    | c :: s2 =>
        if (c =? 48)%N then Some (sign ++ [c], s2)
        else if is_digit c then let (ds, r) := span_digits s2 in Some (sign ++ c :: ds, r)
        else None
    end = Some (integer, r) ->
    exists c ds, integer = sign ++ c :: ds /\ c <> 45%N /\
      (if (c =? 48)%N then Some (sign ++ [c], ds)
       else if is_digit c then let (ds', r') := span_digits ds in Some (sign ++ c :: ds', r')
       else None) = Some (integer, @nil N)).
  { intros sign s1 Hsign H. destruct s1 as [|c s2]; [discriminate|].
    destruct (c =? 48)%N eqn:E0.
    - injection H as <- <-. exists c, []. apply N.eqb_eq in E0. subst c.
      split; [reflexivity|]. split; [discriminate|reflexivity].
    - destruct (is_digit c) eqn:Ed; [|discriminate].
      destruct (span_digits s2) as [ds r'] eqn:Es. injection H as <- <-.
      apply span_digits_spec in Es as (_ & Hds & _).
      exists c, ds. split; [reflexivity|].
      split; [intros ->; discriminate|].
      rewrite E0, Ed, (span_digits_all ds Hds). reflexivity. }
  destruct s as [|c s']; [discriminate|].
  destruct (c =? 45)%N eqn:Em.
  - intro H. destruct (Hgen [45%N] s' (or_intror eq_refl) H) as (c' & ds & -> & Hc' & Hm).
    cbn [app]. simpl (45 =? 45)%N. cbv iota. exact Hm.
  - intro H. destruct (Hgen [] (c :: s') (or_introl eq_refl) H) as (c' & ds & -> & Hc' & Hm).
    cbn [app]. apply N.eqb_neq in Hc'. rewrite Hc'. exact Hm.
Qed.

Lemma match_exp_head (s exp r : pystr) :
  match_exp s = (exp, r) ->
  s = exp ++ r /\
  match exp with
  | [] => True
  | c :: _ => is_digit c = false /\ (c =? 46)%N = false
  end.
Proof.
  intro H. split; [apply (match_exp_spec _ H)|].
  unfold match_exp in H. destruct s as [|c s1]; [now injection H as <- <-|].
  destruct ((c =? 101) || (c =? 69))%N eqn:E; [|now injection H as <- <-].
  assert (Hc : is_digit c = false /\ (c =? 46)%N = false).
  { apply orb_prop in E as [E|E]; apply N.eqb_eq in E; subst; split; reflexivity. }
  destruct s1 as [|d s1'].
  - simpl in H. now injection H as <- <-.
  - destruct ((d =? 45) || (d =? 43))%N.
    + destruct (span_digits s1') as [[|x ds] r']; now injection H as <- <-.
    + destruct (span_digits (d :: s1')) as [[|x ds] r']; now injection H as <- <-.
Qed.

Lemma match_exp_self (s exp r : pystr) :
  match_exp s = (exp, r) -> match_exp exp = (exp, []).
Proof.
  unfold match_exp. destruct s as [|c s1]; [now intros [= <- <-]|].
  destruct ((c =? 101) || (c =? 69))%N eqn:E; [|now intros [= <- <-]].
  assert (Hgen : forall sign s2,
    match span_digits s2 with
    | ([], _) => ([], c :: s1)
    | ((_ :: _) as ds, r) => (c :: sign ++ ds, r)
    end = (exp, r) ->
    exp = [] \/ exists ds, exp = c :: sign ++ ds /\ ds <> [] /\
                           Forall (fun c => is_digit c = true) ds).
  { intros sign s2 H. destruct (span_digits s2) as [ds r'] eqn:Es.
    apply span_digits_spec in Es as (_ & Hds & _).
    destruct ds as [|d ds]; injection H as <- <-; [now left|right].
    exists (d :: ds). repeat split; [discriminate|assumption]. }
  assert (Hself : forall sign ds,
    (sign = [] \/ exists d, sign = [d] /\ ((d =? 45) || (d =? 43))%N = true) ->
    ds <> [] -> Forall (fun c => is_digit c = true) ds ->
    match_exp (c :: sign ++ ds) = (c :: sign ++ ds, [])).
  { intros sign ds Hsign Hne Hds. unfold match_exp. rewrite E.
    destruct Hsign as [-> | (d & -> & Hd)].
    - cbn [app]. destruct ds as [|x ds]; [congruence|].
      inversion Hds as [|? ? Hx _]; subst.
      replace ((x =? 45) || (x =? 43))%N with false.
      + rewrite (span_digits_all _ Hds). reflexivity.
      + symmetry. unfold is_digit in Hx. apply andb_prop in Hx as [H1 H2].
        apply N.leb_le in H1, H2.
        apply orb_false_iff. split; apply N.eqb_neq; lia.
    - cbn [app]. rewrite Hd. rewrite (span_digits_all _ Hds).
      destruct ds; [congruence|reflexivity]. }
  destruct s1 as [|d s1'].
  - simpl. now intros [= <- <-].
  - destruct ((d =? 45) || (d =? 43))%N eqn:Ed.
    + intro H. destruct (Hgen [d] s1' H) as [-> | (ds & -> & Hne & Hds)]; [reflexivity|].
      apply (Hself [d] ds); eauto.
    + intro H. destruct (Hgen [] (d :: s1') H) as [-> | (ds & -> & Hne & Hds)]; [reflexivity|].
      apply (Hself [] ds); auto.
Qed.

Lemma match_frac_join (s frac r exp r3 : pystr) :
  match_frac s = (frac, r) -> match_exp r = (exp, r3) ->
  match_frac (frac ++ exp) = (frac, exp) /\
  match frac with
  | [] => True
  | c :: _ => is_digit c = false
  end.
Proof.
  intros Hf He. pose proof (match_exp_head _ _ _ He) as (_ & Hh).
  unfold match_frac in Hf. destruct s as [|c s1].
  - injection Hf as <- <-. simpl in He. injection He as <- <-. split; reflexivity.
  - destruct (c =? 46)%N eqn:E.
    + destruct (span_digits s1) as [ds r'] eqn:Es.
      apply span_digits_spec in Es as (_ & Hds & _).
      destruct ds as [|d ds]; injection Hf as <- <-.
      * unfold match_exp in He. apply N.eqb_eq in E. subst c.
        simpl in He. injection He as <- <-. split; reflexivity.
      * split; [|apply N.eqb_eq in E; now subst].
        unfold match_frac. cbn [app]. rewrite E.
        assert (Hn : nondigit_head exp).
        { destruct exp; [exact I|]. apply Hh. }
        change (d :: ds ++ exp) with ((d :: ds) ++ exp).
        rewrite (span_digits_app _ _ _ _ (span_digits_all _ Hds) Hn). reflexivity.
    + injection Hf as <- <-. split; [|exact I]. cbn [app].
      unfold match_frac. destruct exp as [|x exp]; [reflexivity|].
      destruct Hh as [_ Hx]. now rewrite Hx.
Qed.

(** The lexeme [_scan_once] keeps for a float is a float lexeme. *)
Lemma scanned_float_lexeme (s integer frac exp r1 r2 r3 : pystr) :
  match_integer s = Some (integer, r1) ->
  match_frac r1 = (frac, r2) ->
  match_exp r2 = (exp, r3) ->
  frac ++ exp <> [] ->
  is_float_lexeme (integer ++ frac ++ exp) = true.
Proof.
  intros Hi Hf He Hne.
  destruct (match_frac_join _ _ _ _ _ Hf He) as (Hfj & Hfh).
  pose proof (match_exp_self _ _ _ He) as Hes.
  pose proof (match_exp_head _ _ _ He) as (_ & Heh).
  assert (Hn : nondigit_head (frac ++ exp)).
  { destruct frac as [|c frac]; cbn [app].
    - destruct exp; [exact I|]. apply Heh.
    - exact Hfh. }
  pose proof (match_integer_app _ _ _ _ (match_integer_self _ _ _ Hi) Hn) as Hij.
  unfold is_float_lexeme. rewrite Hij. cbn [app]. rewrite Hfj, Hes.
  destruct (frac ++ exp); [congruence|reflexivity].
Qed.

(** *** Objects *)

Lemma dict_set_wf (d : list (pystr * json)) (k : pystr) (v : json) :
  forallb (fun kv => wf_pystr (fst kv) && wf_json (snd kv)) d = true ->
  wf_pystr k = true -> wf_json v = true ->
  forallb (fun kv => wf_pystr (fst kv) && wf_json (snd kv)) (dict_set d k v) = true.
Proof.
  intros Hd Hk Hv. induction d as [|[k' v'] d IH]; simpl.
  - now rewrite Hk, Hv.
  - simpl in Hd. apply andb_prop in Hd as [Hkv Hd]. apply andb_prop in Hkv as [Hk' Hv'].
    destruct (pystr_eqb k' k); simpl.
    + now rewrite Hk', Hv, Hd.
    + now rewrite Hk', Hv', (IH Hd).
Qed.

Lemma pystr_eqb_sym (a b : pystr) : pystr_eqb a b = pystr_eqb b a.
Proof.
  destruct (pystr_eqb a b) eqn:E1, (pystr_eqb b a) eqn:E2; try reflexivity.
  - apply pystr_eqb_eq in E1. subst. now rewrite pystr_eqb_refl in E2.
  - apply pystr_eqb_eq in E2. subst. now rewrite pystr_eqb_refl in E1.
Qed.

Lemma dict_set_keys (d : list (pystr * json)) (k : pystr) (v : json) :
  map fst (dict_set d k v) =
  if existsb (pystr_eqb k) (map fst d) then map fst d else map fst d ++ [k].
Proof.
  induction d as [|[k' v'] d IH]; simpl; [reflexivity|].
  rewrite (pystr_eqb_sym k k').
  destruct (pystr_eqb k' k); simpl; [reflexivity|].
  rewrite IH. now destruct (existsb (pystr_eqb k) (map fst d)).
Qed.

Lemma distinct_keys_snoc (keys : list pystr) (k : pystr) :
  distinct_keys keys = true -> existsb (pystr_eqb k) keys = false ->
  distinct_keys (keys ++ [k]) = true.
Proof.
  induction keys as [|k' keys IH]; simpl; [reflexivity|].
  intros Hd Hk. apply andb_prop in Hd as [Hk' Hd]. apply negb_true_iff in Hk'.
  apply orb_false_iff in Hk as [Hkk' Hk].
  rewrite (IH Hd Hk), andb_true_r. apply negb_true_iff.
  rewrite existsb_app, Hk'. simpl. rewrite orb_false_r.
  now rewrite pystr_eqb_sym.
Qed.

Lemma dict_of_pairs_wf (pairs : list (pystr * json)) :
  forallb (fun kv => wf_pystr (fst kv) && wf_json (snd kv)) pairs = true ->
  wf_json (JDict (dict_of_pairs pairs)) = true.
Proof.
  unfold dict_of_pairs. intro Hp.
  assert (Hgen : forall acc,
    forallb (fun kv => wf_pystr (fst kv) && wf_json (snd kv)) acc = true ->
    distinct_keys (map fst acc) = true ->
    wf_json (JDict (fold_left (fun d kv => dict_set d (fst kv) (snd kv)) pairs acc)) = true).
  { induction pairs as [|[k v] pairs IH]; intros acc Ha Hd.
    - cbn [fold_left wf_json]. now rewrite Ha, Hd.
    - cbn [fold_left fst snd]. simpl in Hp. apply andb_prop in Hp as [Hkv Hp].
      apply andb_prop in Hkv as [Hk Hv].
      apply (IH Hp).
      + now apply dict_set_wf.
      + rewrite dict_set_keys.
        destruct (existsb (pystr_eqb k) (map fst acc)) eqn:E; [assumption|].
        now apply distinct_keys_snoc. }
  now apply Hgen.
Qed.

(** *** Every document json.loads returns is well formed *)

Lemma unicode_text_tail (c : N) (s : pystr) :
  unicode_text (c :: s) = true -> unicode_text s = true.
Proof. intro H. now apply unicode_text_cons in H. Qed.

Lemma unicode_text_skips (s r : pystr) :
  skips s r -> unicode_text s = true -> unicode_text r = true.
Proof. intros (pre & -> & _). apply unicode_text_skip. Qed.

Lemma unicode_text_eats (s r : pystr) :
  eats s r -> unicode_text s = true -> unicode_text r = true.
Proof. intro H. apply unicode_text_skips. now apply eats_skips. Qed.

Lemma unicode_text_ws (s : pystr) :
  unicode_text s = true -> unicode_text (skip_ws s) = true.
Proof. apply unicode_text_skips, skips_ws. Qed.

Lemma unicode_text_after_ws (s : pystr) (c : N) (r : pystr) :
  skip_ws s = c :: r -> unicode_text s = true -> unicode_text r = true.
Proof.
  intros H Hu. apply unicode_text_ws in Hu. rewrite H in Hu.
  now apply unicode_text_tail in Hu.
Qed.

Lemma scanned_wf :
  (forall s v r, scanned s v r -> unicode_text s = true -> wf_json v = true) /\
  (forall s vs r, scanned_values s vs r -> unicode_text s = true ->
                  forallb wf_json vs = true) /\
  (forall s ps r, scanned_pairs s ps r -> unicode_text s = true ->
                  forallb (fun kv => wf_pystr (fst kv) && wf_json (snd kv)) ps = true).
Proof.
  apply (scanned_dep_mutind
           (fun s v r _ => unicode_text s = true -> wf_json v = true)
           (fun s vs r _ => unicode_text s = true -> forallb wf_json vs = true)
           (fun s ps r _ => unicode_text s = true ->
              forallb (fun kv => wf_pystr (fst kv) && wf_json (snd kv)) ps = true)).
  - intros s1 chars rest E Hu. cbn [wf_json].
    apply (scanstring_wf _ _ _ E). now apply unicode_text_tail in Hu.
  - reflexivity.
  - intros s1 s2 pairs rest E D IH Hu. apply dict_of_pairs_wf. apply IH.
    apply unicode_text_tail in Hu. now apply (unicode_text_after_ws _ _ _ E).
  - reflexivity.
  - intros s1 c s2 values rest E D IH Hu. cbn [wf_json]. apply IH.
    apply unicode_text_tail, unicode_text_ws in Hu. now rewrite E in Hu.
  - reflexivity.
  - reflexivity.
  - reflexivity.
  - reflexivity.
  - intros s integer frac exp r1 r2 r3 Ei Ef Ee Hne _. cbn [wf_json].
    now apply (scanned_float_lexeme s integer frac exp r1 r2 r3).
  - reflexivity.
  - reflexivity.
  - reflexivity.
  - intros s value rest s2 D IH E Hu. cbn [forallb]. now rewrite (IH Hu).
  - intros s value rest s2 values rest' D IH E D' IH' Hu. cbn [forallb].
    rewrite (IH Hu). apply IH'.
    apply unicode_text_ws. apply (unicode_text_after_ws _ _ _ E).
    apply (unicode_text_eats s); [|assumption]. now apply (proj1 scanned_eats) in D.
  - intros s key r0 r1 value r2 r3 Es E0 D IH E2 Hu. cbn [forallb fst snd].
    rewrite (scanstring_wf _ _ _ Es Hu). rewrite IH; [reflexivity|].
    apply unicode_text_ws. apply (unicode_text_after_ws _ _ _ E0).
    apply (unicode_text_eats s); [|assumption]. now apply eats_string in Es.
  - intros s key r0 r1 value r2 r3 r4 pairs rest Es E0 D IH E2 E3 D' IH' Hu.
    cbn [forallb fst snd].
    assert (Hu1 : unicode_text (skip_ws r1) = true).
    { apply unicode_text_ws. apply (unicode_text_after_ws _ _ _ E0).
      apply (unicode_text_eats s); [|assumption]. now apply eats_string in Es. }
    rewrite (scanstring_wf _ _ _ Es Hu), (IH Hu1). apply IH'.
    apply (unicode_text_after_ws _ _ _ E3). apply (unicode_text_after_ws _ _ _ E2).
    apply (unicode_text_eats (skip_ws r1)); [|assumption].
    now apply (proj1 scanned_eats) in D.
Qed.

(** Every document [json.loads] returns from a Unicode text is well formed. *)
Lemma json_loads_wf (s : pystr) (o : json) :
  unicode_text s = true -> json_loads s = Ok o -> wf_json o = true.
Proof.
  intros Hu H. apply json_loads_scanned in H as (rest & Hs & _).
  apply (proj1 scanned_wf) in Hs; [assumption|]. now apply unicode_text_ws.
Qed.

(** *** UTF-8 *)

Lemma ascii_text_cons (c : N) (s : pystr) :
  ascii_text (c :: s) = true -> (c < 128)%N /\ ascii_text s = true.
Proof.
  unfold ascii_text. simpl. intro H. apply andb_prop in H as [H1 H2].
  apply N.ltb_lt in H1. auto.
Qed.

(** ASCII text is its own UTF-8 encoding. *)
Lemma utf8_encode_ascii (s : pystr) : ascii_text s = true -> utf8_encode s = Some s.
Proof.
  induction s as [|c s IH]; intro H; [reflexivity|].
  apply ascii_text_cons in H as [Hc Hs]. cbn [utf8_encode].
  apply N.ltb_lt in Hc. rewrite Hc, (IH Hs). reflexivity.
Qed.

Lemma utf8_decode_ascii (s : pystr) : ascii_text s = true -> utf8_decode s = Some s.
Proof.
  induction s as [|c s IH]; intro H; [reflexivity|].
  apply ascii_text_cons in H as [Hc Hs]. cbn [utf8_decode].
  apply N.ltb_lt in Hc. rewrite Hc, (IH Hs). reflexivity.
Qed.

Lemma ascii_is_scalar (c : N) : (c < 128)%N -> is_scalar c = true.
Proof.
  intro H. unfold is_scalar, is_surrogate.
  apply andb_true_intro. split; [apply N.ltb_lt; lia|].
  apply negb_true_iff, andb_false_iff. left. apply N.leb_gt. lia.
Qed.

Lemma ascii_text_unicode (s : pystr) : ascii_text s = true -> unicode_text s = true.
Proof.
  induction s as [|c s IH]; intro H; [reflexivity|].
  apply ascii_text_cons in H as [Hc Hs]. unfold unicode_text. simpl.
  rewrite (ascii_is_scalar c Hc). exact (IH Hs).
Qed.

Lemma is_scalar_intro (c : N) :
  (c < 1114112)%N -> (c < 55296 \/ 57343 < c)%N -> is_scalar c = true.
Proof.
  intros H1 H2. unfold is_scalar, is_surrogate.
  apply andb_true_intro. split; [now apply N.ltb_lt|].
  apply negb_true_iff, andb_false_iff.
  destruct H2 as [H2|H2]; [left|right]; apply N.leb_gt; lia.
Qed.

Lemma unicode_text_intro (c : N) (r : option pystr) (s : pystr) :
  is_scalar c = true ->
  (forall s', r = Some s' -> unicode_text s' = true) ->
  option_map (cons c) r = Some s -> unicode_text s = true.
Proof.
  intros Hc Hr H. destruct r as [s'|]; [|discriminate].
  injection H as <-. unfold unicode_text. simpl. rewrite Hc. now apply Hr.
Qed.

(** What [bytes.decode('utf-8')] returns holds Unicode scalar values only. *)
Lemma utf8_decode_unicode_aux (n : nat) : forall b s,
  (length b <= n)%nat -> utf8_decode b = Some s -> unicode_text s = true.
Proof.
  induction n as [|n IH]; intros b s Hn H.
  - destruct b; [now injection H as <-|simpl in Hn; lia].
  - destruct b as [|b0 r0]; [now injection H as <-|].
    simpl in Hn. cbn [utf8_decode] in H.
    destruct (N.ltb_spec b0 128) as [H0|H0].
    { apply (unicode_text_intro _ _ _ (ascii_is_scalar b0 H0)) in H; [assumption|].
      intros s' Hs'. apply (IH r0); [lia|assumption]. }
    destruct (N.ltb_spec b0 194) as [H1|H1]; [discriminate|].
    destruct (N.ltb_spec b0 224) as [H2|H2].
    { destruct r0 as [|b1 r1]; [discriminate|]. simpl in Hn.
      destruct (is_cont b1) eqn:E1; [|discriminate].
      unfold is_cont in E1. apply andb_prop in E1 as [Ha Hb]. apply N.leb_le in Ha, Hb.
      apply unicode_text_intro in H; [assumption| |].
      - apply is_scalar_intro; lia.
      - intros s' Hs'. apply (IH r1); [lia|assumption]. }
    destruct (N.ltb_spec b0 240) as [H3|H3].
    { destruct r0 as [|b1 [|b2 r2]]; try discriminate. simpl in Hn.
      destruct (is_cont b1 && is_cont b2 && negb ((b0 =? 224)%N && (b1 <? 160)%N)
                && negb ((b0 =? 237)%N && (160 <=? b1)%N)) eqn:E; [|discriminate].
      apply andb_prop in E as [E E4]. apply andb_prop in E as [E E3].
      apply andb_prop in E as [E1 E2].
      unfold is_cont in E1, E2.
      apply andb_prop in E1 as [Ha Hb]. apply N.leb_le in Ha, Hb.
      apply andb_prop in E2 as [Hc Hd]. apply N.leb_le in Hc, Hd.
      apply negb_true_iff, andb_false_iff in E4.
      apply unicode_text_intro in H; [assumption| |].
      - apply is_scalar_intro; [lia|].
        destruct (N.eq_dec b0 237) as [->|Hne].
        + left. destruct E4 as [E4|E4]; [discriminate|]. apply N.leb_gt in E4. lia.
        + assert (b0 < 237 \/ 237 < b0)%N as [Hlt|Hgt] by lia; [left|right]; lia.
      - intros s' Hs'. apply (IH r2); [lia|assumption]. }
    destruct (N.ltb_spec b0 245) as [H4|H4]; [|discriminate].
    destruct r0 as [|b1 [|b2 [|b3 r3]]]; try discriminate. simpl in Hn.
    destruct (is_cont b1 && is_cont b2 && is_cont b3
              && negb ((b0 =? 240)%N && (b1 <? 144)%N)
              && negb ((b0 =? 244)%N && (144 <=? b1)%N)) eqn:E; [|discriminate].
    apply andb_prop in E as [E E5]. apply andb_prop in E as [E E4].
    apply andb_prop in E as [E E3]. apply andb_prop in E as [E1 E2].
    unfold is_cont in E1, E2, E3.
    apply andb_prop in E1 as [Ha Hb]. apply N.leb_le in Ha, Hb.
    apply andb_prop in E2 as [Hc Hd]. apply N.leb_le in Hc, Hd.
    apply andb_prop in E3 as [He Hf]. apply N.leb_le in He, Hf.
    apply negb_true_iff, andb_false_iff in E5.
    apply negb_true_iff, andb_false_iff in E4.
    apply unicode_text_intro in H; [assumption| |].
    + apply is_scalar_intro.
      * destruct (N.eq_dec b0 244) as [->|Hne].
        -- destruct E5 as [E5|E5]; [discriminate|]. apply N.leb_gt in E5. lia.
        -- lia.
      * right. destruct (N.eq_dec b0 240) as [->|Hne].
        -- destruct E4 as [E4|E4]; [discriminate|]. apply N.ltb_ge in E4. lia.
        -- lia.
    + intros s' Hs'. apply (IH r3); [lia|assumption].
Qed.

Lemma utf8_decode_unicode (b : pybytes) (s : pystr) :
  utf8_decode b = Some s -> unicode_text s = true.
Proof. apply (utf8_decode_unicode_aux (length b)). lia. Qed.

(** *** json.dumps writes ASCII *)

Lemma ascii_text_app (a b : pystr) :
  ascii_text (a ++ b) = ascii_text a && ascii_text b.
Proof. apply forallb_app. Qed.

Lemma ascii_text_Forall (s : pystr) :
  Forall (fun c => (c < 128)%N) s -> ascii_text s = true.
Proof.
  induction 1 as [|c s Hc _ IH]; [reflexivity|].
  unfold ascii_text. simpl. apply N.ltb_lt in Hc. now rewrite Hc.
Qed.

Lemma hexdigit_ascii (n : N) : (n < 16)%N -> (hexdigit n < 128)%N.
Proof. unfold hexdigit. destruct (n <? 10)%N; lia. Qed.

Lemma uXXXX_ascii (c : N) : (c < 65536)%N -> ascii_text (uXXXX c) = true.
Proof.
  intro H. unfold uXXXX. apply ascii_text_Forall.
  constructor; [lia|]. constructor; [lia|].
  constructor; [apply hexdigit_ascii; now apply N.Div0.div_lt_upper_bound|].
  constructor; [apply hexdigit_ascii; apply N.mod_lt; discriminate|].
  constructor; [apply hexdigit_ascii; apply N.mod_lt; discriminate|].
  constructor; [apply hexdigit_ascii; apply N.mod_lt; discriminate|].
  constructor.
Qed.

Lemma escape_ascii_ascii (c : N) : (c < 1114112)%N -> ascii_text (escape_ascii c) = true.
Proof.
  intro Hc. destruct (escape_ascii_shape c Hc) as [esc Hu Hb|H1 H2 H3 H4|Hlt|hi lo _ _ Hh Hl _].
  - apply ascii_text_Forall. constructor; [lia|]. constructor; [|constructor].
    unfold backslash in Hb.
    repeat match type of Hb with
           | context [if (?x =? ?y)%N then _ else _] =>
               destruct (N.eqb_spec x y); [subst; lia|]
           end.
    discriminate.
  - apply ascii_text_Forall. constructor; [lia|constructor].
  - now apply uXXXX_ascii.
  - rewrite ascii_text_app, !uXXXX_ascii by assumption. reflexivity.
Qed.

Lemma wf_pystr_tail (c : N) (s : pystr) :
  wf_pystr (c :: s) = true -> (c < 1114112)%N /\ wf_pystr s = true.
Proof.
  cbn [wf_pystr]. intro H. apply andb_prop in H as [H Hs]. apply andb_prop in H as [Hc _].
  apply N.ltb_lt in Hc. auto.
Qed.

Lemma encode_basestring_ascii_ascii (s : pystr) :
  wf_pystr s = true -> ascii_text (encode_basestring_ascii s) = true.
Proof.
  intro Hwf. unfold encode_basestring_ascii.
  change (34%N :: flat_map escape_ascii s ++ [34%N])
    with ([34%N] ++ flat_map escape_ascii s ++ [34%N]).
  rewrite !ascii_text_app. simpl (ascii_text [34%N]). rewrite andb_true_r. cbn [andb].
  induction s as [|c s IH]; [reflexivity|].
  apply wf_pystr_tail in Hwf as [Hc Hs]. cbn [flat_map].
  now rewrite ascii_text_app, (escape_ascii_ascii c Hc), (IH Hs).
Qed.

Lemma digits_ascii (ds : pystr) :
  Forall (fun c => is_digit c = true) ds -> ascii_text ds = true.
Proof.
  intro H. apply ascii_text_Forall. eapply Forall_impl; [|exact H].
  intros c Hc. unfold is_digit in Hc. apply andb_prop in Hc as [_ Hc].
  apply N.leb_le in Hc. lia.
Qed.

Lemma int_repr_ascii (n : Z) : ascii_text (int_repr n) = true.
Proof.
  destruct n as [|p|p]; [reflexivity| |]; unfold int_repr.
  - apply digits_ascii, digits_of_uint_digits.
  - change (45%N :: digits_of_uint (Pos.to_uint p))
      with ([45%N] ++ digits_of_uint (Pos.to_uint p)).
    rewrite ascii_text_app. simpl (ascii_text [45%N]). cbn [andb].
    apply digits_ascii, digits_of_uint_digits.
Qed.

Lemma match_integer_ascii (s integer r : pystr) :
  match_integer s = Some (integer, r) -> ascii_text integer = true.
Proof.
  intro H. apply match_integer_self in H.
  unfold match_integer in H.
  assert (Hgen : forall sign s1,
    ascii_text sign = true ->
    match s1 with
    | [] => None
    | c :: s2 =>
        if (c =? 48)%N then Some (sign ++ [c], s2)
        else if is_digit c then let (ds, r) := span_digits s2 in Some (sign ++ c :: ds, r)
        else None
    end = Some (integer, @nil N) -> ascii_text integer = true).
  { intros sign s1 Hsign H1. destruct s1 as [|c s2]; [discriminate|].
    destruct (c =? 48)%N eqn:E0.
    - injection H1 as <- _. apply N.eqb_eq in E0. subst c.
      rewrite ascii_text_app, Hsign. reflexivity.
    - destruct (is_digit c) eqn:Ed; [|discriminate].
      destruct (span_digits s2) as [ds r'] eqn:Es. injection H1 as <- _.
      apply span_digits_spec in Es as (_ & Hds & _).
      rewrite ascii_text_app, Hsign. cbn [andb].
      apply (digits_ascii (c :: ds)). now constructor. }
  destruct integer as [|c s']; [reflexivity|].
  destruct (c =? 45)%N eqn:Em.
  - apply (Hgen [45%N] s'); [reflexivity|exact H].
  - apply (Hgen [] (c :: s')); [reflexivity|exact H].
Qed.

Lemma match_frac_ascii (s frac r : pystr) :
  match_frac s = (frac, r) -> ascii_text frac = true.
Proof.
  unfold match_frac. destruct s as [|c s1]; [now intros [= <- <-]|].
  destruct (c =? 46)%N eqn:E; [|now intros [= <- <-]].
  destruct (span_digits s1) as [ds r'] eqn:Es.
  apply span_digits_spec in Es as (_ & Hds & _).
  destruct ds as [|d ds]; intros [= <- <-]; [reflexivity|].
  apply N.eqb_eq in E. subst c.
  change (46%N :: d :: ds) with ([46%N] ++ d :: ds).
  rewrite ascii_text_app. simpl (ascii_text [46%N]). cbn [andb].
  now apply digits_ascii.
Qed.

Lemma match_exp_ascii (s exp r : pystr) :
  match_exp s = (exp, r) -> ascii_text exp = true.
Proof.
  unfold match_exp. destruct s as [|c s1]; [now intros [= <- <-]|].
  destruct ((c =? 101) || (c =? 69))%N eqn:E; [|now intros [= <- <-]].
  assert (Hc : (c < 128)%N).
  { apply orb_prop in E as [E|E]; apply N.eqb_eq in E; subst; lia. }
  assert (Hgen : forall sign s2,
    ascii_text sign = true ->
    match span_digits s2 with
    | ([], _) => ([], c :: s1)
    | ((_ :: _) as ds, r) => (c :: sign ++ ds, r)
    end = (exp, r) -> ascii_text exp = true).
  { intros sign s2 Hsign H. destruct (span_digits s2) as [ds r'] eqn:Es.
    apply span_digits_spec in Es as (_ & Hds & _).
    destruct ds as [|d ds]; injection H as <- <-; [reflexivity|].
    change (c :: sign ++ d :: ds) with ([c] ++ sign ++ d :: ds).
    rewrite !ascii_text_app, Hsign, (digits_ascii _ Hds), !andb_true_r.
    unfold ascii_text. simpl. apply N.ltb_lt in Hc. now rewrite Hc. }
  destruct s1 as [|d s1'].
  - simpl. now intros [= <- <-].
  - destruct ((d =? 45) || (d =? 43))%N eqn:Ed.
    + apply (Hgen [d] s1').
      apply orb_prop in Ed as [Ed|Ed]; apply N.eqb_eq in Ed; subst; reflexivity.
    + apply (Hgen [] (d :: s1')). reflexivity.
Qed.

Lemma float_lexeme_ascii (l : pystr) : is_float_lexeme l = true -> ascii_text l = true.
Proof.
  intro H. destruct (is_float_lexeme_spec l H) as (i & f & e & -> & _ & Hi & Hf & He).
  rewrite !ascii_text_app.
  now rewrite (match_integer_ascii _ _ _ Hi), (match_frac_ascii _ _ _ Hf),
    (match_exp_ascii _ _ _ He).
Qed.

Lemma newline_indent_ascii (indent : option nat) (level : nat) :
  ascii_text (newline_indent indent level) = true.
Proof.
  destruct indent as [width|]; [|reflexivity]. unfold newline_indent.
  change (10%N :: repeat 32%N (width * level)) with ([10%N] ++ repeat 32%N (width * level)).
  rewrite ascii_text_app. simpl (ascii_text [10%N]). cbn [andb].
  induction (width * level)%nat as [|n IH]; [reflexivity|exact IH].
Qed.

Lemma item_separator_ascii (indent : option nat) : ascii_text (item_separator indent) = true.
Proof. destruct indent; reflexivity. Qed.

(** The text [json.dumps] writes (with [ensure_ascii], the default) is ASCII. *)
Lemma iterencode_ascii (indent : option nat) (o : json) :
  wf_json o = true -> forall level, ascii_text (iterencode indent level o) = true.
Proof.
  induction o as [|b|n|l| | | |s|items IH|items IH] using json_nested_ind;
    intros Hwf level; cbn [iterencode].
  - reflexivity.
  - destruct b; reflexivity.
  - apply int_repr_ascii.
  - now apply float_lexeme_ascii.
  - reflexivity.
  - reflexivity.
  - reflexivity.
  - now apply encode_basestring_ascii_ascii.
  - destruct items as [|x xs]; [reflexivity|].
    cbn [wf_json] in Hwf.
    pose proof (forallb_Forall_wf
                  (fun o => forall level, ascii_text (iterencode indent level o) = true)
                  (x :: xs) Hwf IH) as Hall.
    inversion Hall as [|? ? [Hx Ax] Hxs]; subst.
    change (91%N :: ?t) with ([91%N] ++ t).
    rewrite !ascii_text_app, !newline_indent_ascii, (Ax (S level)).
    simpl (ascii_text [91%N]). simpl (ascii_text [93%N]). rewrite andb_true_r. cbn [andb].
    clear -Hxs. induction Hxs as [|y ys [Hy Ay] _ IHys]; [reflexivity|].
    cbn [flat_map].
    now rewrite !ascii_text_app, item_separator_ascii, newline_indent_ascii,
      (Ay (S level)), IHys.
  - destruct items as [|[k v] kvs]; [reflexivity|].
    cbn [wf_json] in Hwf. apply andb_prop in Hwf as [Hwf _].
    pose proof (forallb_Forall_wf_pairs
                  (fun o => forall level, ascii_text (iterencode indent level o) = true)
                  ((k, v) :: kvs) Hwf IH) as Hall.
    inversion Hall as [|? ? (Hk & Hv & Av) Hkvs]; subst. cbn [fst snd] in *.
    change (123%N :: ?t) with ([123%N] ++ t).
    rewrite !ascii_text_app, !newline_indent_ascii, (Av (S level)),
      (encode_basestring_ascii_ascii k Hk).
    simpl (ascii_text [123%N]). simpl (ascii_text [125%N]).
    simpl (ascii_text key_separator). rewrite andb_true_r. cbn [andb].
    clear -Hkvs. induction Hkvs as [|[k' v'] ys (Hk' & Hv' & Av') _ IHys]; [reflexivity|].
    cbn [flat_map fst snd] in *.
    now rewrite !ascii_text_app, item_separator_ascii, newline_indent_ascii,
      (encode_basestring_ascii_ascii k' Hk'), (Av' (S level)), IHys.
Qed.

(* ================================================================== *)
(** ** Upload and export *)

(** A successful upload carries the name of its file. *)
Lemma upload_try_filename (f : UploadedFile) (st : Store) (w : World)
  (done : successful_upload) (st' : Store) :
  upload_try f st w = (Ok done, st') -> ok_filename done = name f.
Proof.
  unfold upload_try.
  destruct (utf8_decode (getvalue f)) as [text|]; [|discriminate].
  destruct (json_loads text) as [schema|e]; [|discriminate].
  destruct (save_schema _ schema st w) as [[id|e] st1]; [|discriminate].
  now intros [= <- _].
Qed.

(** The loop gives every file exactly one entry, in one list or the other. *)
Lemma upload_loop_accounts (uploaded_files : list UploadedFile) :
  forall successful failed st w successful' failed' st',
  upload_loop uploaded_files successful failed st w = (successful', failed', st') ->
  exists more_ok more_failed,
    successful' = successful ++ more_ok /\ failed' = failed ++ more_failed /\
    (length more_ok + length more_failed = length uploaded_files)%nat /\
    forall f, In f uploaded_files ->
      In (name f) (map ok_filename more_ok) \/
      In (name f) (map failed_filename more_failed).
Proof.
  induction uploaded_files as [|f files IH];
    intros successful failed st w successful' failed' st' H.
  - injection H as <- <- <-.
    exists [], []. rewrite !app_nil_r. repeat split. intros f [].
  - cbn [upload_loop] in H.
    destruct (upload_try f st w) as [[done|e] st1] eqn:Et.
    + apply IH in H as (ok2 & bad2 & -> & -> & Hlen & Hin).
      exists (done :: ok2), bad2. rewrite <- app_assoc.
      split; [reflexivity|]. split; [reflexivity|]. split; [simpl; lia|].
      intros g [<-|Hg].
      * left. left. now apply upload_try_filename in Et.
      * destruct (Hin g Hg) as [Ho|Hb]; [left; now right|now right].
    + assert (Hfail : exists err,
        upload_loop files successful (failed ++ [mkFailedUpload (name f) err]) st1 w
        = (successful', failed', st')).
      { destruct e; eexists; exact H. }
      destruct Hfail as (err & H').
      apply IH in H' as (ok2 & bad2 & -> & -> & Hlen & Hin).
      exists ok2, (mkFailedUpload (name f) err :: bad2). rewrite <- app_assoc.
      split; [reflexivity|]. split; [reflexivity|]. split; [simpl; lia|].
      intros g [<-|Hg].
      * right. now left.
      * destruct (Hin g Hg) as [Ho|Hb]; [now left|right; now right].
Qed.

Lemma has_id_app (id : pystr) (a b : list schema_row) :
  has_id id (a ++ b) = has_id id a || has_id id b.
Proof. unfold has_id. apply existsb_app. Qed.

(** One file whose content is a JSON document, uploaded with a fresh
    identifier. *)
Lemma upload_try_ok (f : UploadedFile) (text : pystr) (schema : json) (st : Store)
  (w : World) :
  utf8_decode (getvalue f) = Some text ->
  json_loads text = Ok schema ->
  has_id (uuid4 st (drawn st)) (rows st) = false ->
  upload_try f st w =
  (Ok (mkSuccessfulUpload (name f) (uuid4 st (drawn st)) schema),
   mkStore (rows st ++ [mkRow (uuid4 st (drawn st)) (str "Uploaded: " ++ name f)
                          (json_dumps None schema) (clock w)])
     (uuid4 st) (S (drawn st))).
Proof.
  intros Hd Hl Hid. unfold upload_try, save_schema, draw_uuid, db_insert, set_rows.
  rewrite Hd, Hl. cbn [rows uuid4 drawn row_id]. rewrite Hid. reflexivity.
Qed.

(** One file whose content is not a JSON document. *)
Lemma upload_try_bad (f : UploadedFile) (st : Store) (w : World) :
  (forall text schema, utf8_decode (getvalue f) = Some text -> json_loads text <> Ok schema) ->
  upload_try f st w = (Raise JSONDecodeError, st) \/
  upload_try f st w = (Raise UnicodeDecodeError, st).
Proof.
  intro Hbad. unfold upload_try.
  destruct (utf8_decode (getvalue f)) as [text|] eqn:Hd; [|now right].
  destruct (json_loads text) as [schema|e] eqn:Hl.
  - exfalso. exact (Hbad text schema eq_refl Hl).
  - left. now rewrite (json_loads_raises _ Hl).
Qed.

(** C7.  Every batch gives each of its files exactly one entry, among the
    successful uploads or among the failed ones, under the file's name.  In a
    batch of three files of which the first and third hold JSON documents
    and the second does not, the first and third are inserted (with the
    identifiers drawn for them, which the table does not hold yet), and the
    one failure reported names the second file. *)
Theorem upload_batch_isolates_bad_file :
  (forall uploaded_files st w successful failed st' w',
     _upload_schema_files uploaded_files st w = (successful, failed, st', w') ->
     (length successful + length failed = length uploaded_files)%nat /\
     forall f, In f uploaded_files ->
       In (name f) (map ok_filename successful) \/
       In (name f) (map failed_filename failed)) /\
  (forall (f1 f2 f3 : UploadedFile) (text1 text3 : pystr) (schema1 schema3 : json)
          (st : Store) (w : World),
     utf8_decode (getvalue f1) = Some text1 -> json_loads text1 = Ok schema1 ->
     utf8_decode (getvalue f3) = Some text3 -> json_loads text3 = Ok schema3 ->
     (forall text2 schema2,
        utf8_decode (getvalue f2) = Some text2 -> json_loads text2 <> Ok schema2) ->
     let id1 := uuid4 st (drawn st) in
     let id3 := uuid4 st (S (drawn st)) in
     has_id id1 (rows st) = false ->
     has_id id3 (rows st) = false ->
     pystr_eqb id1 id3 = false ->
     exists error2,
       (error2 = InvalidJSONFormat \/ error2 = ExceptionText UnicodeDecodeError) /\
       _upload_schema_files [f1; f2; f3] st w =
       ([mkSuccessfulUpload (name f1) id1 schema1;
         mkSuccessfulUpload (name f3) id3 schema3],
        [mkFailedUpload (name f2) error2],
        mkStore
          (rows st
           ++ [mkRow id1 (str "Uploaded: " ++ name f1) (json_dumps None schema1) (clock w);
               mkRow id3 (str "Uploaded: " ++ name f3) (json_dumps None schema3) (clock w)])
          (uuid4 st) (S (S (drawn st))),
        mkWorld (clock w)
          (trace w
           ++ [EvStSuccess (UploadedSuccessfully 2);
               EvStSubheader (name f1) id1; EvStJson schema1;
               EvStSubheader (name f3) id3; EvStJson schema3;
               EvStWarning (FailedToUpload 1);
               EvStError (FileError (name f2) error2)]))).
Proof.
  split.
  - intros files st w successful failed st' w' H. unfold _upload_schema_files in H.
    destruct (upload_loop files [] [] st w) as [[ok bad] st1] eqn:El.
    injection H as <- <- <- <-.
    apply upload_loop_accounts in El as (ok2 & bad2 & -> & -> & Hlen & Hin).
    simpl. auto.
  - intros f1 f2 f3 text1 text3 schema1 schema3 st w Hd1 Hl1 Hd3 Hl3 Hbad id1 id3
      Hid1 Hid3 Hne.
    subst id1 id3.
    assert (Hid3' : has_id (uuid4 st (S (drawn st)))
              (rows st ++ [mkRow (uuid4 st (drawn st)) (str "Uploaded: " ++ name f1)
                             (json_dumps None schema1) (clock w)]) = false).
    { rewrite has_id_app, Hid3. unfold has_id. simpl. now rewrite Hne. }
    unfold _upload_schema_files. cbn [upload_loop].
    rewrite (upload_try_ok f1 text1 schema1 st w Hd1 Hl1 Hid1).
    match goal with |- context [upload_try f2 ?s w] => set (st1 := s) in * end.
    destruct (upload_try_bad f2 st1 w Hbad) as [E2|E2];
      rewrite E2;
      rewrite (upload_try_ok f3 text3 schema3 st1 w Hd3 Hl3 Hid3');
      subst st1;
      eexists; (split; [|cbn [rows uuid4 drawn app]; rewrite <- app_assoc; reflexivity]);
      auto.
Qed.

Lemma upload_batch_isolates_bad_file_witness :
  exists error2,
    (error2 = InvalidJSONFormat \/ error2 = ExceptionText UnicodeDecodeError) /\
    _upload_schema_files
      [mkUploadedFile (str "one.json") example_raw_text;
       mkUploadedFile (str "two.json") (str "not json at all");
       mkUploadedFile (str "three.json") (str "[1, 2]")]
      (mkStore [] (fun n => [N.of_nat n]) 0) (mkWorld 5 []) =
    ([mkSuccessfulUpload (str "one.json") [0%N] example_document;
      mkSuccessfulUpload (str "three.json") [1%N] (JList [JInt 1; JInt 2])],
     [mkFailedUpload (str "two.json") error2],
     mkStore
       ([] ++ [mkRow [0%N] (str "Uploaded: " ++ str "one.json")
                 (json_dumps None example_document) 5;
               mkRow [1%N] (str "Uploaded: " ++ str "three.json")
                 (json_dumps None (JList [JInt 1; JInt 2])) 5])
       (fun n => [N.of_nat n]) 2,
     mkWorld 5
       ([] ++ [EvStSuccess (UploadedSuccessfully 2);
               EvStSubheader (str "one.json") [0%N]; EvStJson example_document;
               EvStSubheader (str "three.json") [1%N]; EvStJson (JList [JInt 1; JInt 2]);
               EvStWarning (FailedToUpload 1);
               EvStError (FileError (str "two.json") error2)])).
Proof.
  apply (proj2 upload_batch_isolates_bad_file
           (mkUploadedFile (str "one.json") example_raw_text)
           (mkUploadedFile (str "two.json") (str "not json at all"))
           (mkUploadedFile (str "three.json") (str "[1, 2]"))
           example_raw_text (str "[1, 2]") example_document (JList [JInt 1; JInt 2])
           (mkStore [] (fun n => [N.of_nat n]) 0) (mkWorld 5 [])).
  - vm_compute. reflexivity.
  - vm_compute. reflexivity.
  - vm_compute. reflexivity.
  - vm_compute. reflexivity.
  - intros text2 schema2 Hd. vm_compute in Hd. injection Hd as <-.
    vm_compute. discriminate.
  - vm_compute. reflexivity.
  - vm_compute. reflexivity.
  - vm_compute. reflexivity.
Defined.

(** The exported text is ASCII, so the bytes the browser saves are the text
    itself, and decoding and loading them gives the document back. *)
Lemma reimport_export (payload : json) :
  wf_json payload = true ->
  downloaded_bytes (json_dumps (Some 2%nat) payload) = Some (json_dumps (Some 2%nat) payload) /\
  utf8_decode (json_dumps (Some 2%nat) payload) = Some (json_dumps (Some 2%nat) payload) /\
  json_loads (json_dumps (Some 2%nat) payload) = Ok payload.
Proof.
  intro Hwf.
  pose proof (iterencode_ascii (Some 2%nat) payload Hwf 0%nat) as Ha.
  split; [apply utf8_encode_ascii, Ha|].
  split; [apply utf8_decode_ascii, Ha|].
  now apply json_loads_dumps.
Qed.

(** C8.  Let [payload] be a stored document: it was loaded by [json.loads]
    from a Unicode text (a decoded upload, or the text of a response), and
    the row [record_id] holds [json.dumps(payload)].  The record details
    offer it for download as [json.dumps(payload, indent=2)]; uploading the
    bytes of that download as a file makes one successful upload whose
    document is [payload], stored under the same JSON text as the original
    row. *)
Theorem export_then_upload_round_trip (text : pystr) (payload : json)
  (record_id filename : pystr) (st st2 : Store) (w w2 : World) :
  unicode_text text = true ->
  json_loads text = Ok payload ->
  record_id <> [] ->
  db_select_schema record_id (rows st) = Some (json_dumps None payload) ->
  has_id (uuid4 st2 (drawn st2)) (rows st2) = false ->
  exists data bytes,
    data = json_dumps (Some 2%nat) payload /\
    view_record_details record_id st w =
      Ok (emit (EvDownloadButton data (str "schema_" ++ record_id ++ str ".json"))
            (emit (EvStJson payload) w)) /\
    downloaded_bytes data = Some bytes /\
    (utf8_decode bytes = Some data /\ json_loads data = Ok payload) /\
    _upload_schema_files [mkUploadedFile filename bytes] st2 w2 =
      ([mkSuccessfulUpload filename (uuid4 st2 (drawn st2)) payload],
       [],
       mkStore
         (rows st2 ++ [mkRow (uuid4 st2 (drawn st2)) (str "Uploaded: " ++ filename)
                         (json_dumps None payload) (clock w2)])
         (uuid4 st2) (S (drawn st2)),
       mkWorld (clock w2)
         (trace w2 ++ [EvStSuccess (UploadedSuccessfully 1);
                       EvStSubheader filename (uuid4 st2 (drawn st2));
                       EvStJson payload])).
Proof.
  intros Hu Hl Hid Hsel Hfresh.
  pose proof (json_loads_wf text payload Hu Hl) as Hwf.
  destruct (reimport_export payload Hwf) as (Hbytes & Hdec & Hload).
  exists (json_dumps (Some 2%nat) payload), (json_dumps (Some 2%nat) payload).
  split; [reflexivity|]. split; [|split; [exact Hbytes|split; [split; assumption|]]].
  - unfold view_record_details. destruct record_id as [|c record_id]; [congruence|].
    rewrite Hsel, (json_loads_dumps None payload Hwf). reflexivity.
  - unfold _upload_schema_files. cbn [upload_loop].
    rewrite (upload_try_ok (mkUploadedFile filename (json_dumps (Some 2%nat) payload))
               (json_dumps (Some 2%nat) payload) payload st2 w2 Hdec Hload Hfresh).
    reflexivity.
Qed.

Lemma export_then_upload_round_trip_witness :
  exists data bytes,
    data = json_dumps (Some 2%nat) example_document /\
    view_record_details (str "r1")
      (mkStore [mkRow (str "r1") (str "a user table") (json_dumps None example_document) 1]
         (fun n => [N.of_nat n]) 0)
      (mkWorld 5 []) =
      Ok (emit (EvDownloadButton data (str "schema_" ++ str "r1" ++ str ".json"))
            (emit (EvStJson example_document) (mkWorld 5 []))) /\
    downloaded_bytes data = Some bytes /\
    (utf8_decode bytes = Some data /\ json_loads data = Ok example_document) /\
    _upload_schema_files [mkUploadedFile (str "copy.json") bytes]
      (mkStore [] (fun n => [N.of_nat n]) 0) (mkWorld 9 []) =
      ([mkSuccessfulUpload (str "copy.json") [0%N] example_document],
       [],
       mkStore
         ([] ++ [mkRow [0%N] (str "Uploaded: " ++ str "copy.json")
                   (json_dumps None example_document) 9])
         (fun n => [N.of_nat n]) 1,
       mkWorld 9
         ([] ++ [EvStSuccess (UploadedSuccessfully 1);
                 EvStSubheader (str "copy.json") [0%N];
                 EvStJson example_document])).
Proof.
  apply (export_then_upload_round_trip example_raw_text example_document
           (str "r1") (str "copy.json")
           (mkStore [mkRow (str "r1") (str "a user table")
                       (json_dumps None example_document) 1]
              (fun n => [N.of_nat n]) 0)
           (mkStore [] (fun n => [N.of_nat n]) 0)
           (mkWorld 5 []) (mkWorld 9 [])).
  - vm_compute. reflexivity.
  - vm_compute. reflexivity.
  - discriminate.
  - vm_compute. reflexivity.
  - vm_compute. reflexivity.
Defined.

(* ================================================================== *)
(** * Further properties of the code *)

(* ================================================================== *)
(** ** The limiter over several calls *)

Lemma wait_calls_room (gaps : list Q) :
  forall (rl : RateLimiter) (w : World),
  (Z.of_nat (length (request_times rl) + length gaps) <= max_requests rl)%Z ->
  exists rl' w',
    wait_calls gaps rl w = (Ok tt, rl', w') /\
    max_requests rl' = max_requests rl /\ time_frame rl' = time_frame rl /\
    (length (request_times rl') <= length (request_times rl) + length gaps)%nat /\
    sleeps (trace w') = sleeps (trace w) /\
    clock w' = fold_left Qplus gaps (clock w).
Proof.
  induction gaps as [|d gaps IH]; intros rl w Hlen.
  - exists rl, w. cbn. repeat split; lia.
  - cbn [wait_calls].
    destruct (popleft_stale_suffix (clock (idle d w)) (time_frame rl) (request_times rl))
      as [evicted Hev].
    assert (Hkept : (length (popleft_stale (clock (idle d w)) (time_frame rl) (request_times rl))
                     <= length (request_times rl))%nat).
    { rewrite Hev at 2. rewrite length_app. lia. }
    rewrite wait_room by (cbn [length] in Hlen; lia).
    edestruct (IH (set_request_times rl
                     (popleft_stale (clock (idle d w)) (time_frame rl) (request_times rl)
                      ++ [clock (idle d w)]))
                 (mkWorld (clock (idle d w)) (trace (idle d w) ++ [EvLockAcquire; EvLockRelease])))
      as (rl' & w' & Hc & Hm & Hf & Hl & Hs & Hk).
    { cbn [set_request_times request_times max_requests]. rewrite length_app.
      cbn [length] in *. lia. }
    exists rl', w'. split; [exact Hc|].
    cbn [set_request_times request_times max_requests time_frame] in *.
    rewrite length_app in Hl. cbn [length] in *.
    split; [exact Hm|]. split; [exact Hf|]. split; [lia|]. split.
    + rewrite Hs. cbn [trace idle]. rewrite sleeps_app. cbn. apply app_nil_r.
    + rewrite Hk. reflexivity.
Qed.

(** X1.  On a limiter that has recorded nothing yet, the first
    [max_requests] calls of [wait] all return normally without sleeping,
    whatever the pauses between them: the clock only advances by the pauses,
    and the limits are left as they were. *)
Theorem fresh_limiter_admits_first_calls (limit : Z) (frame : Q) (gaps : list Q)
  (w : World) :
  (Z.of_nat (length gaps) <= limit)%Z ->
  exists rl' w',
    wait_calls gaps (RateLimiter_init limit frame) w = (Ok tt, rl', w') /\
    max_requests rl' = limit /\ time_frame rl' = frame /\
    (length (request_times rl') <= length gaps)%nat /\
    sleeps (trace w') = sleeps (trace w) /\
    clock w' = fold_left Qplus gaps (clock w).
Proof.
  intro H.
  destruct (wait_calls_room gaps (RateLimiter_init limit frame) w)
    as (rl' & w' & Hc & Hm & Hf & Hl & Hs & Hk); [exact H|].
  exists rl', w'. repeat split; assumption.
Qed.

Lemma fresh_limiter_admits_first_calls_witness :
  exists rl' w',
    wait_calls [0; 1; 1] (RateLimiter_init 3 60) (mkWorld 100 []) = (Ok tt, rl', w') /\
    max_requests rl' = 3%Z /\ time_frame rl' = 60 /\
    (length (request_times rl') <= length [0; 1; 1])%nat /\
    sleeps (trace w') = sleeps (trace (mkWorld 100 [])) /\
    clock w' = fold_left Qplus [0; 1; 1] (clock (mkWorld 100 [])).
Proof.
  apply (fresh_limiter_admits_first_calls 3 60 [0; 1; 1] (mkWorld 100 [])).
  simpl. lia.
Defined.

(** X2.  A limiter whose [max_requests] is zero or negative and whose deque
    is empty once the stale entries are gone cannot serve the call: line 45
    reads the left end of the empty deque.  [wait] raises IndexError, having
    taken and released the lock and recorded nothing; [generate_schema]
    turns this into its generic error and [None], and the generation service
    is not called. *)
Theorem wait_without_quota_raises (sg : SchemaGenerator) (prompt : pystr) (w : World) :
  (max_requests (rate_limiter sg) <= 0)%Z ->
  popleft_stale (clock w) (time_frame (rate_limiter sg))
    (request_times (rate_limiter sg)) = [] ->
  wait (rate_limiter sg) w =
    (Raise IndexError, set_request_times (rate_limiter sg) [],
     mkWorld (clock w) (trace w ++ [EvLockAcquire; EvLockRelease])) /\
  generate_schema sg prompt w =
    (JNone, set_rate_limiter sg (set_request_times (rate_limiter sg) []),
     mkWorld (clock w)
       (trace w ++ [EvLockAcquire; EvLockRelease;
                    EvStError (ErrorGenerating IndexError)])).
Proof.
  intros Hmax Hq.
  assert (Hw : wait (rate_limiter sg) w =
    (Raise IndexError, set_request_times (rate_limiter sg) [],
     mkWorld (clock w) (trace w ++ [EvLockAcquire; EvLockRelease]))).
  { unfold wait. cbv zeta. cbn [request_times set_request_times]. rewrite Hq.
    cbn [length]. destruct (Z.geb_spec (Z.of_nat 0) (max_requests (rate_limiter sg))) as [_|Hlt];
      [|cbn in Hlt; lia].
    unfold emit. cbn [clock trace]. now rewrite <- app_assoc. }
  split; [exact Hw|].
  unfold generate_schema, generate_schema_try. rewrite Hw.
  unfold emit. cbn [clock trace]. now rewrite <- app_assoc.
Qed.

Lemma wait_without_quota_raises_witness :
  wait (rate_limiter (mkSchemaGenerator (fun _ => ReplyText []) (RateLimiter_init 0 60)))
    (mkWorld 5 []) =
    (Raise IndexError,
     set_request_times
       (rate_limiter (mkSchemaGenerator (fun _ => ReplyText []) (RateLimiter_init 0 60))) [],
     mkWorld (clock (mkWorld 5 [])) (trace (mkWorld 5 []) ++ [EvLockAcquire; EvLockRelease])) /\
  generate_schema (mkSchemaGenerator (fun _ => ReplyText []) (RateLimiter_init 0 60))
    (str "a table") (mkWorld 5 []) =
    (JNone,
     set_rate_limiter (mkSchemaGenerator (fun _ => ReplyText []) (RateLimiter_init 0 60))
       (set_request_times
          (rate_limiter (mkSchemaGenerator (fun _ => ReplyText []) (RateLimiter_init 0 60))) []),
     mkWorld (clock (mkWorld 5 []))
       (trace (mkWorld 5 []) ++ [EvLockAcquire; EvLockRelease;
                                 EvStError (ErrorGenerating IndexError)])).
Proof.
  apply (wait_without_quota_raises
           (mkSchemaGenerator (fun _ => ReplyText []) (RateLimiter_init 0 60))
           (str "a table") (mkWorld 5 [])).
  - simpl. lia.
  - reflexivity.
Defined.

(* ------------------------------------------------------------------ *)

Lemma Qle_bool_true (a b : Q) : Qle_bool a b = true <-> a <= b.
Proof. apply Qle_bool_iff. Qed.

Lemma nondecreasing_cons (t0 : Q) (q : list Q) :
  nondecreasing (t0 :: q) = true <->
  Forall (fun x => t0 <= x) q /\ nondecreasing q = true.
Proof.
  cbn [nondecreasing]. rewrite andb_true_iff, forallb_forall, Forall_forall.
  split; intros [H1 H2]; (split; [|exact H2]); intros x Hx.
  - apply Qle_bool_true. now apply H1.
  - apply Qle_bool_true. now apply H1.
Qed.

Lemma nondecreasing_snoc (q : list Q) (t : Q) :
  nondecreasing q = true -> Forall (fun x => x <= t) q ->
  nondecreasing (q ++ [t]) = true.
Proof.
  induction q as [|t0 q IH]; intros Hs Hle; [reflexivity|].
  apply nondecreasing_cons in Hs as [Hh Hs].
  inversion Hle as [|? ? H0 Hle']; subst.
  change ((t0 :: q) ++ [t]) with (t0 :: (q ++ [t])).
  apply nondecreasing_cons. split; [|now apply IH].
  apply Forall_app. split; [exact Hh|]. now constructor.
Qed.

Lemma nondecreasing_drop (a b : list Q) :
  nondecreasing (a ++ b) = true -> nondecreasing b = true.
Proof.
  induction a as [|x a IH]; [trivial|].
  change ((x :: a) ++ b) with (x :: (a ++ b)).
  intro H. apply nondecreasing_cons in H as [_ H]. now apply IH.
Qed.

(** After the eviction loop, in a deque in the order of the clock, every
    entry is within the time frame. *)
Lemma popleft_stale_window (current_time frame : Q) (q : list Q) :
  nondecreasing q = true ->
  Forall (fun t => current_time - t <= frame)
    (popleft_stale current_time frame q).
Proof.
  intro Hs.
  destruct (popleft_stale_suffix current_time frame q) as [ev Hev].
  destruct (popleft_stale current_time frame q) as [|t0 kept] eqn:Hq; [constructor|].
  pose proof (popleft_stale_head current_time frame q Hq) as Hh.
  rewrite Hev in Hs. apply nondecreasing_drop in Hs.
  apply nondecreasing_cons in Hs as [Hall _].
  constructor; [exact Hh|].
  eapply Forall_impl; [|exact Hall]. cbn beta. intros x Hx. lra.
Qed.

(** What [wait] leaves in the deque and on the clock when it returns. *)
Lemma wait_returns (rl : RateLimiter) (w : World) (rl' : RateLimiter) (w' : World) :
  wait rl w = (Ok tt, rl', w') ->
  rl' = set_request_times rl
          (popleft_stale (clock w) (time_frame rl) (request_times rl) ++ [clock w]) /\
  (clock w' = clock w \/
   exists oldest rest,
     popleft_stale (clock w) (time_frame rl) (request_times rl) = oldest :: rest /\
     0 < time_frame rl - (clock w - oldest) /\
     clock w' = clock w + (time_frame rl - (clock w - oldest))).
Proof.
  unfold wait. cbv zeta. cbn [request_times set_request_times max_requests time_frame].
  destruct (Z.of_nat _ >=? max_requests rl)%Z.
  - destruct (popleft_stale (clock w) (time_frame rl) (request_times rl))
      as [|oldest rest] eqn:Hq; [discriminate|].
    destruct (Qgt_bool (time_frame rl - (clock w - oldest)) 0) eqn:Hp.
    + intros [= <- <-]. split; [reflexivity|]. right.
      exists oldest, rest. split; [reflexivity|].
      split; [now apply Qgt_bool_true|reflexivity].
    + intros [= <- <-]. split; [reflexivity|]. now left.
  - intros [= <- <-]. split; [reflexivity|]. now left.
Qed.

(** X3.  With a clock that never runs behind the recorded times and a
    deque in the order of the clock, every entry [wait] leaves in the deque
    is at most one time frame older than the time read at entry; the deque
    is still in order and the clock, which [wait] may have advanced, is
    still not behind it. *)
Theorem wait_keeps_deque_in_window (rl : RateLimiter) (w : World)
  (rl' : RateLimiter) (w' : World) :
  0 <= time_frame rl ->
  nondecreasing (request_times rl) = true ->
  Forall (fun t => t <= clock w) (request_times rl) ->
  wait rl w = (Ok tt, rl', w') ->
  Forall (fun t => clock w - t <= time_frame rl) (request_times rl') /\
  nondecreasing (request_times rl') = true /\
  Forall (fun t => t <= clock w') (request_times rl').
Proof.
  intros Hf Hs Hle Hw.
  destruct (wait_returns rl w rl' w' Hw) as [-> Hclock].
  cbn [set_request_times request_times].
  destruct (popleft_stale_suffix (clock w) (time_frame rl) (request_times rl)) as [ev Hev].
  assert (Hkept_le : Forall (fun t => t <= clock w)
                       (popleft_stale (clock w) (time_frame rl) (request_times rl))).
  { rewrite Hev in Hle. now apply Forall_app in Hle. }
  assert (Hkept_s : nondecreasing
                      (popleft_stale (clock w) (time_frame rl) (request_times rl)) = true).
  { rewrite Hev in Hs. now apply nondecreasing_drop in Hs. }
  assert (Hadv : clock w <= clock w').
  { destruct Hclock as [-> | (oldest & rest & _ & Hp & ->)]; lra. }
  split; [|split].
  - apply Forall_app. split; [now apply popleft_stale_window|].
    constructor; [lra|constructor].
  - now apply nondecreasing_snoc.
  - apply Forall_app. split.
    + eapply Forall_impl; [|exact Hkept_le]. cbn beta. intros x Hx. lra.
    + constructor; [exact Hadv|constructor].
Qed.

Lemma wait_keeps_deque_in_window_witness :
  Forall (fun t => clock (mkWorld 70 []) - t <= time_frame (mkRateLimiter 2 60 [5; 20; 30]))
    (request_times (mkRateLimiter 2 60 [20; 30; 70])) /\
  nondecreasing (request_times (mkRateLimiter 2 60 [20; 30; 70])) = true /\
  Forall (fun t => t <= clock (mkWorld (70 + (60 - (70 - 20)))
                                 [EvLockAcquire; EvStWarning (RateLimitReached (60 - (70 - 20)));
                                  EvSleep (60 - (70 - 20)); EvLockRelease]))
    (request_times (mkRateLimiter 2 60 [20; 30; 70])).
Proof.
  apply (wait_keeps_deque_in_window (mkRateLimiter 2 60 [5; 20; 30]) (mkWorld 70 [])).
  - cbn. discriminate.
  - reflexivity.
  - repeat constructor; cbn; discriminate.
  - reflexivity.
Defined.

(** X4.  The duration [wait] passes to [time.sleep] is never more than
    one time frame.  When no entry of the deque the call finds under the
    lock is later than the time it read at entry, [wait] calls
    [time.sleep] at most once, and then with a positive duration of at most
    [time_frame].  (This bounds the sleep itself, not the time a caller may
    first spend waiting for the lock.) *)
Theorem wait_sleeps_at_most_one_frame (rl : RateLimiter) (w : World)
  (r : result unit) (rl' : RateLimiter) (w' : World) :
  Forall (fun t => t <= clock w) (request_times rl) ->
  wait rl w = (r, rl', w') ->
  exists new,
    trace w' = trace w ++ new /\
    (length (sleeps new) <= 1)%nat /\
    Forall (fun seconds => 0 < seconds /\ seconds <= time_frame rl) (sleeps new).
Proof.
  intros Hle. unfold wait. cbv zeta.
  cbn [request_times set_request_times max_requests time_frame].
  destruct (Z.of_nat _ >=? max_requests rl)%Z.
  - destruct (popleft_stale (clock w) (time_frame rl) (request_times rl))
      as [|oldest rest] eqn:Hq.
    + intros [= <- <- <-]. exists [EvLockAcquire; EvLockRelease]. unfold emit.
      cbn [clock trace]. rewrite <- app_assoc. split; [reflexivity|].
      cbn. split; [lia|constructor].
    + destruct (popleft_stale_suffix (clock w) (time_frame rl) (request_times rl))
        as [ev Hev].
      rewrite Hev, Hq in Hle. apply Forall_app in Hle as [_ Hle].
      inversion Hle as [|? ? Ho _]; subst.
      destruct (Qgt_bool (time_frame rl - (clock w - oldest)) 0) eqn:Hp.
      * apply Qgt_bool_true in Hp. intros [= <- <- <-].
        exists [EvLockAcquire;
                EvStWarning (RateLimitReached (time_frame rl - (clock w - oldest)));
                EvSleep (time_frame rl - (clock w - oldest)); EvLockRelease].
        unfold emit, sleep. cbn [clock trace]. rewrite <- !app_assoc.
        split; [reflexivity|]. cbn. split; [lia|].
        constructor; [|constructor]. split; lra.
      * intros [= <- <- <-]. exists [EvLockAcquire; EvLockRelease]. unfold emit.
        cbn [clock trace]. rewrite <- app_assoc. split; [reflexivity|].
        cbn. split; [lia|constructor].
  - intros [= <- <- <-]. exists [EvLockAcquire; EvLockRelease]. unfold emit.
    cbn [clock trace]. rewrite <- app_assoc. split; [reflexivity|].
    cbn. split; [lia|constructor].
Qed.

Lemma wait_sleeps_at_most_one_frame_witness :
  exists new,
    trace (mkWorld (10 + (60 - (10 - 0)))
             [EvLockAcquire; EvStWarning (RateLimitReached (60 - (10 - 0)));
              EvSleep (60 - (10 - 0)); EvLockRelease])
    = trace (mkWorld 10 []) ++ new /\
    (length (sleeps new) <= 1)%nat /\
    Forall (fun seconds => 0 < seconds /\ seconds <= time_frame (mkRateLimiter 1 60 [0]))
      (sleeps new).
Proof.
  apply (wait_sleeps_at_most_one_frame (mkRateLimiter 1 60 [0]) (mkWorld 10 [])
           (Ok tt) (mkRateLimiter 1 60 [0; 10])).
  - repeat constructor; cbn; discriminate.
  - reflexivity.
Defined.

(* ================================================================== *)
(** ** The block found in a response *)

Lemma strip_prefix_head (p s : pystr) (c d : N) :
  c <> d -> strip_prefix (d :: p) (c :: s) = None.
Proof.
  intro H. cbn [strip_prefix]. destruct (N.eqb_spec d c) as [->|_]; [congruence|reflexivity].
Qed.

Lemma lazy_until_plain (body after : pystr) :
  Forall (fun c => c <> 96%N) body ->
  lazy_until FENCE_CLOSE (body ++ FENCE_CLOSE ++ after) = Some (body, after).
Proof.
  induction 1 as [|c body Hc _ IH].
  - rewrite app_nil_l.
    change (FENCE_CLOSE ++ after) with (96%N :: 96%N :: 96%N :: after).
    cbn [lazy_until]. change (96%N :: 96%N :: 96%N :: after) with (FENCE_CLOSE ++ after).
    now rewrite strip_prefix_here.
  - rewrite <- app_comm_cons. cbn [lazy_until].
    unfold FENCE_CLOSE at 1. rewrite (strip_prefix_head _ _ c 96%N Hc).
    now rewrite IH.
Qed.

Lemma match_fence_plain (c : N) (s : pystr) : c <> 96%N -> match_fence (c :: s) = None.
Proof.
  intro Hc. unfold match_fence, FENCE_OPEN. now rewrite (strip_prefix_head _ _ c 96%N Hc).
Qed.

Lemma re_search_fence_plain (before body after : pystr) :
  Forall (fun c => c <> 96%N) before ->
  Forall (fun c => c <> 96%N) body ->
  re_search_fence (before ++ FENCE_OPEN ++ body ++ FENCE_CLOSE ++ after) = Some body.
Proof.
  intros Hb Hbody. induction Hb as [|c before Hc _ IH].
  - rewrite app_nil_l. apply re_search_fence_here.
    unfold match_fence. now rewrite strip_prefix_here, lazy_until_plain.
  - rewrite <- app_comm_cons. cbn [re_search_fence].
    now rewrite (match_fence_plain c _ Hc).
Qed.

(** X5.  Only the first fenced block of a response counts.  When neither
    the text before the opening fence nor the interior holds a backtick,
    the schema is what [json.loads] makes of the interior, whatever stands
    before the block and whatever follows its closing fence: prose, more
    blocks, or text that is not JSON at all. *)
Theorem extract_schema_ignores_text_around_block (before body after : pystr) :
  Forall (fun c => c <> 96%N) before ->
  Forall (fun c => c <> 96%N) body ->
  extract_schema (before ++ FENCE_OPEN ++ body ++ FENCE_CLOSE ++ after) = json_loads body.
Proof.
  intros Hb Hbody. unfold extract_schema.
  now rewrite (re_search_fence_plain before body after Hb Hbody).
Qed.

Lemma extract_schema_ignores_text_around_block_witness :
  extract_schema (str "Here it is: " ++ FENCE_OPEN ++ example_raw_text
                  ++ FENCE_CLOSE ++ str " and ```json [oops") =
  json_loads example_raw_text.
Proof.
  apply (extract_schema_ignores_text_around_block (str "Here it is: ") example_raw_text
           (str " and ```json [oops")).
  - repeat constructor; discriminate.
  - repeat constructor; discriminate.
Defined.

(* ================================================================== *)
(** ** The Generate button *)

(** X6.  A generation that succeeds with a document Python takes for false
    ([null], [false], a zero, an empty string, list or object) passes
    unnoticed: the service was called and the limiter charged, but line 320
    skips the whole block, so that nothing is stored and the page shows
    neither the schema nor a message. *)
Theorem run_generate_drops_falsy_schema (sg : SchemaGenerator) (prompt text : pystr)
  (schema : json) (st : Store) (w : World) (rl1 : RateLimiter) (w1 : World) :
  prompt <> [] ->
  wait (rate_limiter sg) w = (Ok tt, rl1, w1) ->
  model sg (generation_prompt prompt) = ReplyText text ->
  extract_schema text = Ok schema ->
  truthy schema = false ->
  run_generate sg prompt st w =
    (set_rate_limiter sg rl1, st,
     mkWorld (clock w1) (trace w1 ++ [EvGenerateContent (generation_prompt prompt)])).
Proof.
  intros Hp Hw Hm He Ht. unfold run_generate.
  destruct prompt as [|c prompt']; [congruence|].
  unfold generate_schema, generate_schema_try. rewrite Hw, Hm, He, Ht. reflexivity.
Qed.

Lemma run_generate_drops_falsy_schema_witness :
  run_generate (SchemaGenerator_init (fun _ => ReplyText (str "{}"))) (str "anything")
    (mkStore [] (fun n => [N.of_nat n]) 0) (mkWorld 3 []) =
    (set_rate_limiter (SchemaGenerator_init (fun _ => ReplyText (str "{}")))
       (mkRateLimiter 60 60 [3]),
     mkStore [] (fun n => [N.of_nat n]) 0,
     mkWorld (clock (mkWorld 3 [EvLockAcquire; EvLockRelease]))
       (trace (mkWorld 3 [EvLockAcquire; EvLockRelease])
        ++ [EvGenerateContent (generation_prompt (str "anything"))])).
Proof.
  apply (run_generate_drops_falsy_schema
           (SchemaGenerator_init (fun _ => ReplyText (str "{}"))) (str "anything")
           (str "{}") (JDict [])).
  - discriminate.
  - reflexivity.
  - reflexivity.
  - vm_compute. reflexivity.
  - reflexivity.
Defined.

(* ================================================================== *)
(** ** The table: insertion and lookup *)

Lemma has_id_find (id : pystr) (table : list schema_row) :
  has_id id table = false <-> find (fun r => pystr_eqb (row_id r) id) table = None.
Proof.
  unfold has_id. induction table as [|r table IH]; cbn [existsb find]; [tauto|].
  destruct (pystr_eqb (row_id r) id); cbn [orb]; [split; discriminate|exact IH].
Qed.

Lemma find_id_app (id : pystr) (a b : list schema_row) :
  find (fun r => pystr_eqb (row_id r) id) (a ++ b) =
  match find (fun r => pystr_eqb (row_id r) id) a with
  | Some r => Some r
  | None => find (fun r => pystr_eqb (row_id r) id) b
  end.
Proof.
  induction a as [|r a IH]; cbn [app find]; [reflexivity|].
  now destruct (pystr_eqb (row_id r) id).
Qed.

Lemma has_id_keys (id : pystr) (table : list schema_row) :
  has_id id table = existsb (pystr_eqb id) (map row_id table).
Proof.
  unfold has_id. induction table as [|r table IH]; cbn [existsb map]; [reflexivity|].
  now rewrite IH, (pystr_eqb_sym (row_id r) id).
Qed.

(** Among uploads with distinct identifiers, the row found under the
    identifier of one of them is its own. *)
Lemma find_uploaded (created_at : Q) (uploads : list successful_upload)
  (u : successful_upload) :
  distinct_keys (map ok_id uploads) = true -> In u uploads ->
  find (fun r => pystr_eqb (row_id r) (ok_id u)) (map (uploaded_row created_at) uploads)
  = Some (uploaded_row created_at u).
Proof.
  induction uploads as [|u0 uploads IH]; intros Hd Hin; [destruct Hin|].
  cbn [map distinct_keys] in Hd. apply andb_prop in Hd as [Hnew Hd].
  apply negb_true_iff in Hnew.
  cbn [map find uploaded_row row_id]. destruct Hin as [->|Hin].
  - now rewrite pystr_eqb_refl.
  - destruct (pystr_eqb (ok_id u0) (ok_id u)) eqn:E; [|now apply IH].
    exfalso. assert (Hex : existsb (pystr_eqb (ok_id u0)) (map ok_id uploads) = true).
    { apply existsb_exists. exists (ok_id u). split; [now apply in_map|exact E]. }
    congruence.
Qed.

Lemma select_uploaded (created_at : Q) (base : list schema_row)
  (uploads : list successful_upload) (u : successful_upload) :
  Forall (fun u => has_id (ok_id u) base = false) uploads ->
  distinct_keys (map ok_id uploads) = true -> In u uploads ->
  db_select_schema (ok_id u) (base ++ map (uploaded_row created_at) uploads)
  = Some (json_dumps None (ok_schema u)).
Proof.
  intros Hfresh Hd Hin. unfold db_select_schema. rewrite find_id_app.
  rewrite Forall_forall in Hfresh.
  rewrite (proj1 (has_id_find _ _) (Hfresh u Hin)).
  now rewrite (find_uploaded created_at uploads u Hd Hin).
Qed.

(** An identifier the table does not hold selects what it selected before
    the rows of the batch were added. *)
Lemma select_other (id : pystr) (base added : list schema_row) :
  db_select_schema id base <> None ->
  db_select_schema id (base ++ added) = db_select_schema id base.
Proof.
  unfold db_select_schema. rewrite find_id_app.
  destruct (find _ base); [reflexivity|congruence].
Qed.

(* ================================================================== *)
(** ** One file of a batch *)

Lemma upload_try_cases (f : UploadedFile) (st : Store) (w : World) :
  (exists text schema,
     utf8_decode (getvalue f) = Some text /\ json_loads text = Ok schema /\
     has_id (uuid4 st (drawn st)) (rows st) = false /\
     upload_try f st w =
       (Ok (mkSuccessfulUpload (name f) (uuid4 st (drawn st)) schema),
        mkStore (rows st ++ [uploaded_row (clock w)
                               (mkSuccessfulUpload (name f) (uuid4 st (drawn st)) schema)])
          (uuid4 st) (S (drawn st)))) \/
  (exists text schema,
     utf8_decode (getvalue f) = Some text /\ json_loads text = Ok schema /\
     has_id (uuid4 st (drawn st)) (rows st) = true /\
     upload_try f st w =
       (Raise IntegrityError, mkStore (rows st) (uuid4 st) (S (drawn st)))) \/
  (exists text,
     utf8_decode (getvalue f) = Some text /\ json_loads text = Raise JSONDecodeError /\
     upload_try f st w = (Raise JSONDecodeError, st)) \/
  (utf8_decode (getvalue f) = None /\
   upload_try f st w = (Raise UnicodeDecodeError, st)).
Proof.
  unfold upload_try, save_schema, draw_uuid, db_insert, set_rows, uploaded_row.
  destruct (utf8_decode (getvalue f)) as [text|] eqn:Hd; [|now right; right; right].
  destruct (json_loads text) as [schema|e] eqn:Hl.
  - cbn [rows uuid4 drawn row_id ok_id ok_filename ok_schema].
    destruct (has_id (uuid4 st (drawn st)) (rows st)) eqn:Hid.
    + right; left. now exists text, schema.
    + left. now exists text, schema.
  - right; right; left. exists text.
    pose proof (json_loads_raises _ Hl) as ->. auto.
Qed.


Lemma has_id_snoc_false (id : pystr) (table : list schema_row) (r : schema_row) :
  has_id id (table ++ [r]) = false ->
  has_id id table = false /\ pystr_eqb (row_id r) id = false.
Proof.
  rewrite has_id_app. intro H. apply orb_false_iff in H as [H1 H2].
  split; [exact H1|]. unfold has_id in H2. cbn in H2. now rewrite orb_false_r in H2.
Qed.

Lemma failure_of_later (st st1 st' : Store) (created_at : Q)
  (stored_before successful : list successful_upload) (f : UploadedFile)
  (x : failed_upload) :
  uuid4 st1 = uuid4 st ->
  (drawn st <= drawn st1)%nat ->
  rows st1 = rows st ++ map (uploaded_row created_at) stored_before ->
  failure_of st1 st' created_at successful f x ->
  failure_of st st' created_at (stored_before ++ successful) f x.
Proof.
  intros Hu Hd Hrows [Hname Hreason]. split; [exact Hname|].
  destruct Hreason as [H|[H|(He & Hjson & n & stored & Hn & (later & ->) & Hid)]].
  - now left.
  - right. now left.
  - right. right. split; [exact He|]. split; [exact Hjson|].
    exists n, (stored_before ++ stored). split; [lia|]. split.
    + exists later. now rewrite app_assoc.
    + now rewrite map_app, app_assoc, <- Hrows, <- Hu.
Qed.

Lemma Forall_failure_later (files : list UploadedFile) (f0 : UploadedFile)
  (st st1 st' : Store) (created_at : Q)
  (stored_before successful : list successful_upload) (failed : list failed_upload) :
  uuid4 st1 = uuid4 st ->
  (drawn st <= drawn st1)%nat ->
  rows st1 = rows st ++ map (uploaded_row created_at) stored_before ->
  Forall (fun x => exists f, In f files /\ failure_of st1 st' created_at successful f x)
    failed ->
  Forall (fun x => exists f, In f (f0 :: files) /\
                             failure_of st st' created_at (stored_before ++ successful) f x)
    failed.
Proof.
  intros Hu Hd Hrows H. eapply Forall_impl; [|exact H]. cbn beta.
  intros x (g & Hg & Hf). exists g. split; [now right|].
  exact (failure_of_later st st1 st' created_at stored_before successful g x Hu Hd Hrows Hf).
Qed.

Lemma Forall_success_later (files : list UploadedFile) (f0 : UploadedFile)
  (successful : list successful_upload) :
  Forall (fun u => exists f, In f files /\ success_of f u) successful ->
  Forall (fun u => exists f, In f (f0 :: files) /\ success_of f u) successful.
Proof.
  intro H. eapply Forall_impl; [|exact H]. cbn beta.
  intros u (g & Hg & Hs). exists g. split; [now right|exact Hs].
Qed.

(** The loop of [_upload_schema_files]: what it adds to the two lists and
    to the table. *)
Lemma upload_loop_spec (files : list UploadedFile) :
  forall successful failed st w successful' failed' st',
  upload_loop files successful failed st w = (successful', failed', st') ->
  exists more_ok more_failed,
    successful' = successful ++ more_ok /\ failed' = failed ++ more_failed /\
    rows st' = rows st ++ map (uploaded_row (clock w)) more_ok /\
    uuid4 st' = uuid4 st /\
    (drawn st <= drawn st')%nat /\
    Forall (fun u => has_id (ok_id u) (rows st) = false) more_ok /\
    distinct_keys (map ok_id more_ok) = true /\
    Forall (fun u => exists f, In f files /\ success_of f u) more_ok /\
    Forall (fun x => exists f, In f files /\ failure_of st st' (clock w) more_ok f x)
      more_failed /\
    (forall f, In f files ->
       (exists u, In u more_ok /\ success_of f u) \/
       (exists x, In x more_failed /\ failure_of st st' (clock w) more_ok f x)).
Proof.
  induction files as [|f files IH]; intros successful failed st w successful' failed' st' H.
  - injection H as <- <- <-. exists [], []. rewrite !app_nil_r.
    do 9 (split; [first [reflexivity | constructor]|]). intros g [].
  - cbn [upload_loop] in H.
    destruct (upload_try_cases f st w)
      as [(text & schema & Hd & Hl & Hid & Ht)
         |[(text & schema & Hd & Hl & Hid & Ht)
          |[(text & Hd & Hl & Ht)|(Hd & Ht)]]];
      rewrite Ht in H; apply IH in H
        as (ok2 & bad2 & -> & -> & Hrows & Hu & Hdr & Hfresh & Hdist & Hok & Hbad & Hall).
    + (* stored *)
      set (u := mkSuccessfulUpload (name f) (uuid4 st (drawn st)) schema) in *.
      cbn [rows uuid4 drawn] in Hrows, Hu, Hdr, Hfresh.
      set (st1 := mkStore (rows st ++ [uploaded_row (clock w) u]) (uuid4 st) (S (drawn st)))
        in *.
      assert (Hu_ok : success_of f u).
      { split; [reflexivity|]. exists text. now split. }
      assert (Hlift : forall g x, failure_of st1 st' (clock w) ok2 g x ->
                                  failure_of st st' (clock w) (u :: ok2) g x).
      { intros g x. apply (failure_of_later st st1 st' (clock w) [u] ok2 g x);
          [reflexivity|cbn; lia|reflexivity]. }
      exists (u :: ok2), bad2. rewrite <- !app_assoc in *.
      split; [reflexivity|]. split; [reflexivity|].
      split; [exact Hrows|]. split; [exact Hu|]. split; [lia|].
      assert (Hsplit : Forall (fun u' => has_id (ok_id u') (rows st) = false /\
                                         pystr_eqb (ok_id u) (ok_id u') = false) ok2).
      { eapply Forall_impl; [|exact Hfresh]. cbn beta. intros u' Hu'.
        now apply has_id_snoc_false in Hu'. }
      split.
      { constructor; [exact Hid|]. eapply Forall_impl; [|exact Hsplit]. now intros ? []. }
      split.
      { cbn [map distinct_keys]. rewrite Hdist, andb_true_r. apply negb_true_iff.
        clear -Hsplit. induction Hsplit as [|u' ok2 [_ Hne] _ IHs]; [reflexivity|].
        cbn [map existsb]. now rewrite Hne, IHs. }
      split.
      { constructor.
        - exists f. split; [now left|exact Hu_ok].
        - now apply Forall_success_later. }
      split.
      { eapply Forall_impl; [|exact Hbad]. cbn beta.
        intros x (g & Hg & Hs). exists g. split; [now right|now apply Hlift]. }
      intros g [<-|Hg].
      * left. exists u. split; [now left|exact Hu_ok].
      * destruct (Hall g Hg) as [(u' & Hin & Hs)|(x & Hin & Hs)].
        -- left. exists u'. split; [now right|exact Hs].
        -- right. exists x. split; [exact Hin|now apply Hlift].
    + (* identifier taken *)
      set (x := mkFailedUpload (name f) (ExceptionText IntegrityError)) in *.
      cbn [rows uuid4 drawn] in Hrows, Hu, Hdr, Hfresh.
      set (st1 := mkStore (rows st) (uuid4 st) (S (drawn st))) in *.
      assert (Hx : failure_of st st' (clock w) ok2 f x).
      { split; [reflexivity|]. right; right. split; [reflexivity|].
        split; [now exists text, schema|].
        exists (drawn st), []. split; [lia|]. split; [now exists ok2|].
        cbn [map]. now rewrite app_nil_r. }
      assert (Hlift : forall g y, failure_of st1 st' (clock w) ok2 g y ->
                                  failure_of st st' (clock w) ok2 g y).
      { intros g y. apply (failure_of_later st st1 st' (clock w) [] ok2 g y);
          [reflexivity|cbn; lia|cbn; now rewrite app_nil_r]. }
      exists ok2, (x :: bad2). rewrite <- !app_assoc in *.
      split; [reflexivity|]. split; [reflexivity|].
      split; [exact Hrows|]. split; [exact Hu|]. split; [lia|]. split; [exact Hfresh|].
      split; [exact Hdist|]. split; [now apply Forall_success_later|].
      split.
      { constructor.
        - exists f. split; [now left|exact Hx].
        - eapply Forall_impl; [|exact Hbad]. cbn beta.
          intros y (g & Hg & Hs). exists g. split; [now right|now apply Hlift]. }
      intros g [<-|Hg].
      * right. exists x. split; [now left|exact Hx].
      * destruct (Hall g Hg) as [(u' & Hin & Hs)|(y & Hin & Hs)].
        -- left. now exists u'.
        -- right. exists y. split; [now right|now apply Hlift].
    + (* not JSON *)
      set (x := mkFailedUpload (name f) InvalidJSONFormat) in *.
      assert (Hx : failure_of st st' (clock w) ok2 f x).
      { split; [reflexivity|]. left. split; [reflexivity|]. now exists text. }
      exists ok2, (x :: bad2). rewrite <- !app_assoc in *.
      split; [reflexivity|]. split; [reflexivity|].
      split; [exact Hrows|]. split; [exact Hu|]. split; [exact Hdr|]. split; [exact Hfresh|].
      split; [exact Hdist|]. split; [now apply Forall_success_later|].
      split.
      { constructor.
        - exists f. split; [now left|exact Hx].
        - eapply Forall_impl; [|exact Hbad]. cbn beta.
          intros y (g & Hg & Hs). exists g. split; [now right|exact Hs]. }
      intros g [<-|Hg].
      * right. exists x. split; [now left|exact Hx].
      * destruct (Hall g Hg) as [(u' & Hin & Hs)|(y & Hin & Hs)].
        -- left. now exists u'.
        -- right. exists y. split; [now right|exact Hs].
    + (* not UTF-8 *)
      set (x := mkFailedUpload (name f) (ExceptionText UnicodeDecodeError)) in *.
      assert (Hx : failure_of st st' (clock w) ok2 f x).
      { split; [reflexivity|]. right; left. now split. }
      exists ok2, (x :: bad2). rewrite <- !app_assoc in *.
      split; [reflexivity|]. split; [reflexivity|].
      split; [exact Hrows|]. split; [exact Hu|]. split; [exact Hdr|]. split; [exact Hfresh|].
      split; [exact Hdist|]. split; [now apply Forall_success_later|].
      split.
      { constructor.
        - exists f. split; [now left|exact Hx].
        - eapply Forall_impl; [|exact Hbad]. cbn beta.
          intros y (g & Hg & Hs). exists g. split; [now right|exact Hs]. }
      intros g [<-|Hg].
      * right. exists x. split; [now left|exact Hx].
      * destruct (Hall g Hg) as [(u' & Hin & Hs)|(y & Hin & Hs)].
        -- left. now exists u'.
        -- right. exists y. split; [now right|exact Hs].
Qed.

Lemma upload_files_spec (files : list UploadedFile) (st : Store) (w : World)
  (successful : list successful_upload) (failed : list failed_upload)
  (st' : Store) (w' : World) :
  _upload_schema_files files st w = (successful, failed, st', w') ->
  upload_loop files [] [] st w = (successful, failed, st') /\
  w' = mkWorld (clock w) (trace w ++ upload_feedback successful failed).
Proof.
  unfold _upload_schema_files.
  destruct (upload_loop files [] [] st w) as [[s f] s'].
  now intros [= <- <- <- <-].
Qed.

(** A document that an upload was loaded from is one [json.dumps] and
    [json.loads] agree on. *)
Lemma success_of_wf (f : UploadedFile) (u : successful_upload) :
  success_of f u -> wf_json (ok_schema u) = true.
Proof.
  intros (_ & text & Hd & Hl).
  exact (json_loads_wf text (ok_schema u) (utf8_decode_unicode _ _ Hd) Hl).
Qed.

Lemma dumped_row_loads (created_at : Q) (id prompt : pystr) (schema : json) :
  wf_json schema = true ->
  rows_load [mkRow id prompt (json_dumps None schema) created_at] = true.
Proof.
  intro Hwf. unfold rows_load. cbn [forallb row_schema].
  rewrite (json_loads_dumps None schema Hwf).
  unfold json_dumps. now rewrite (iterencode_ascii None schema Hwf 0%nat).
Qed.

Lemma rows_load_app (a b : list schema_row) :
  rows_load (a ++ b) = rows_load a && rows_load b.
Proof. apply forallb_app. Qed.

Lemma existsb_eqb_false (k : pystr) (keys : list pystr) :
  existsb (pystr_eqb k) keys = false <-> forall k', In k' keys -> pystr_eqb k k' = false.
Proof.
  induction keys as [|k0 keys IH]; cbn [existsb In].
  - split; [intros _ k' []|reflexivity].
  - rewrite orb_false_iff, IH. split.
    + intros [H0 H] k' [<-|Hin]; auto.
    + intro H. split; [apply H; now left|]. intros k' Hin. apply H. now right.
Qed.

Lemma distinct_keys_app (a b : list pystr) :
  distinct_keys a = true -> distinct_keys b = true ->
  (forall k, In k b -> existsb (pystr_eqb k) a = false) ->
  distinct_keys (a ++ b) = true.
Proof.
  intros Ha Hb Hab. induction a as [|k a IH]; [exact Hb|].
  cbn [distinct_keys app] in *. apply andb_prop in Ha as [Hk Ha].
  apply negb_true_iff in Hk.
  rewrite IH; [|exact Ha|].
  - rewrite andb_true_r. apply negb_true_iff. rewrite existsb_app, Hk. cbn [orb].
    apply existsb_eqb_false. intros k' Hin.
    specialize (Hab k' Hin). cbn [existsb] in Hab. apply orb_false_iff in Hab as [H _].
    now rewrite pystr_eqb_sym.
  - intros k' Hin. specialize (Hab k' Hin). cbn [existsb] in Hab.
    now apply orb_false_iff in Hab as [_ H].
Qed.

(** X7.  A batch of uploads leaves every row of the table as it was and
    adds, after them, exactly one row for each successful upload, in the
    order of [successful_uploads]: the identifier shown to the user, the
    source "Uploaded: " and the file name, the document as [json.dumps]
    writes it, and the time of the batch.  Failed files add nothing. *)
Theorem upload_adds_one_row_per_success (files : list UploadedFile) (st : Store)
  (w : World) (successful : list successful_upload) (failed : list failed_upload)
  (st' : Store) (w' : World) :
  _upload_schema_files files st w = (successful, failed, st', w') ->
  rows st' = rows st ++ map (uploaded_row (clock w)) successful /\
  uuid4 st' = uuid4 st /\
  clock w' = clock w.
Proof.
  intro H. apply upload_files_spec in H as [H ->].
  apply upload_loop_spec in H
    as (ok & bad & -> & -> & Hrows & Hu & _).
  cbn [app clock]. auto.
Qed.

Lemma upload_adds_one_row_per_success_witness :
  exists successful st' w',
    rows st' = rows example_store ++ map (uploaded_row (clock (mkWorld 7 []))) successful /\
    uuid4 st' = uuid4 example_store /\
    clock w' = clock (mkWorld 7 []).
Proof.
  do 3 eexists.
  eapply (upload_adds_one_row_per_success
            [example_upload; example_broken_upload; example_upload]
            example_store (mkWorld 7 [])).
  vm_compute. reflexivity.
Defined.



(** X9.  What was uploaded can be looked up.  For every successful upload
    of a batch, typing the identifier the page reports for it into the
    record details shows the uploaded document, and offers it for download
    as [json.dumps(schema, indent=2)] under the name schema_, the
    identifier, .json. *)
Theorem uploaded_schema_can_be_viewed (files : list UploadedFile) (st : Store)
  (w : World) (successful : list successful_upload) (failed : list failed_upload)
  (st' : Store) (w' : World) (u : successful_upload) (w2 : World) :
  _upload_schema_files files st w = (successful, failed, st', w') ->
  In u successful ->
  ok_id u <> [] ->
  view_record_details (ok_id u) st' w2 =
    Ok (emit (EvDownloadButton (json_dumps (Some 2%nat) (ok_schema u))
                (str "schema_" ++ ok_id u ++ str ".json"))
          (emit (EvStJson (ok_schema u)) w2)).
Proof.
  intros H Hin Hid. apply upload_files_spec in H as [H _].
  apply upload_loop_spec in H
    as (ok & bad & -> & -> & Hrows & _ & _ & Hfresh & Hdist & Hok & _).
  cbn [app] in Hin.
  rewrite Forall_forall in Hok. destruct (Hok u Hin) as (f & _ & Hs).
  pose proof (success_of_wf f u Hs) as Hwf.
  unfold view_record_details. destruct (ok_id u) as [|c id] eqn:E; [congruence|].
  rewrite <- E, Hrows, (select_uploaded (clock w) (rows st) ok u Hfresh Hdist Hin).
  rewrite (json_loads_dumps None (ok_schema u) Hwf). reflexivity.
Qed.

Lemma uploaded_schema_can_be_viewed_witness :
  view_record_details (ok_id (mkSuccessfulUpload (str "users.json") (str "id-x") example_document))
    (mkStore [mkRow (str "id-") (str "Uploaded: users.json")
                (json_dumps None example_document) 7;
              mkRow (str "id-x") (str "Uploaded: users.json")
                (json_dumps None example_document) 7]
       (uuid4 example_store) 2)
    (mkWorld 9 []) =
    Ok (emit (EvDownloadButton (json_dumps (Some 2%nat) example_document)
                (str "schema_" ++ str "id-x" ++ str ".json"))
          (emit (EvStJson example_document) (mkWorld 9 []))).
Proof.
  apply (uploaded_schema_can_be_viewed [example_upload; example_upload]
           example_store (mkWorld 7 [])
           [mkSuccessfulUpload (str "users.json") (str "id-") example_document;
            mkSuccessfulUpload (str "users.json") (str "id-x") example_document]
           [] _ (mkWorld 7 (upload_feedback
                               [mkSuccessfulUpload (str "users.json") (str "id-") example_document;
                                mkSuccessfulUpload (str "users.json") (str "id-x") example_document]
                               []))).
  - vm_compute. reflexivity.
  - right. left. reflexivity.
  - discriminate.
Defined.

Lemma upload_loop_sound (files : list UploadedFile) (st : Store)
  (w : World) (successful : list successful_upload) (failed : list failed_upload)
  (st' : Store) :
  distinct_keys (map row_id (rows st)) = true ->
  rows_load (rows st) = true ->
  upload_loop files [] [] st w = (successful, failed, st') ->
  distinct_keys (map row_id (rows st')) = true /\
  rows_load (rows st') = true /\
  (forall id, db_select_schema id (rows st) <> None ->
     db_select_schema id (rows st') = db_select_schema id (rows st)).
Proof.
  intros Hd Hl H.
  apply upload_loop_spec in H
    as (ok & bad & -> & -> & Hrows & _ & _ & Hfresh & Hdist & Hok & _).
  rewrite Hrows. split; [|split].
  - rewrite map_app. apply distinct_keys_app; [exact Hd| |].
    + rewrite map_map. cbn [uploaded_row row_id]. exact Hdist.
    + rewrite map_map. cbn [uploaded_row row_id]. intros k Hk.
      apply in_map_iff in Hk as (u & <- & Hu).
      rewrite Forall_forall in Hfresh. rewrite <- has_id_keys. now apply Hfresh.
  - rewrite rows_load_app, Hl. cbn [andb].
    clear -Hok. induction Hok as [|u ok (f & _ & Hs) _ IH]; [reflexivity|].
    cbn [map]. change (?r :: ?l) with ([r] ++ l). rewrite rows_load_app, IH, andb_true_r.
    apply dumped_row_loads. exact (success_of_wf f u Hs).
  - intros id Hid. now apply select_other.
Qed.

(** X10.  Uploading keeps the table sound.  When the identifiers of the
    table are pairwise distinct and every row holds a text [json.loads]
    reads, the same is true after any batch; and every identifier that
    selected a row before the batch selects the same schema text after it. *)
Theorem upload_keeps_table_sound (files : list UploadedFile) (st : Store)
  (w : World) (successful : list successful_upload) (failed : list failed_upload)
  (st' : Store) (w' : World) :
  distinct_keys (map row_id (rows st)) = true ->
  rows_load (rows st) = true ->
  _upload_schema_files files st w = (successful, failed, st', w') ->
  distinct_keys (map row_id (rows st')) = true /\
  rows_load (rows st') = true /\
  (forall id, db_select_schema id (rows st) <> None ->
     db_select_schema id (rows st') = db_select_schema id (rows st)).
Proof.
  intros Hd Hl H. apply upload_files_spec in H as [H _].
  exact (upload_loop_sound files st w successful failed st' Hd Hl H).
Qed.

Lemma upload_keeps_table_sound_witness :
  exists st',
    distinct_keys (map row_id (rows st')) = true /\
    rows_load (rows st') = true /\
    (forall id, db_select_schema id (rows example_filled_store) <> None ->
       db_select_schema id (rows st') = db_select_schema id (rows example_filled_store)).
Proof.
  eexists.
  eapply (upload_keeps_table_sound [example_upload; example_broken_upload]
            example_filled_store (mkWorld 7 [])).
  - reflexivity.
  - reflexivity.
  - vm_compute. reflexivity.
Defined.

(* ================================================================== *)
(** ** A generated schema in the table *)

Lemma unicode_text_app (a b : pystr) :
  unicode_text (a ++ b) = unicode_text a && unicode_text b.
Proof. apply forallb_app. Qed.

(** The document extracted from a Unicode response is one [json.dumps] and
    [json.loads] agree on. *)
Lemma extract_schema_wf (text : pystr) (schema : json) :
  unicode_text text = true -> extract_schema text = Ok schema -> wf_json schema = true.
Proof.
  intros Hu. unfold extract_schema.
  destruct (re_search_fence text) as [group1|] eqn:Ef.
  - apply re_search_fence_app in Ef as (before & after & ->).
    rewrite !unicode_text_app in Hu.
    apply andb_prop in Hu as [_ Hu]. apply andb_prop in Hu as [_ Hu].
    apply andb_prop in Hu as [Hu _].
    now apply json_loads_wf.
  - now apply json_loads_wf.
Qed.

(** A schema that Python takes for true was read from the reply. *)
Lemma generate_schema_truthy (sg : SchemaGenerator) (prompt : pystr) (w : World)
  (schema : json) (sg' : SchemaGenerator) (w' : World) :
  generate_schema sg prompt w = (schema, sg', w') -> truthy schema = true ->
  exists text rl1 w1,
    wait (rate_limiter sg) w = (Ok tt, rl1, w1) /\
    model sg (generation_prompt prompt) = ReplyText text /\
    extract_schema text = Ok schema /\
    sg' = set_rate_limiter sg rl1 /\
    w' = emit (EvGenerateContent (generation_prompt prompt)) w1.
Proof.
  unfold generate_schema, generate_schema_try.
  destruct (wait (rate_limiter sg) w) as [[[[]|e] rl1] w1] eqn:Hw.
  - destruct (model sg (generation_prompt prompt)) as [text|e] eqn:Hm.
    + destruct (extract_schema text) as [s|e] eqn:He.
      * intros [= <- <- <-] _. now exists text, rl1, w1.
      * destruct e; intros [= <- _ _]; discriminate.
    + destruct e; intros [= <- _ _]; discriminate.
  - destruct e; intros [= <- _ _]; discriminate.
Qed.

Lemma view_record_details_found (id : pystr) (st : Store) (w : World)
  (schema_text : pystr) (schema : json) :
  id <> [] ->
  db_select_schema id (rows st) = Some schema_text ->
  json_loads schema_text = Ok schema ->
  view_record_details id st w =
    Ok (emit (EvDownloadButton (json_dumps (Some 2%nat) schema)
                (str "schema_" ++ id ++ str ".json"))
          (emit (EvStJson schema) w)).
Proof.
  intros Hid Hsel Hl. unfold view_record_details.
  destruct id as [|c id]; [congruence|]. now rewrite Hsel, Hl.
Qed.

(** X11.  A generation that succeeds with a document Python takes for true
    is stored and can be looked up.  With an identifier the table does not
    hold yet, the button adds one row (the identifier, the prompt, the
    document as [json.dumps] writes it, the time after the limiter's wait),
    shows the schema and offers it as schema.json; and the record details
    of that identifier show the same document. *)
Theorem generated_schema_is_stored_and_viewable (sg : SchemaGenerator)
  (prompt text : pystr) (schema : json) (st : Store) (w : World)
  (rl1 : RateLimiter) (w1 w2 : World) :
  prompt <> [] ->
  wait (rate_limiter sg) w = (Ok tt, rl1, w1) ->
  model sg (generation_prompt prompt) = ReplyText text ->
  unicode_text text = true ->
  extract_schema text = Ok schema ->
  truthy schema = true ->
  has_id (uuid4 st (drawn st)) (rows st) = false ->
  uuid4 st (drawn st) <> [] ->
  let schema_id := uuid4 st (drawn st) in
  let st' := mkStore (rows st ++ [mkRow schema_id prompt (json_dumps None schema) (clock w1)])
               (uuid4 st) (S (drawn st)) in
  run_generate sg prompt st w =
    (set_rate_limiter sg rl1, st',
     mkWorld (clock w1)
       (trace w1 ++ [EvGenerateContent (generation_prompt prompt);
                     EvStJson schema;
                     EvDownloadButton (json_dumps (Some 2%nat) schema) (str "schema.json")])) /\
  view_record_details schema_id st' w2 =
    Ok (emit (EvDownloadButton (json_dumps (Some 2%nat) schema)
                (str "schema_" ++ schema_id ++ str ".json"))
          (emit (EvStJson schema) w2)).
Proof.
  intros Hp Hw Hm Hu He Ht Hfresh Hid schema_id st'. subst schema_id st'. split.
  - unfold run_generate. destruct prompt as [|c prompt']; [congruence|].
    unfold generate_schema, generate_schema_try. rewrite Hw, Hm, He, Ht.
    unfold save_schema, draw_uuid, db_insert, set_rows, emit.
    cbn [rows uuid4 drawn row_id clock trace]. rewrite Hfresh.
    now rewrite <- !app_assoc.
  - apply (view_record_details_found _ _ _ (json_dumps None schema)); [exact Hid| |].
    + cbn [rows]. unfold db_select_schema. rewrite find_id_app.
      rewrite (proj1 (has_id_find _ _) Hfresh). cbn [find row_id row_schema].
      now rewrite pystr_eqb_refl.
    + exact (json_loads_dumps None schema (extract_schema_wf text schema Hu He)).
Qed.

Lemma generated_schema_is_stored_and_viewable_witness :
  run_generate (SchemaGenerator_init (fun _ => ReplyText example_fenced_text))
    (str "users") (mkStore [] (fun _ => str "id-1") 0) (mkWorld 3 []) =
    (set_rate_limiter (SchemaGenerator_init (fun _ => ReplyText example_fenced_text))
       (mkRateLimiter 60 60 [3]),
     mkStore ([] ++ [mkRow (str "id-1") (str "users") (json_dumps None example_document)
                       (clock (mkWorld 3 [EvLockAcquire; EvLockRelease]))])
       (fun _ => str "id-1") 1,
     mkWorld (clock (mkWorld 3 [EvLockAcquire; EvLockRelease]))
       (trace (mkWorld 3 [EvLockAcquire; EvLockRelease])
        ++ [EvGenerateContent (generation_prompt (str "users"));
            EvStJson example_document;
            EvDownloadButton (json_dumps (Some 2%nat) example_document) (str "schema.json")])) /\
  view_record_details (str "id-1")
    (mkStore ([] ++ [mkRow (str "id-1") (str "users") (json_dumps None example_document)
                       (clock (mkWorld 3 [EvLockAcquire; EvLockRelease]))])
       (fun _ => str "id-1") 1)
    (mkWorld 8 []) =
    Ok (emit (EvDownloadButton (json_dumps (Some 2%nat) example_document)
                (str "schema_" ++ str "id-1" ++ str ".json"))
          (emit (EvStJson example_document) (mkWorld 8 []))).
Proof.
  apply (generated_schema_is_stored_and_viewable
           (SchemaGenerator_init (fun _ => ReplyText example_fenced_text))
           (str "users") example_fenced_text example_document
           (mkStore [] (fun _ => str "id-1") 0) (mkWorld 3 [])
           (mkRateLimiter 60 60 [3]) (mkWorld 3 [EvLockAcquire; EvLockRelease])
           (mkWorld 8 [])).
  - discriminate.
  - reflexivity.
  - reflexivity.
  - vm_compute. reflexivity.
  - vm_compute. reflexivity.
  - reflexivity.
  - reflexivity.
  - discriminate.
Defined.

(* ================================================================== *)
(** ** The records tab *)

Lemma files_set_in (d : list (pystr * pystr)) (k v k' v' : pystr) :
  In (k, v) (files_set d k' v') -> (k, v) = (k', v') \/ In (k, v) d.
Proof.
  induction d as [|[k0 v0] d IH]; cbn [files_set].
  - intros [H|[]]. now left.
  - destruct (pystr_eqb k0 k') eqn:E.
    + apply pystr_eqb_eq in E. subst k0. intros [H|H].
      * now left.
      * right. now right.
    + intros [H|H].
      * right. now left.
      * destruct (IH H) as [H'|H']; [now left|right; now right].
Qed.

Lemma files_set_keys (d : list (pystr * pystr)) (k v : pystr) :
  forall k', In k' (map fst (files_set d k v)) <-> k' = k \/ In k' (map fst d).
Proof.
  induction d as [|[k0 v0] d IH]; intro k'; cbn [files_set map fst In].
  - intuition.
  - destruct (pystr_eqb k0 k) eqn:E; cbn [map fst In].
    + apply pystr_eqb_eq in E. subst k0. intuition.
    + rewrite IH. intuition.
Qed.

Lemma files_set_distinct (d : list (pystr * pystr)) (k v : pystr) :
  distinct_keys (map fst d) = true ->
  distinct_keys (map fst (files_set d k v)) = true.
Proof.
  induction d as [|[k0 v0] d IH]; cbn [files_set map fst distinct_keys]; [reflexivity|].
  intro H. apply andb_prop in H as [H0 Hd]. apply negb_true_iff in H0.
  destruct (pystr_eqb k0 k) eqn:E; cbn [map fst distinct_keys].
  - now rewrite H0, Hd.
  - rewrite (IH Hd), andb_true_r. apply negb_true_iff.
    apply existsb_eqb_false. intros k' Hin. apply files_set_keys in Hin as [->|Hin].
    + exact E.
    + now apply (proj1 (existsb_eqb_false k0 (map fst d))).
Qed.

Lemma find_id_some (id : pystr) (table : list schema_row) (r : schema_row) :
  find (fun r => pystr_eqb (row_id r) id) table = Some r ->
  In r table /\ row_id r = id.
Proof.
  intro H. apply find_some in H as [Hin He]. split; [exact Hin|now apply pystr_eqb_eq].
Qed.

Lemma rows_load_in (table : list schema_row) (r : schema_row) :
  rows_load table = true -> In r table ->
  exists schema,
    json_loads (row_schema r) = Ok schema /\ wf_json schema = true.
Proof.
  unfold rows_load. rewrite forallb_forall. intros H Hin.
  specialize (H r Hin). apply andb_prop in H as [Ha Hl].
  destruct (json_loads (row_schema r)) as [schema|e] eqn:E; [|discriminate].
  exists schema. split; [reflexivity|].
  exact (json_loads_wf _ schema (ascii_text_unicode _ Ha) E).
Qed.


Lemma collect_schemas_spec (selected : list pystr) :
  forall (table : list schema_row) (all_selected : list pystr)
         (acc : list (pystr * pystr)),
  rows_load table = true ->
  incl selected all_selected ->
  distinct_keys (map fst acc) = true ->
  Forall (archived table all_selected) acc ->
  exists entries,
    collect_schemas selected table acc = Ok entries /\
    distinct_keys (map fst entries) = true /\
    Forall (archived table all_selected) entries /\
    (forall k, In k (map fst acc) -> In k (map fst entries)) /\
    (forall id r, In id selected ->
       find (fun r => pystr_eqb (row_id r) id) table = Some r ->
       In (id ++ str "_" ++ row_prompt r ++ str ".json") (map fst entries)).
Proof.
  induction selected as [|id selected IH]; intros table all_selected acc Hl Hincl Hd Hacc.
  - exists acc. cbn [collect_schemas]. repeat split; auto. intros id r [].
  - cbn [collect_schemas]. unfold db_select_schema_prompt.
    assert (Hincl' : incl selected all_selected).
    { intros x Hx. apply Hincl. now right. }
    destruct (find (fun r => pystr_eqb (row_id r) id) table) as [r|] eqn:Ef.
    + destruct (find_id_some id table r Ef) as [Hin Hid].
      destruct (rows_load_in table r Hl Hin) as (schema & Hs & Hwf).
      rewrite Hs. cbn [bind].
      set (filename := id ++ str "_" ++ row_prompt r ++ str ".json").
      set (content := json_dumps (Some 2%nat) schema).
      destruct (IH table all_selected (files_set acc filename content) Hl Hincl')
        as (entries & Hc & Hd' & Hall & Hkeys & Hsel).
      { now apply files_set_distinct. }
      { apply Forall_forall. intros [k v] Hkv.
        apply files_set_in in Hkv as [[= -> ->]|Hkv].
        - exists r, schema. cbn [fst snd]. subst filename content.
          rewrite Hid. repeat split; auto.
          + apply Hincl. now left.
          + now apply json_loads_dumps.
        - rewrite Forall_forall in Hacc. now apply Hacc. }
      exists entries. split; [exact Hc|]. split; [exact Hd'|]. split; [exact Hall|].
      split.
      * intros k Hk. apply Hkeys. apply files_set_keys. now right.
      * intros id' r' [<-|Hin'] Hf.
        -- rewrite Ef in Hf. injection Hf as <-.
           apply Hkeys. apply files_set_keys. now left.
        -- now apply Hsel.
    + destruct (IH table all_selected acc Hl Hincl' Hd Hacc)
        as (entries & Hc & Hd' & Hall & Hkeys & Hsel).
      exists entries. split; [exact Hc|]. split; [exact Hd'|]. split; [exact Hall|].
      split; [exact Hkeys|].
      intros id' r' [<-|Hin'] Hf; [congruence|now apply Hsel].
Qed.

Lemma view_record_details_returns (id : pystr) (st : Store) (w : World) :
  rows_load (rows st) = true ->
  exists new,
    view_record_details id st w = Ok (mkWorld (clock w) (trace w ++ new)) /\
    sleeps new = [] /\ outbound_calls new = [].
Proof.
  intro Hl. unfold view_record_details. destruct id as [|c id].
  - exists []. rewrite app_nil_r. now destruct w.
  - unfold db_select_schema.
    destruct (find (fun r => pystr_eqb (row_id r) (c :: id)) (rows st)) as [r|] eqn:Ef.
    + destruct (find_id_some _ _ r Ef) as [Hin _].
      destruct (rows_load_in _ r Hl Hin) as (schema & Hs & _).
      rewrite Hs. cbn [bind]. eexists [_; _]. unfold emit. cbn [clock trace].
      rewrite <- app_assoc. repeat split.
    + eexists [_]. unfold emit. repeat split.
Qed.

Lemma view_records_ok (selected : list pystr) (id : pystr) (st : Store) (p : Page) :
  rows_load (rows st) = true ->
  exists p',
    _view_records selected id st p = (Ok tt, p') /\
    page_clock p' = page_clock p.
Proof.
  intro Hl. unfold _view_records.
  destruct (db_select_listing (rows st)) as [|rec records] eqn:Els.
  - eexists. split; reflexivity.
  - set (p1 := show (EvStDataframe (rec :: records))
                 (show (EvPageSubheader (str "Schema Records")) p)).
    assert (Hbulk : exists p2, page_clock p2 = page_clock p /\
      match selected with
      | [] => Ok p1
      | _ :: _ =>
          schemas_to_download <- collect_schemas selected (rows st) [] ;;
          Ok (show (EvDownloadArchive schemas_to_download (str "selected_schemas.zip")) p1)
      end = Ok p2).
    { destruct selected as [|s0 selected'].
      - now exists p1.
      - destruct (collect_schemas_spec (s0 :: selected') (rows st) (s0 :: selected') [] Hl)
          as (entries & Hc & _); [apply incl_refl|reflexivity|constructor|].
        rewrite Hc. cbn [bind]. eexists. split; [|reflexivity]. reflexivity. }
    destruct Hbulk as (p2 & Hclock & ->).
    destruct (view_record_details_returns id st
                (world_of (show (EvPageSubheader (str "Record Details")) p2)) Hl)
      as (new & -> & _).
    eexists. split; [reflexivity|exact Hclock].
Qed.

(** X12.  The records tab cannot fail on a table whose rows hold what
    [json.dumps] wrote: for every selection and every identifier typed,
    [_view_records] returns normally and the clock has not moved.  On an
    empty table all it shows is "No schema records found.", whatever was
    selected or typed. *)
Theorem view_records_returns (selected : list pystr) (id : pystr) (st : Store)
  (p : Page) :
  rows_load (rows st) = true ->
  exists p',
    _view_records selected id st p = (Ok tt, p') /\
    page_clock p' = page_clock p /\
    (rows st = [] -> shown p' = shown p ++ [EvStInfo NoSchemaRecords]).
Proof.
  intro Hl.
  destruct (view_records_ok selected id st p Hl) as (p' & Hv & Hclock).
  exists p'. split; [exact Hv|]. split; [exact Hclock|].
  intro Hempty. unfold _view_records in Hv. rewrite Hempty in Hv.
  cbn [db_select_listing order_by_created_at_desc fold_right map] in Hv.
  now injection Hv as <-.
Qed.

Lemma view_records_returns_witness :
  exists p',
    _view_records [str "id-"] (str "id-")
      (mkStore [mkRow (str "id-") (str "users") (json_dumps None example_document) 7]
         (uuid4 example_store) 1)
      (mkPage 9 []) = (Ok tt, p') /\
    page_clock p' = page_clock (mkPage 9 []) /\
    (rows (mkStore [mkRow (str "id-") (str "users") (json_dumps None example_document) 7]
             (uuid4 example_store) 1) = [] ->
     shown p' = shown (mkPage 9 []) ++ [EvStInfo NoSchemaRecords]).
Proof.
  apply (view_records_returns [str "id-"] (str "id-")
           (mkStore [mkRow (str "id-") (str "users") (json_dumps None example_document) 7]
              (uuid4 example_store) 1)
           (mkPage 9 [])).
  vm_compute. reflexivity.
Defined.

(** X13.  The archive of the selected schemas.  On a table whose rows hold
    what [json.dumps] wrote, a selection that is not empty puts one download
    on the page, selected_schemas.zip.  Its entries have pairwise distinct
    names; every entry is the file of a selected row, named by the row's
    identifier and prompt, and its content loads as the row's document;
    and every selected identifier that the table holds has its entry. *)
Theorem selected_schemas_are_archived (selected : list pystr) (id : pystr)
  (st : Store) (p : Page) :
  rows_load (rows st) = true ->
  rows st <> [] ->
  selected <> [] ->
  exists entries p',
    _view_records selected id st p = (Ok tt, p') /\
    In (EvDownloadArchive entries (str "selected_schemas.zip")) (shown p') /\
    distinct_keys (map fst entries) = true /\
    Forall (archived (rows st) selected) entries /\
    (forall schema_id r,
       In schema_id selected ->
       find (fun r => pystr_eqb (row_id r) schema_id) (rows st) = Some r ->
       In (schema_id ++ str "_" ++ row_prompt r ++ str ".json") (map fst entries)).
Proof.
  intros Hl Hne Hsel. unfold _view_records.
  destruct (db_select_listing (rows st)) as [|rec records] eqn:Els.
  - exfalso. unfold db_select_listing in Els. apply map_eq_nil in Els.
    destruct (rows st) as [|r table]; [congruence|].
    cbn [order_by_created_at_desc fold_right] in Els.
    destruct (fold_right insert_newest_first [] table) as [|r' l]; cbn in Els;
      [discriminate|]. destruct (Qgt_bool _ _); discriminate.
  - destruct selected as [|s0 selected']; [congruence|].
    destruct (collect_schemas_spec (s0 :: selected') (rows st) (s0 :: selected') [] Hl)
      as (entries & Hc & Hd & Hall & _ & Hin); [apply incl_refl|reflexivity|constructor|].
    rewrite Hc. cbn [bind].
    destruct (view_record_details_returns id st
                (world_of (show (EvPageSubheader (str "Record Details"))
                   (show (EvDownloadArchive entries (str "selected_schemas.zip"))
                      (show (EvStDataframe (rec :: records))
                         (show (EvPageSubheader (str "Schema Records")) p))))) Hl)
      as (new & -> & _).
    exists entries. eexists. split; [reflexivity|].
    split.
    { unfold page_after, show. cbn [shown]. rewrite !in_app_iff. cbn [In]. tauto. }
    split; [exact Hd|]. split; [exact Hall|]. exact Hin.
Qed.

Lemma selected_schemas_are_archived_witness :
  exists entries p',
    _view_records [str "id-"] []
      (mkStore [mkRow (str "id-") (str "users") (json_dumps None example_document) 7]
         (uuid4 example_store) 1)
      (mkPage 9 []) = (Ok tt, p') /\
    In (EvDownloadArchive entries (str "selected_schemas.zip")) (shown p') /\
    distinct_keys (map fst entries) = true /\
    Forall (archived
              (rows (mkStore [mkRow (str "id-") (str "users")
                                (json_dumps None example_document) 7]
                       (uuid4 example_store) 1))
              [str "id-"]) entries /\
    (forall schema_id r,
       In schema_id [str "id-"] ->
       find (fun r => pystr_eqb (row_id r) schema_id)
         (rows (mkStore [mkRow (str "id-") (str "users")
                           (json_dumps None example_document) 7]
                  (uuid4 example_store) 1)) = Some r ->
       In (schema_id ++ str "_" ++ row_prompt r ++ str ".json") (map fst entries)).
Proof.
  apply (selected_schemas_are_archived [str "id-"] []
           (mkStore [mkRow (str "id-") (str "users") (json_dumps None example_document) 7]
              (uuid4 example_store) 1)
           (mkPage 9 [])).
  - vm_compute. reflexivity.
  - discriminate.
  - discriminate.
Defined.

(* ================================================================== *)
(** ** The listing *)

Lemma insert_newest_first_perm (r : schema_row) (ordered : list schema_row) :
  Permutation (insert_newest_first r ordered) (r :: ordered).
Proof.
  induction ordered as [|r' rest IH]; cbn [insert_newest_first]; [reflexivity|].
  destruct (Qgt_bool (row_created_at r') (row_created_at r)); [|reflexivity].
  rewrite IH. apply perm_swap.
Qed.

Lemma order_by_created_at_desc_perm (table : list schema_row) :
  Permutation (order_by_created_at_desc table) table.
Proof.
  induction table as [|r table IH]; cbn [order_by_created_at_desc fold_right]; [reflexivity|].
  rewrite insert_newest_first_perm. now constructor.
Qed.

Lemma newest_first_cons (t0 : Q) (below : list Q) :
  newest_first (t0 :: below) = true <->
  Forall (fun t => t <= t0) below /\ newest_first below = true.
Proof.
  cbn [newest_first]. rewrite andb_true_iff, forallb_forall, Forall_forall.
  split; intros [H1 H2]; (split; [|exact H2]); intros x Hx.
  - apply Qle_bool_true. now apply H1.
  - apply Qle_bool_true. now apply H1.
Qed.

Lemma insert_newest_first_sorted (r : schema_row) (ordered : list schema_row) :
  newest_first (map row_created_at ordered) = true ->
  newest_first (map row_created_at (insert_newest_first r ordered)) = true.
Proof.
  induction ordered as [|r' rest IH]; cbn [insert_newest_first map]; [reflexivity|].
  intro Hs. pose proof Hs as Hs0. apply newest_first_cons in Hs as [Hall Hrest].
  destruct (Qgt_bool (row_created_at r') (row_created_at r)) eqn:E; cbn [map].
  - apply Qgt_bool_true in E. apply newest_first_cons. split; [|now apply IH].
    assert (Hp : Permutation (map row_created_at (insert_newest_first r rest))
                   (row_created_at r :: map row_created_at rest)).
    { change (row_created_at r :: map row_created_at rest)
        with (map row_created_at (r :: rest)).
      apply Permutation_map, insert_newest_first_perm. }
    apply (Permutation_Forall (Permutation_sym Hp)).
    constructor; [lra|exact Hall].
  - apply Qgt_bool_false in E. apply newest_first_cons. split; [|exact Hs0].
    constructor; [exact E|].
    eapply Forall_impl; [|exact Hall]. cbn beta. intros t Ht. lra.
Qed.

Lemma order_by_created_at_desc_sorted (table : list schema_row) :
  newest_first (map row_created_at (order_by_created_at_desc table)) = true.
Proof.
  induction table as [|r table IH]; cbn [order_by_created_at_desc fold_right]; [reflexivity|].
  now apply insert_newest_first_sorted.
Qed.

(** X14.  The table of the records tab lists every row of [schemas] exactly
    once, by identifier, prompt and creation time, with the newest first;
    when the table has rows, this listing is on the page, also when a later
    step of the tab raises. *)
Theorem records_are_listed_newest_first (selected : list pystr) (id : pystr)
  (st : Store) (p : Page) :
  Permutation (db_select_listing (rows st))
    (map (fun r => (row_id r, row_prompt r, row_created_at r)) (rows st)) /\
  newest_first (map snd (db_select_listing (rows st))) = true /\
  (rows st = [] \/
   In (EvStDataframe (db_select_listing (rows st)))
     (shown (snd (_view_records selected id st p)))).
Proof.
  split; [|split].
  - unfold db_select_listing. apply Permutation_map, order_by_created_at_desc_perm.
  - unfold db_select_listing. rewrite map_map. cbn [snd].
    apply order_by_created_at_desc_sorted.
  - unfold _view_records.
    destruct (db_select_listing (rows st)) as [|rec records] eqn:Els.
    + left. unfold db_select_listing in Els. apply map_eq_nil in Els.
      apply Permutation_nil. rewrite <- Els. apply order_by_created_at_desc_perm.
    + right.
      set (p1 := show (EvStDataframe (rec :: records))
                   (show (EvPageSubheader (str "Schema Records")) p)).
      assert (H1 : In (EvStDataframe (rec :: records)) (shown p1)).
      { unfold p1, show. cbn [shown]. rewrite !in_app_iff. cbn [In]. tauto. }
      destruct (match selected with
                | [] => Ok p1
                | _ :: _ =>
                    schemas_to_download <- collect_schemas selected (rows st) [] ;;
                    Ok (show (EvDownloadArchive schemas_to_download
                                (str "selected_schemas.zip")) p1)
                end) as [p2|e] eqn:Eb; [|exact H1].
      assert (H2 : In (EvStDataframe (rec :: records)) (shown p2)).
      { destruct selected as [|s0 sel].
        - now injection Eb as <-.
        - destruct (collect_schemas (s0 :: sel) (rows st) []) as [entries|e]; [|discriminate].
          cbn [bind] in Eb. injection Eb as <-. unfold show at 1. cbn [shown].
          apply in_app_iff. now left. }
      destruct (view_record_details id st _) as [w|e]; cbn [snd].
      * unfold page_after, show. cbn [shown]. rewrite !in_app_iff. tauto.
      * unfold show. cbn [shown]. rewrite in_app_iff. tauto.
Qed.

(* ================================================================== *)
(** ** One run of the script *)

Lemma effects_app (a b : list page_event) : effects (a ++ b) = effects a ++ effects b.
Proof.
  induction a as [|e a IH]; cbn [app effects]; [reflexivity|].
  destruct e; cbn [app]; now rewrite ?IH.
Qed.

Lemma effects_shown (tr : list event) : effects (map Shown tr) = tr.
Proof. induction tr as [|e tr IH]; cbn [map effects]; [reflexivity|now rewrite IH]. Qed.

Lemma adds_refl (p : Page) : adds p p [].
Proof. exists []. rewrite app_nil_r. destruct p. repeat split. Qed.

Lemma adds_trans (p p1 p2 : Page) (c1 c2 : list pystr) :
  adds p p1 c1 -> adds p1 p2 c2 -> adds p p2 (c1 ++ c2).
Proof.
  intros (n1 & -> & Hs1 & Hc1) (n2 & -> & Hs2 & Hc2).
  exists (n1 ++ n2). cbn [page_clock shown]. rewrite <- app_assoc.
  split; [reflexivity|].
  now rewrite effects_app, sleeps_app, outbound_calls_app, Hs1, Hs2, Hc1, Hc2.
Qed.

Lemma adds_show (e : page_event) (p : Page) :
  match e with Shown _ => False | _ => True end -> adds p (show e p) [].
Proof.
  intro H. exists [e]. split; [reflexivity|]. destruct e; try contradiction; now split.
Qed.

Lemma adds_page_after (p : Page) (new : list event) (calls : list pystr) :
  sleeps new = [] -> outbound_calls new = calls ->
  adds p (page_after p (mkWorld (page_clock p) ([] ++ new))) calls.
Proof.
  intros Hs Hc. exists (map Shown new). unfold page_after. cbn [clock trace app].
  split; [reflexivity|]. now rewrite effects_shown.
Qed.

(** The records tab adds to the page without sleeping or calling the
    service, whether it returns or raises. *)
Lemma view_records_adds (selected : list pystr) (id : pystr) (st : Store) (p : Page) :
  adds p (snd (_view_records selected id st p)) [].
Proof.
  unfold _view_records.
  destruct (db_select_listing (rows st)) as [|rec records].
  - cbn [snd]. now apply adds_show.
  - set (p1 := show (EvStDataframe (rec :: records))
                 (show (EvPageSubheader (str "Schema Records")) p)).
    assert (H1 : adds p p1 []).
    { apply (adds_trans p (show (EvPageSubheader (str "Schema Records")) p) p1 [] []);
        now apply adds_show. }
    destruct (match selected with
              | [] => Ok p1
              | _ :: _ =>
                  schemas_to_download <- collect_schemas selected (rows st) [] ;;
                  Ok (show (EvDownloadArchive schemas_to_download
                              (str "selected_schemas.zip")) p1)
              end) as [p2|e] eqn:Eb; [|exact H1].
    assert (H2 : adds p p2 []).
    { destruct selected as [|s0 sel].
      - now injection Eb as <-.
      - destruct (collect_schemas (s0 :: sel) (rows st) []) as [entries|e]; [|discriminate].
        cbn [bind] in Eb. injection Eb as <-.
        eapply (adds_trans p p1 _ [] []); [exact H1|now apply adds_show]. }
    set (p3 := show (EvPageSubheader (str "Record Details")) p2).
    assert (H3 : adds p p3 []).
    { apply (adds_trans p p2 p3 [] []); [exact H2|now apply adds_show]. }
    destruct (view_record_details id st (world_of p3)) as [w|e] eqn:Ev; cbn [snd];
      [|exact H3].
    eapply (adds_trans p p3 _ [] []); [exact H3|].
    assert (Hw : exists new, w = mkWorld (page_clock p3) ([] ++ new) /\
                             sleeps new = [] /\ outbound_calls new = []).
    { unfold view_record_details in Ev. destruct id as [|c id].
      - injection Ev as <-. now exists [].
      - destruct (db_select_schema (c :: id) (rows st)) as [text|].
        + destruct (json_loads text) as [schema|e]; [|discriminate].
          cbn [bind] in Ev. injection Ev as <-. eexists [_; _]. repeat split.
        + injection Ev as <-. eexists [_]. repeat split. }
    destruct Hw as (new & -> & Hs & Hc). now apply adds_page_after.
Qed.

(** A batch of uploads adds its feedback. *)
Lemma upload_feedback_quiet (successful : list successful_upload)
  (failed : list failed_upload) :
  sleeps (upload_feedback successful failed) = [] /\
  outbound_calls (upload_feedback successful failed) = [].
Proof.
  unfold upload_feedback. rewrite sleeps_app, outbound_calls_app.
  assert (H1 : forall l : list successful_upload,
            sleeps (flat_map (fun upload =>
                      [EvStSubheader (ok_filename upload) (ok_id upload);
                       EvStJson (ok_schema upload)]) l) = [] /\
            outbound_calls (flat_map (fun upload =>
                      [EvStSubheader (ok_filename upload) (ok_id upload);
                       EvStJson (ok_schema upload)]) l) = []).
  { induction l as [|u l [IH1 IH2]]; [now split|]. cbn. now split. }
  assert (H2 : forall l : list failed_upload,
            sleeps (map (fun upload =>
                      EvStError (FileError (failed_filename upload) (failed_error upload))) l)
            = [] /\
            outbound_calls (map (fun upload =>
                      EvStError (FileError (failed_filename upload) (failed_error upload))) l)
            = []).
  { induction l as [|u l [IH1 IH2]]; [now split|]. cbn. now split. }
  destruct successful as [|u successful]; destruct failed as [|x failed]; cbn;
    try (destruct (H1 successful) as [-> ->]); try (destruct (H2 failed) as [-> ->]);
    now split.
Qed.

Lemma run_tab2_adds (widgets : Widgets) (st : Store) (p : Page) :
  adds p (snd (run_tab2 widgets st p)) [].
Proof.
  unfold run_tab2.
  set (p1 := show (EvPageSubheader (str "Upload Schema Files")) p).
  assert (H1 : adds p p1 []) by now apply adds_show.
  destruct (uploaded_files widgets) as [|f files]; [exact H1|].
  unfold _upload_schema_files.
  destruct (upload_loop (f :: files) [] [] st (world_of p1)) as [[successful failed] st'].
  cbn [snd]. eapply (adds_trans p p1 _ [] []); [exact H1|].
  destruct (upload_feedback_quiet successful failed) as [Hs Hc].
  exact (adds_page_after p1 _ [] Hs Hc).
Qed.

(** The Generate button, once the limiter has let the call through: what
    follows the call of the service on the page, and what becomes of the
    table. *)
Lemma run_generate_cases (sg : SchemaGenerator) (prompt : pystr) (st : Store)
  (w : World) (rl1 : RateLimiter) (w1 : World) :
  prompt <> [] ->
  wait (rate_limiter sg) w = (Ok tt, rl1, w1) ->
  exists st' tail,
    run_generate sg prompt st w =
      (set_rate_limiter sg rl1, st',
       mkWorld (clock w1)
         (trace w1 ++ EvGenerateContent (generation_prompt prompt) :: tail)) /\
    ((tail = [] /\ st' = st) \/
     (exists m, tail = [EvStError m] /\
                (st' = st \/ st' = mkStore (rows st) (uuid4 st) (S (drawn st)))) \/
     (exists text schema,
        model sg (generation_prompt prompt) = ReplyText text /\
        extract_schema text = Ok schema /\
        has_id (uuid4 st (drawn st)) (rows st) = false /\
        tail = [EvStJson schema;
                EvDownloadButton (json_dumps (Some 2%nat) schema) (str "schema.json")] /\
        st' = mkStore (rows st ++ [mkRow (uuid4 st (drawn st)) prompt
                                     (json_dumps None schema) (clock w1)])
                (uuid4 st) (S (drawn st)))).
Proof.
  intros Hp Hw. unfold run_generate. destruct prompt as [|c prompt']; [congruence|].
  set (prompt := c :: prompt').
  unfold generate_schema, generate_schema_try. rewrite Hw.
  assert (Herr : forall m,
    exists st' tail,
      (set_rate_limiter sg rl1, st,
       emit (EvStError m) (emit (EvGenerateContent (generation_prompt prompt)) w1)) =
      (set_rate_limiter sg rl1, st',
       mkWorld (clock w1)
         (trace w1 ++ EvGenerateContent (generation_prompt prompt) :: tail)) /\
      ((tail = [] /\ st' = st) \/
       (exists m, tail = [EvStError m] /\
                  (st' = st \/ st' = mkStore (rows st) (uuid4 st) (S (drawn st)))) \/
       (exists text schema,
          model sg (generation_prompt prompt) = ReplyText text /\
          extract_schema text = Ok schema /\
          has_id (uuid4 st (drawn st)) (rows st) = false /\
          tail = [EvStJson schema;
                  EvDownloadButton (json_dumps (Some 2%nat) schema) (str "schema.json")] /\
          st' = mkStore (rows st ++ [mkRow (uuid4 st (drawn st)) prompt
                                       (json_dumps None schema) (clock w1)])
                  (uuid4 st) (S (drawn st))))).
  { intro m. exists st, [EvStError m]. split.
    - unfold emit. cbn [clock trace]. now rewrite <- app_assoc.
    - right; left. exists m. auto. }
  destruct (model sg (generation_prompt prompt)) as [text|e] eqn:Hm.
  - destruct (extract_schema text) as [schema|e] eqn:He.
    + destruct (truthy schema) eqn:Ht.
      * unfold save_schema, draw_uuid, db_insert, set_rows.
        cbn [rows uuid4 drawn row_id clock trace emit].
        destruct (has_id (uuid4 st (drawn st)) (rows st)) eqn:Hid.
        -- do 2 eexists. split.
           ++ unfold emit. cbn [clock trace]. rewrite <- app_assoc. reflexivity.
           ++ right; left. eexists. split; [reflexivity|]. now right.
        -- do 2 eexists. split.
           ++ unfold emit. cbn [clock trace]. rewrite <- !app_assoc. reflexivity.
           ++ right; right. exists text, schema. auto.
      * exists st, []. split.
        -- reflexivity.
        -- left. auto.
    + destruct e; cbn [truthy]; apply Herr.
  - destruct e; cbn [truthy]; apply Herr.
Qed.

(** The Generate button on a generator whose limiter has recorded nothing. *)
Lemma run_generate_fresh (m : pystr -> reply) (prompt : pystr) (st : Store)
  (w : World) :
  exists sg' st' new,
    run_generate (SchemaGenerator_init m) prompt st w =
      (sg', st', mkWorld (clock w) (trace w ++ new)) /\
    sleeps new = [] /\
    outbound_calls new =
      match prompt with
      | [] => []
      | _ :: _ => [generation_prompt prompt]
      end /\
    (length (request_times (rate_limiter sg')) <= 1)%nat.
Proof.
  destruct prompt as [|c prompt'] eqn:Ep.
  - do 2 eexists. exists [EvStWarning EnterPrompt]. repeat split. cbn. lia.
  - rewrite <- Ep.
    assert (Hw : wait (rate_limiter (SchemaGenerator_init m)) w =
                 (Ok tt, set_request_times RateLimiter_default [clock w],
                  mkWorld (clock w) (trace w ++ [EvLockAcquire; EvLockRelease]))).
    { cbn [SchemaGenerator_init rate_limiter].
      now rewrite (wait_room RateLimiter_default w) by (cbn; lia). }
    destruct (run_generate_cases (SchemaGenerator_init m) prompt st w _ _
                ltac:(congruence) Hw) as (st' & tail & -> & Hcases).
    do 2 eexists. exists ([EvLockAcquire; EvLockRelease]
                          ++ EvGenerateContent (generation_prompt prompt) :: tail).
    cbn [clock trace app]. rewrite <- app_assoc. split; [reflexivity|].
    assert (Hq : sleeps tail = [] /\ outbound_calls tail = []).
    { destruct Hcases as [[-> _]|[(e & -> & _)|(t & s & _ & _ & _ & -> & _)]];
        now split. }
    destruct Hq as [Hs Hc]. cbn. rewrite Hs, Hc. repeat split. lia.
Qed.

(** The first tab with the generator the sidebar has just built. *)
Lemma run_tab1_built (m : pystr -> reply) (key : pystr) (widgets : Widgets)
  (st : Store) (p : Page) :
  key <> [] ->
  exists self' st' p',
    run_tab1 (mkSchemaGeneratorUI (Some (SchemaGenerator_init m))) key widgets st p =
      (self', st', p') /\
    adds p p' (match generate_pressed widgets, prompt widgets with
               | true, _ :: _ => [generation_prompt (prompt widgets)]
               | _, _ => []
               end) /\
    (forall sg, schema_generator self' = Some sg ->
       (length (request_times (rate_limiter sg)) <= 1)%nat).
Proof.
  intro Hk. unfold run_tab1. destruct key as [|k key']; [congruence|].
  destruct (generate_pressed widgets).
  - cbn [schema_generator].
    destruct (run_generate_fresh m (prompt widgets) st (world_of p))
      as (sg' & st' & new & -> & Hs & Hc & Hlen).
    do 3 eexists. split; [reflexivity|]. split.
    + cbn [world_of clock trace]. apply adds_page_after; [exact Hs|].
      rewrite Hc. now destruct (prompt widgets).
    + cbn [schema_generator]. now intros sg [= <-].
  - do 3 eexists. split; [reflexivity|]. split; [apply adds_refl|].
    cbn [schema_generator]. intros sg [= <-]. cbn. lia.
Qed.

(** The first tab without a generator. *)
Lemma run_tab1_unbuilt (key : pystr) (widgets : Widgets) (st : Store) (p : Page) :
  exists p',
    run_tab1 SchemaGeneratorUI_init key widgets st p = (SchemaGeneratorUI_init, st, p') /\
    adds p p' [] /\
    (key <> [] -> generate_pressed widgets = true -> prompt widgets <> [] ->
     p' = show (Shown (EvStError (ErrorGenerating no_generator))) p) /\
    (key = [] -> p' = show (EvPageWarning EnterApiKey) p).
Proof.
  unfold run_tab1. destruct key as [|k key'].
  - eexists. split; [reflexivity|]. split; [now apply adds_show|].
    split; [congruence|reflexivity].
  - destruct (generate_pressed widgets).
    + cbn [SchemaGeneratorUI_init schema_generator].
      destruct (prompt widgets) as [|c q].
      * eexists. split; [reflexivity|]. split.
        -- exists [Shown (EvStWarning EnterPrompt)]. repeat split.
        -- split; [congruence|discriminate].
      * eexists. split; [reflexivity|]. split.
        -- exists [Shown (EvStError (ErrorGenerating no_generator))]. repeat split.
        -- split; [reflexivity|discriminate].
    + eexists. split; [reflexivity|]. split; [apply adds_refl|].
      split; [discriminate|discriminate].
Qed.

(** One run of the script: what it adds to the page. *)
Lemma script_adds (gemini_api_key : option pystr) (configured : result (pystr -> reply))
  (widgets : Widgets) (st : Store) (p : Page) :
  exists r self' key' st' p',
    script gemini_api_key configured widgets st p = (r, self', key', st', p') /\
    adds p p' (match api_key widgets, configured,
                     generate_pressed widgets, prompt widgets with
               | _ :: _, Ok _, true, _ :: _ => [generation_prompt (prompt widgets)]
               | _, _, _, _ => []
               end) /\
    (forall sg, schema_generator self' = Some sg ->
       (length (request_times (rate_limiter sg)) <= 1)%nat).
Proof.
  unfold script, run.
  set (p0 := show (EvStTitle (str "Schema Generator")) p).
  assert (H0 : adds p p0 []) by now apply adds_show.
  unfold run_sidebar.
  set (p1 := show (EvStTitle (str "Configuration")) p0).
  assert (H1 : adds p p1 []).
  { apply (adds_trans p p0 p1 [] []); [exact H0|now apply adds_show]. }
  set (key0 := match gemini_api_key with None => [] | Some key => key end).
  destruct (api_key widgets) as [|k api_key'] eqn:Ek.
  - (* nothing typed *)
    destruct (run_tab1_unbuilt key0 widgets st p1) as (p2 & -> & H2 & _).
    destruct (run_tab2 widgets st p2) as [st3 p3] eqn:E3.
    pose proof (run_tab2_adds widgets st p2) as H3. rewrite E3 in H3. cbn [snd] in H3.
    destruct (_view_records (selected_ids widgets) (record_id widgets) st3 p3)
      as [r p4] eqn:E4.
    pose proof (view_records_adds (selected_ids widgets) (record_id widgets) st3 p3) as H4.
    rewrite E4 in H4. cbn [snd] in H4.
    do 5 eexists. split; [reflexivity|]. split.
    + apply (adds_trans p p1 p4 [] []); [exact H1|].
      apply (adds_trans p1 p2 p4 [] []); [exact H2|].
      apply (adds_trans p2 p3 p4 [] []); assumption.
    + cbn [SchemaGeneratorUI_init schema_generator]. discriminate.
  - unfold SchemaGenerator_new. destruct configured as [m|e]; cbn [bind].
    + (* a generator is built *)
      destruct (run_tab1_built m (k :: api_key') widgets st p1 ltac:(discriminate))
        as (self2 & st2 & p2 & -> & H2 & Hlen).
      destruct (run_tab2 widgets st2 p2) as [st3 p3] eqn:E3.
      pose proof (run_tab2_adds widgets st2 p2) as H3. rewrite E3 in H3. cbn [snd] in H3.
      destruct (_view_records (selected_ids widgets) (record_id widgets) st3 p3)
        as [r p4] eqn:E4.
      pose proof (view_records_adds (selected_ids widgets) (record_id widgets) st3 p3) as H4.
      rewrite E4 in H4. cbn [snd] in H4.
      do 5 eexists. split; [reflexivity|]. split; [|exact Hlen].
      pose proof (adds_trans p2 p3 p4 [] [] H3 H4) as H24.
      pose proof (adds_trans p1 p2 p4 _ _ H2 H24) as H14. rewrite app_nil_r in H14.
      exact (adds_trans p p1 p4 _ _ H1 H14).
    + (* the generator cannot be built *)
      set (p1e := show (EvPageError (ErrorInitializing e)) p1).
      assert (H1e : adds p p1e []).
      { apply (adds_trans p p1 p1e [] []); [exact H1|now apply adds_show]. }
      destruct (run_tab1_unbuilt (k :: api_key') widgets st p1e) as (p2 & -> & H2 & _).
      destruct (run_tab2 widgets st p2) as [st3 p3] eqn:E3.
      pose proof (run_tab2_adds widgets st p2) as H3. rewrite E3 in H3. cbn [snd] in H3.
      destruct (_view_records (selected_ids widgets) (record_id widgets) st3 p3)
        as [r p4] eqn:E4.
      pose proof (view_records_adds (selected_ids widgets) (record_id widgets) st3 p3) as H4.
      rewrite E4 in H4. cbn [snd] in H4.
      do 5 eexists. split; [reflexivity|]. split.
      * apply (adds_trans p p1e p4 [] []); [exact H1e|].
        apply (adds_trans p1e p2 p4 [] []); [exact H2|].
        apply (adds_trans p2 p3 p4 [] []); assumption.
      * cbn [SchemaGeneratorUI_init schema_generator]. discriminate.
Qed.

(** X15.  A run of the script never waits for the limiter.  [run] builds a
    new [SchemaGenerator], and with it an empty limiter, every time a key is
    in the input, and calls [generate_schema] at most once; so whatever the
    widgets return and however often the script is run, no run calls
    [time.sleep], the clock is where it was, and the limiter the run leaves
    behind has recorded at most one request. *)
Theorem script_never_sleeps (gemini_api_key : option pystr)
  (configured : result (pystr -> reply)) (widgets : Widgets) (st : Store) (p : Page) :
  exists r self' key' st' new,
    script gemini_api_key configured widgets st p =
      (r, self', key', st', mkPage (page_clock p) (shown p ++ new)) /\
    sleeps (effects new) = [] /\
    (forall sg, schema_generator self' = Some sg ->
       (length (request_times (rate_limiter sg)) <= 1)%nat).
Proof.
  destruct (script_adds gemini_api_key configured widgets st p)
    as (r & self' & key' & st' & p' & Hs & (new & -> & Hq & _) & Hlen).
  exists r, self', key', st', new. auto.
Qed.

(** X16.  A run of the script calls the generation service exactly when a
    key was typed, the generator could be built, the button was pressed and
    the prompt is not empty; it then calls it once, with the text of lines
    75-76 around the prompt.  In every other case the service is not
    called. *)
Theorem script_calls_service_exactly_when (gemini_api_key : option pystr)
  (configured : result (pystr -> reply)) (widgets : Widgets) (st : Store) (p : Page) :
  exists r self' key' st' new,
    script gemini_api_key configured widgets st p =
      (r, self', key', st', mkPage (page_clock p) (shown p ++ new)) /\
    outbound_calls (effects new) =
      match api_key widgets, configured, generate_pressed widgets, prompt widgets with
      | _ :: _, Ok _, true, _ :: _ => [generation_prompt (prompt widgets)]
      | _, _, _, _ => []
      end.
Proof.
  destruct (script_adds gemini_api_key configured widgets st p)
    as (r & self' & key' & st' & p' & Hs & (new & -> & _ & Hc) & _).
  exists r, self', key', st', new. auto.
Qed.

Lemma adds_keeps (p p' : Page) (calls : list pystr) (e : page_event) :
  adds p p' calls -> In e (shown p) -> In e (shown p').
Proof. intros (new & -> & _) H. cbn [shown]. apply in_app_iff. now left. Qed.

(** X17.  Generating without a generator.  When the session holds a key but
    this run has built no generator (the key field came back empty, or
    [SchemaGenerator()] raised), pressing the button with a prompt calls
    [generate_schema] on [None]: the page shows "Error generating schema: "
    with the text of the AttributeError, the service is not called and the
    first tab leaves the table as it is. *)
Theorem script_without_generator (gemini_api_key : option pystr)
  (configured : result (pystr -> reply)) (widgets : Widgets) (st : Store) (p : Page) :
  (api_key widgets = [] /\ exists key, gemini_api_key = Some key /\ key <> []) \/
  (api_key widgets <> [] /\ exists e, configured = Raise e) ->
  generate_pressed widgets = true ->
  prompt widgets <> [] ->
  uploaded_files widgets = [] ->
  exists r key' p',
    script gemini_api_key configured widgets st p =
      (r, SchemaGeneratorUI_init, key', st, p') /\
    In (Shown (EvStError (ErrorGenerating no_generator))) (shown p') /\
    outbound_calls (effects (shown p')) = outbound_calls (effects (shown p)).
Proof.
  intros Hno Hpressed Hprompt Hfiles.
  assert (Hshape : exists key1 p1,
    key1 <> [] /\
    run_sidebar SchemaGeneratorUI_init gemini_api_key configured widgets
      (show (EvStTitle (str "Schema Generator")) p) = (SchemaGeneratorUI_init, key1, p1) /\
    adds p p1 []).
  { unfold run_sidebar.
    set (p0 := show (EvStTitle (str "Schema Generator")) p).
    assert (H0 : adds p p0 []) by now apply adds_show.
    set (p1 := show (EvStTitle (str "Configuration")) p0).
    assert (H1 : adds p p1 []).
    { apply (adds_trans p p0 p1 [] []); [exact H0|now apply adds_show]. }
    destruct Hno as [(Ha & key & -> & Hk)|(Ha & e & ->)].
    - rewrite Ha. exists key, p1. auto.
    - destruct (api_key widgets) as [|k a]; [congruence|].
      cbn [SchemaGenerator_new bind]. do 2 eexists.
      split; [|split; [reflexivity|]]; [discriminate|].
      apply (adds_trans p p1 _ [] []); [exact H1|now apply adds_show]. }
  destruct Hshape as (key1 & p1 & Hk & Hside & H1).
  unfold script, run. rewrite Hside.
  destruct (run_tab1_unbuilt key1 widgets st p1) as (p2 & -> & H2 & Herr & _).
  specialize (Herr Hk Hpressed Hprompt).
  unfold run_tab2. rewrite Hfiles.
  set (p3 := show (EvPageSubheader (str "Upload Schema Files")) p2).
  assert (H3 : adds p2 p3 []) by now apply adds_show.
  destruct (_view_records (selected_ids widgets) (record_id widgets) st p3)
    as [r p4] eqn:E4.
  pose proof (view_records_adds (selected_ids widgets) (record_id widgets) st p3) as H4.
  rewrite E4 in H4. cbn [snd] in H4.
  exists r, key1, p4. split; [reflexivity|]. split.
  - apply (adds_keeps p3 p4 [] _ H4). apply (adds_keeps p2 p3 [] _ H3).
    rewrite Herr. unfold show. cbn [shown]. apply in_app_iff. right. now left.
  - pose proof (adds_trans p p1 p4 [] []
                  H1 (adds_trans p1 p2 p4 [] [] H2 (adds_trans p2 p3 p4 [] [] H3 H4)))
      as (new & -> & _ & Hc).
    cbn [shown]. now rewrite effects_app, outbound_calls_app, Hc, app_nil_r.
Qed.

Lemma script_without_generator_witness :
  exists r key' p',
    script (Some (str "k-1")) (Ok (fun _ => ReplyText example_raw_text))
      (mkWidgets [] (str "users") true [] [] []) example_filled_store (mkPage 9 []) =
      (r, SchemaGeneratorUI_init, key', example_filled_store, p') /\
    In (Shown (EvStError (ErrorGenerating no_generator))) (shown p') /\
    outbound_calls (effects (shown p')) = outbound_calls (effects (shown (mkPage 9 []))).
Proof.
  apply (script_without_generator (Some (str "k-1"))
           (Ok (fun _ => ReplyText example_raw_text))
           (mkWidgets [] (str "users") true [] [] []) example_filled_store (mkPage 9 [])).
  - left. split; [reflexivity|]. exists (str "k-1"). split; [reflexivity|discriminate].
  - reflexivity.
  - discriminate.
  - reflexivity.
Defined.

(* ================================================================== *)
(** ** The table over a run *)

Lemma table_sound_snoc (table : list schema_row) (id prompt : pystr) (schema : json)
  (created_at : Q) :
  distinct_keys (map row_id table) = true ->
  rows_load table = true ->
  has_id id table = false ->
  wf_json schema = true ->
  distinct_keys (map row_id (table ++ [mkRow id prompt (json_dumps None schema) created_at]))
    = true /\
  rows_load (table ++ [mkRow id prompt (json_dumps None schema) created_at]) = true /\
  (forall id', db_select_schema id' table <> None ->
     db_select_schema id'
       (table ++ [mkRow id prompt (json_dumps None schema) created_at])
     = db_select_schema id' table).
Proof.
  intros Hd Hl Hid Hwf. split; [|split].
  - rewrite map_app. cbn [map row_id]. apply distinct_keys_snoc; [exact Hd|].
    now rewrite <- has_id_keys.
  - rewrite rows_load_app, Hl. now apply dumped_row_loads.
  - intros id' H. now apply select_other.
Qed.

(** The first tab leaves a sound table sound. *)
Lemma run_tab1_table (self : SchemaGeneratorUI) (key : pystr) (widgets : Widgets)
  (st : Store) (p : Page) :
  distinct_keys (map row_id (rows st)) = true ->
  rows_load (rows st) = true ->
  (forall sg, schema_generator self = Some sg ->
     rate_limiter sg = RateLimiter_default /\
     forall q text, model sg q = ReplyText text -> unicode_text text = true) ->
  distinct_keys (map row_id (rows (snd (fst (run_tab1 self key widgets st p))))) = true /\
  rows_load (rows (snd (fst (run_tab1 self key widgets st p)))) = true /\
  (forall id, db_select_schema id (rows st) <> None ->
     db_select_schema id (rows (snd (fst (run_tab1 self key widgets st p))))
     = db_select_schema id (rows st)).
Proof.
  intros Hd Hl Hsg. unfold run_tab1.
  destruct key as [|k key']; [cbn [fst snd]; auto|].
  destruct (generate_pressed widgets); [|cbn [fst snd]; auto].
  destruct (schema_generator self) as [sg|] eqn:Eg.
  - destruct (Hsg sg eq_refl) as [Hrl Hu].
    destruct (prompt widgets) as [|c q] eqn:Ep.
    + cbn [run_generate fst snd]. auto.
    + assert (Hw : wait (rate_limiter sg) (world_of p) =
                   (Ok tt, set_request_times RateLimiter_default [clock (world_of p)],
                    mkWorld (clock (world_of p))
                      (trace (world_of p) ++ [EvLockAcquire; EvLockRelease]))).
      { rewrite Hrl. now rewrite (wait_room RateLimiter_default (world_of p)) by (cbn; lia). }
      destruct (run_generate_cases sg (c :: q) st (world_of p) _ _
                  ltac:(discriminate) Hw) as (st' & tail & -> & Hcases).
      cbn [fst snd].
      destruct Hcases as [[_ ->]|[(e & _ & [-> | ->])|(t & s & Hm & He & Hid & _ & ->)]];
        cbn [rows]; auto.
      apply table_sound_snoc; auto.
      exact (extract_schema_wf t s (Hu _ _ Hm) He).
  - destruct (prompt widgets); cbn [fst snd]; auto.
Qed.

Lemma run_sidebar_generator (gemini_api_key : option pystr)
  (configured : result (pystr -> reply)) (widgets : Widgets) (p : Page) :
  (forall m q text, configured = Ok m -> m q = ReplyText text -> unicode_text text = true) ->
  forall sg,
    schema_generator
      (fst (fst (run_sidebar SchemaGeneratorUI_init gemini_api_key configured widgets p)))
    = Some sg ->
    rate_limiter sg = RateLimiter_default /\
    forall q text, model sg q = ReplyText text -> unicode_text text = true.
Proof.
  intros Hu sg. unfold run_sidebar.
  destruct (api_key widgets) as [|k a]; [discriminate|].
  destruct configured as [m|e]; cbn [SchemaGenerator_new bind fst schema_generator];
    [|discriminate].
  intros [= <-]. split; [reflexivity|]. intros q text. now apply Hu.
Qed.

(** X18.  A run of the script on a sound table (pairwise distinct
    identifiers, rows that hold what [json.dumps] wrote), with a service
    that answers in Unicode text, returns normally, whatever the widgets
    return, and leaves the table sound: every identifier that selected a row
    before the run selects the same schema text after it. *)
Theorem script_keeps_table_sound (gemini_api_key : option pystr)
  (configured : result (pystr -> reply)) (widgets : Widgets) (st : Store) (p : Page) :
  distinct_keys (map row_id (rows st)) = true ->
  rows_load (rows st) = true ->
  (forall m q text, configured = Ok m -> m q = ReplyText text -> unicode_text text = true) ->
  exists self' key' st' p',
    script gemini_api_key configured widgets st p = (Ok tt, self', key', st', p') /\
    distinct_keys (map row_id (rows st')) = true /\
    rows_load (rows st') = true /\
    (forall id, db_select_schema id (rows st) <> None ->
       db_select_schema id (rows st') = db_select_schema id (rows st)).
Proof.
  intros Hd Hl Hu. unfold script, run.
  set (p0 := show (EvStTitle (str "Schema Generator")) p).
  pose proof (run_sidebar_generator gemini_api_key configured widgets p0 Hu) as Hsg.
  destruct (run_sidebar SchemaGeneratorUI_init gemini_api_key configured widgets p0)
    as [[self1 key1] p1]. cbn [fst] in Hsg.
  pose proof (run_tab1_table self1 key1 widgets st p1 Hd Hl Hsg) as (Hd2 & Hl2 & Hk2).
  destruct (run_tab1 self1 key1 widgets st p1) as [[self2 st2] p2]. cbn [fst snd] in *.
  assert (H3 : distinct_keys (map row_id (rows (fst (run_tab2 widgets st2 p2)))) = true /\
               rows_load (rows (fst (run_tab2 widgets st2 p2))) = true /\
               (forall id, db_select_schema id (rows st2) <> None ->
                  db_select_schema id (rows (fst (run_tab2 widgets st2 p2)))
                  = db_select_schema id (rows st2))).
  { unfold run_tab2. destruct (uploaded_files widgets) as [|f files]; [cbn [fst]; auto|].
    destruct (_upload_schema_files (f :: files) st2
                (world_of (show (EvPageSubheader (str "Upload Schema Files")) p2)))
      as [[[successful failed] st3] w3] eqn:Eu.
    cbn [fst]. apply upload_files_spec in Eu as [Eu _].
    exact (upload_loop_sound _ _ _ _ _ _ Hd2 Hl2 Eu). }
  destruct (run_tab2 widgets st2 p2) as [st3 p3]. cbn [fst] in H3.
  destruct H3 as (Hd3 & Hl3 & Hk3).
  destruct (view_records_ok (selected_ids widgets) (record_id widgets) st3 p3 Hl3)
    as (p4 & -> & _).
  exists self2, key1, st3, p4. split; [reflexivity|]. split; [exact Hd3|].
  split; [exact Hl3|].
  intros id Hid. rewrite Hk3; [now apply Hk2|]. rewrite Hk2; assumption.
Qed.

Lemma script_keeps_table_sound_witness :
  exists self' key' st' p',
    script None (Ok (fun _ => ReplyText example_fenced_text))
      (mkWidgets (str "k-1") (str "users") true [example_upload; example_broken_upload]
         [str "id-"] (str "id-"))
      example_filled_store (mkPage 9 []) = (Ok tt, self', key', st', p') /\
    distinct_keys (map row_id (rows st')) = true /\
    rows_load (rows st') = true /\
    (forall id, db_select_schema id (rows example_filled_store) <> None ->
       db_select_schema id (rows st') = db_select_schema id (rows example_filled_store)).
Proof.
  apply (script_keeps_table_sound None (Ok (fun _ => ReplyText example_fenced_text))
           (mkWidgets (str "k-1") (str "users") true [example_upload; example_broken_upload]
              [str "id-"] (str "id-"))
           example_filled_store (mkPage 9 [])).
  - reflexivity.
  - vm_compute. reflexivity.
  - intros m q text [= <-] [= <-]. vm_compute. reflexivity.
Defined.
